(** * SQL Lab "save to workspace" export: a shallow embedding

    Source: [superset/commands/sql_lab/save_to_workspace.py].

    Python [str] values are sequences of Unicode code points; they are
    modelled as [list N].  The parts of the interpreter's Unicode database
    that the module consults on non-ASCII code points (through [\w], [\d]
    and [str.lower]) are collected in the class [UnicodeDB]; everything about
    ASCII code points is written out. *)

From Stdlib Require Import ZArith NArith List Ascii String Lia Bool Sorted.
From stdpp Require Import base list gmap.

Local Open Scope N_scope.

(** ** Strings *)

(** a string literal as code points (the literals of this file are ASCII) *)
Definition py (s : string) : list N :=
  map N_of_ascii (list_ascii_of_string s).

Definition SLASH : N := 47.
Definition DOT : N := 46.
Definition DASH : N := 45.
Definition UNDERSCORE : N := 95.
Definition SEMICOLON : N := 59.

Definition DOT_CSV : list N := Eval cbv in py ".csv".
Definition EXPORT : list N := Eval cbv in py "export".
Definition SQL_EXPORTS : list N := Eval cbv in py "sql_exports".

Fixpoint str_eqb (a b : list N) : bool :=
  match a, b with
  | [], [] => true
  | x :: a', y :: b' => (x =? y) && str_eqb a' b'
  | _, _ => false
  end.

(** [not s] on a Python string *)
Definition str_empty (s : list N) : bool :=
  match s with [] => true | _ :: _ => false end.

(** ** Character classes *)

Definition ascii_digit (c : N) : bool := (48 <=? c) && (c <=? 57).
Definition ascii_upper (c : N) : bool := (65 <=? c) && (c <=? 90).
Definition ascii_lower (c : N) : bool := (97 <=? c) && (c <=? 122).
Definition ascii_alnum (c : N) : bool :=
  ascii_digit c || ascii_upper c || ascii_lower c.

(** [Py_UNICODE_ISSPACE]: the class behind [\s] and [str.strip()] *)
Definition is_space (c : N) : bool :=
  ((9 <=? c) && (c <=? 13)) || ((28 <=? c) && (c <=? 32))
  || (c =? 133) || (c =? 160) || (c =? 5760)
  || ((8192 <=? c) && (c <=? 8202))
  || (c =? 8232) || (c =? 8233) || (c =? 8239) || (c =? 8287) || (c =? 12288).

(** the four code points of [".csv"] *)
Definition csv_char (c : N) : bool :=
  (c =? 46) || (c =? 99) || (c =? 115) || (c =? 118).

(** What the module needs from the Unicode database on code points from
    128 on.  [uni_lower before c after] is the full lowercase mapping of [c]
    (one or more code points; the context only matters for capital sigma).
    The two laws are facts of the database: no non-ASCII code point has a
    lowercase form that ends in one of [. c s v], and no decimal digit is
    white space. *)
Class UnicodeDB := {
  uni_isalnum : N -> bool;
  uni_isdecimal : N -> bool;
  uni_lower : list N -> N -> list N -> list N;
  uni_lower_last : forall b c a, 128 <= c ->
    match last (uni_lower b c a) with
    | Some x => negb (csv_char x)
    | None => false
    end = true;
  uni_decimal_not_space : forall c, 128 <= c ->
    uni_isdecimal c = true -> is_space c = false
}.

(** The database restricted to Basic Latin and the Latin-1 Supplement,
    together with the two code points (U+0130, U+212A) whose lowercase form
    contains an ASCII letter.  Other code points are left unclassified and
    unchanged; the instance is used to run the functions on inputs below
    U+0100. *)
Definition latin1_isalnum (c : N) : bool :=
  (c =? 170) || (c =? 178) || (c =? 179) || (c =? 181) || (c =? 185)
  || (c =? 186) || ((188 <=? c) && (c <=? 190))
  || ((192 <=? c) && (c <=? 214)) || ((216 <=? c) && (c <=? 246))
  || ((248 <=? c) && (c <=? 255)).

Definition latin1_lower (b : list N) (c : N) (a : list N) : list N :=
  if ((192 <=? c) && (c <=? 214)) || ((216 <=? c) && (c <=? 222))
  then [c + 32]
  else if c =? 304 then [105; 775]
  else if c =? 8490 then [107]
  else [c].

Lemma latin1_lower_last b c a : 128 <= c ->
  match last (latin1_lower b c a) with
  | Some x => negb (csv_char x)
  | None => false
  end = true.
Proof.
  intros Hc. unfold latin1_lower.
  destruct (((192 <=? c) && (c <=? 214)) || ((216 <=? c) && (c <=? 222))) eqn:E1;
    [|destruct (c =? 304) eqn:E2; [|destruct (c =? 8490) eqn:E3]];
    cbn [last]; try reflexivity;
    unfold csv_char; rewrite !negb_orb, !andb_true_iff, !negb_true_iff, !N.eqb_neq;
    lia.
Qed.

Definition latin1_db : UnicodeDB := {|
  uni_isalnum := latin1_isalnum;
  uni_isdecimal := fun _ => false;
  uni_lower := latin1_lower;
  uni_lower_last := latin1_lower_last;
  uni_decimal_not_space := fun c _ (H : false = true) =>
    match H in _ = b return (if b then is_space c = false else True) with
    | eq_refl => I
    end
|}.

(** ** The string operations the module uses *)

(** [str.rfind] with a one-character needle: the index of the last
    occurrence, or -1 *)
Fixpoint rfind (x : N) (p : list N) : Z :=
  match p with
  | [] => (-1)%Z
  | c :: r =>
      let i := rfind x r in
      if (0 <=? i)%Z then (i + 1)%Z
      else if c =? x then 0%Z else (-1)%Z
  end.

(** [os.path.basename], which on the POSIX host the module is written for
    (its workspace is [~/work]) is [posixpath.basename]:
    [i = p.rfind('/') + 1; return p[i:]] *)
Definition basename (p : list N) : list N :=
  drop (Z.to_nat (rfind SLASH p + 1)) p.

(** [re.sub] with a pattern that is one negated character class and a
    one-character replacement: every code point outside [keep] is replaced *)
Definition re_sub_class (keep : N -> bool) (repl : N) (s : list N) : list N :=
  map (fun c => if keep c then c else repl) s.

(** [str.lstrip(chars)], [str.rstrip(chars)], [str.strip(chars)] *)
Fixpoint lstrip (p : N -> bool) (s : list N) : list N :=
  match s with
  | [] => []
  | c :: r => if p c then lstrip p r else s
  end.

Definition rstrip (p : N -> bool) (s : list N) : list N :=
  rev (lstrip p (rev s)).

Definition strip (p : N -> bool) (s : list N) : list N :=
  rstrip p (lstrip p s).

(** [str.endswith] *)
Definition endswith (s suf : list N) : bool :=
  (length suf <=? length s)%nat
  && str_eqb (drop (length s - length suf) s) suf.

(** [str.startswith] *)
Fixpoint startswith (s pre : list N) : bool :=
  match pre, s with
  | [], _ => true
  | x :: pre', c :: s' => (c =? x) && startswith s' pre'
  | _ :: _, [] => false
  end.

(** [str.replace(old, "")] for a two-character [old]: occurrences are
    removed left to right, without overlap *)
Fixpoint remove2 (x y : N) (s : list N) : list N :=
  match s with
  | c :: ((d :: r') as r) =>
      if (c =? x) && (d =? y) then remove2 x y r' else c :: remove2 x y r
  | _ => s
  end.

(** [str.split(sep)] for a one-character separator (empty fields are kept,
    and the empty string splits into one empty field) *)
Fixpoint split (sep : N) (s : list N) : list (list N) :=
  match s with
  | [] => [[]]
  | c :: r =>
      if c =? sep then [] :: split sep r
      else match split sep r with
           | p :: ps => (c :: p) :: ps
           | [] => [[c]]
           end
  end.

(** [sep.join(parts)] *)
Fixpoint join (sep : list N) (parts : list (list N)) : list N :=
  match parts with
  | [] => []
  | p :: ps =>
      match ps with
      | [] => p
      | _ :: _ => p ++ sep ++ join sep ps
      end
  end.

Section WithUnicode.
Context {U : UnicodeDB}.

(** [\w] of a [str] pattern: alphanumeric or underscore *)
Definition is_word (c : N) : bool :=
  if c <? 128 then ascii_alnum c || (c =? UNDERSCORE) else uni_isalnum c.

(** [\d] of a [str] pattern: a decimal digit *)
Definition is_digit (c : N) : bool :=
  if c <? 128 then ascii_digit c else uni_isdecimal c.

(** [str.lower]: each code point is mapped in turn; the mapping of a
    non-ASCII code point may look at the text before and after it *)
Definition ascii_tolower (c : N) : N := if ascii_upper c then c + 32 else c.

Definition lower_cp (before : list N) (c : N) (after : list N) : list N :=
  if c <? 128 then [ascii_tolower c] else uni_lower before c after.

Fixpoint lower_ctx (before s after : list N) : list N :=
  match s with
  | [] => []
  | c :: r => lower_cp before c (r ++ after) ++ lower_ctx (before ++ [c]) r after
  end.

Definition lower (s : list N) : list N := lower_ctx [] s [].

(** ** [sanitize_filename] *)

(** the class [[\w\-.]] *)
Definition filename_char (c : N) : bool :=
  is_word c || (c =? DASH) || (c =? DOT).

Definition sanitize_filename (filename : list N) : list N :=
  let filename := basename filename in
  let filename := re_sub_class filename_char UNDERSCORE filename in
  let filename := lstrip (N.eqb DOT) filename in
  let filename := if str_empty filename then EXPORT else filename in
  if negb (endswith (lower filename) DOT_CSV)
  then filename ++ DOT_CSV
  else filename.

(** ** [sanitize_subfolder] *)

(** the class [[\w\-]] *)
Definition subfolder_char (c : N) : bool :=
  is_word c || (c =? DASH).

(** the [for part in parts] loop, with [sanitized_parts] as accumulator *)
Fixpoint sanitize_parts (parts sanitized_parts : list (list N))
  : list (list N) :=
  match parts with
  | [] => sanitized_parts
  | part :: rest =>
      let part := re_sub_class subfolder_char UNDERSCORE part in
      let part := strip (N.eqb UNDERSCORE) part in
      if str_empty part then sanitize_parts rest sanitized_parts
      else sanitize_parts rest (sanitized_parts ++ [part])
  end.

Definition sanitize_subfolder (subfolder : list N) : list N :=
  let subfolder := remove2 DOT DOT subfolder in
  let subfolder := strip (N.eqb SLASH) subfolder in
  let parts := split SLASH subfolder in
  let sanitized_parts := sanitize_parts parts [] in
  match sanitized_parts with
  | [] => SQL_EXPORTS
  | _ :: _ => join [SLASH] sanitized_parts
  end.

End WithUnicode.

(** ** Removing the trailing LIMIT clause

    [_stream_to_file] rewrites the SQL text with [re.sub], case-insensitively,
    replacing a match of the pattern
      [\s+LIMIT\s+\d+] [(\s+OFFSET\s+\d+)?] [(tail)$], tail = [\s*;?\s*],
    by its group 2 (the tail).  The matcher below follows the pattern element
    by element.  White space, the keyword letters, digits and [;] are disjoint
    classes, so a greedy repetition never has to give code points back; the
    one choice left is the optional OFFSET group, which is tried first and
    dropped if the rest does not match.  The tail [\s*;?\s*] followed by [$]
    succeeds exactly when it reaches the end of the text (a final newline is
    white space and is consumed by the tail), so a match always runs to the
    end and at most one replacement is made. *)

Section Regex.
Context {U : UnicodeDB}.

(** a lower-case ASCII letter of the pattern under [re.IGNORECASE]: besides
    its two ASCII forms, [i] matches U+0130 and U+0131, [s] matches U+017F
    and [k] matches U+212A *)
Definition ci_literal (lo c : N) : bool :=
  ((c <? 128) && (ascii_tolower c =? lo))
  || ((lo =? 105) && ((c =? 304) || (c =? 305)))
  || ((lo =? 115) && (c =? 383))
  || ((lo =? 107) && (c =? 8490)).

Definition KW_LIMIT : list N := Eval cbv in py "limit".
Definition KW_OFFSET : list N := Eval cbv in py "offset".

(** the longest prefix within a class, and the rest *)
Fixpoint span (p : N -> bool) (s : list N) : list N * list N :=
  match s with
  | [] => ([], [])
  | c :: r =>
      if p c then let '(a, b) := span p r in (c :: a, b) else ([], s)
  end.

(** [cls+]: the rest after one or more code points of the class *)
Definition plus (p : N -> bool) (s : list N) : option (list N) :=
  match span p s with
  | ([], _) => None
  | (_ :: _, rest) => Some rest
  end.

Fixpoint match_keyword (kw s : list N) : option (list N) :=
  match kw, s with
  | [], _ => Some s
  | k :: kw', c :: s' => if ci_literal k c then match_keyword kw' s' else None
  | _ :: _, [] => None
  end.

(** [\s+KW\s+\d+] *)
Definition match_clause (kw s : list N) : option (list N) :=
  match plus is_space s with
  | None => None
  | Some s1 =>
      match match_keyword kw s1 with
      | None => None
      | Some s2 =>
          match plus is_space s2 with
          | None => None
          | Some s3 => plus is_digit s3
          end
      end
  end.

(** group 2, [\s*;?\s*], followed by [$]: the text of the group when the
    tail matches *)
Definition match_tail (s : list N) : option (list N) :=
  let s1 := snd (span is_space s) in
  let s2 := match s1 with
            | c :: r => if c =? SEMICOLON then r else s1
            | [] => s1
            end in
  let s3 := snd (span is_space s2) in
  if str_empty s3 then Some s else None.

(** the whole pattern at the start of [s]: the text of group 2 *)
Definition match_limit (s : list N) : option (list N) :=
  match match_clause KW_LIMIT s with
  | None => None
  | Some s1 =>
      match match_clause KW_OFFSET s1 with
      | Some s2 =>
          match match_tail s2 with
          | Some g => Some g
          | None => match_tail s1
          end
      | None => match_tail s1
      end
  end.

(** [re.sub]: the leftmost match is replaced by its group 2 *)
Fixpoint re_sub_limit (sql : list N) : list N :=
  match match_limit sql with
  | Some g => g
  | None =>
      match sql with
      | [] => []
      | c :: r => c :: re_sub_limit r
      end
  end.

End Regex.

(** ** Data model *)

Definition STREAMING_BATCH_SIZE : Z := 10000.

(** a result row, and a record of a CSV file: the cells in order *)
Definition row : Type := list (list N).

(** Modelled from the spec: the enum [LimitingFactor]
    ([superset.sqllab.limiting_factor] is imported, not part of the sources);
    the spec gives it the values NONE, QUERY, DROPDOWN, QUERY_AND_DROPDOWN. *)
Inductive LimitingFactor := NONE | QUERY | DROPDOWN | QUERY_AND_DROPDOWN.

(** the fields of the [Query] model that the command reads *)
Record Query := {
  client_id : list N;
  select_sql : option (list N);
  executed_sql : list N;
  limiting_factor : LimitingFactor;
  results_key : option (list N);
  engine : list N
}.

(** a value of [_progress_store] *)
Record entry := {
  processed : Z;
  total : Z;
  status : list N
}.

Definition COUNTING : list N := Eval cbv in py "counting".
Definition EXPORTING : list N := Eval cbv in py "exporting".
Definition COMPLETED : list N := Eval cbv in py "completed".
(** the spec's fourth status; the module never writes it *)
Definition FAILED : list N := Eval cbv in py "failed".

(** [SaveToWorkspaceResult] *)
Record SaveToWorkspaceResult := {
  res_status : list N;
  res_path : list N;
  row_count : Z
}.

Definition SUCCESS : list N := Eval cbv in py "success".

Inductive SupersetErrorType :=
| RESULTS_BACKEND_ERROR
| QUERY_SECURITY_ACCESS_ERROR
| GENERIC_BACKEND_ERROR.

(** exceptions: the structured error the command raises itself, and the
    exceptions of its collaborators, named after the call that raises *)
Inductive exc :=
| SupersetErrorException (error_type : SupersetErrorType) (http_status : Z)
| MultipleResultsFound
| ParseError
| IndexError
| KeyError
| MakedirsError
| BackendError
| DatabaseError
| CsvError
| OpenError
| WriteError
| OutOfFuel.

Inductive result (A : Type) :=
| Ok (a : A)
| Raise (e : exc).
Arguments Ok {A} a.
Arguments Raise {A} e.

(** a tabular result held in memory: column names and rows *)
Record Frame := {
  frame_columns : list (list N);
  frame_data : list row
}.

(** a server-side cursor: the column names, the rows not fetched yet, and
    optionally the number of fetches that succeed before one raises *)
Record Cursor := {
  cur_keys : list (list N);
  cur_rows : list row;
  cur_fetches : option nat
}.

(** The collaborators outside the module, as far as the command calls them.
    [None] (or [false]) stands for a call that raises. *)
Record Env := {
  (** [db.session.query(Query)] *)
  env_queries : list Query;
  (** [Query.raise_for_access]: [true] when access is granted *)
  env_access : Query -> bool;
  (** [SQLScript(sql, engine).statements], each statement given by its
      [get_limit_value()] *)
  env_script : list N -> list N -> option (list (option Z));
  (** the home directory [expanduser] finds *)
  env_home : option (list N);
  (** [os.mkdir], as [os.makedirs] calls it for a directory that does not
      exist yet: [true] when the directory is made *)
  env_makedirs : list N -> bool;
  (** [results_backend], when configured, with its [get] *)
  env_backend : option (list N -> option (list N));
  (** decompress and deserialize a cached payload into a frame *)
  env_payload : list N -> option Frame;
  (** [database.get_df(sql, catalog, schema)] *)
  env_get_df : list N -> option Frame;
  (** [df_to_escaped_csv]: the records of the CSV text *)
  env_to_csv : Frame -> option (list row);
  (** [get_sqla_engine] and [engine.connect] *)
  env_connect : bool;
  (** [connection.execute(sql).scalar()] *)
  env_scalar : list N -> option Z;
  (** [connection.execution_options(stream_results=True).execute(sql)] *)
  env_execute : list N -> option Cursor;
  (** [open(filepath, "w", encoding=...)]: [true] when it returns a file *)
  env_open : list N -> bool;
  (** when [open] raises: [true] if the file was created or emptied first
      (an encoding of [CSV_EXPORT] that is not known is only looked up once
      the file is open for writing), [false] if the operating system
      refused to open it *)
  env_open_truncates : list N -> bool;
  (** writing raises once the file holds this many records *)
  env_write_limit : option nat
}.

(** The state the command acts on: the process-wide [_progress_store], the
    directories and files of the workspace, and (for reasoning only) every
    value the store has taken, newest first. *)
Record World := {
  _progress_store : gmap (list N) entry;
  observed : list (gmap (list N) entry);
  dirs : gset (list N);
  files : gmap (list N) (list row)
}.

(** ** A state-and-exception monad: state changes made before an exception
    is raised are kept *)

Definition M (A : Type) : Type := World -> result A * World.

Definition ret {A} (a : A) : M A := fun w => (Ok a, w).
Definition raise {A} (e : exc) : M A := fun w => (Raise e, w).
Definition bind {A B} (m : M A) (k : A -> M B) : M B :=
  fun w => match m w with
           | (Ok a, w') => k a w'
           | (Raise e, w') => (Raise e, w')
           end.
Definition try_except {A} (m : M A) (handler : exc -> M A) : M A :=
  fun w => match m w with
           | (Ok a, w') => (Ok a, w')
           | (Raise e, w') => handler e w'
           end.
Definition lift {A} (r : result A) : M A := fun w => (r, w).
(** a call of a collaborator that may raise [e] *)
Definition call {A} (o : option A) (e : exc) : M A :=
  match o with Some a => ret a | None => raise e end.

Notation "x <- m ;; k" := (bind m (fun x => k))
  (at level 100, m at next level, right associativity).
Notation "m ;;; k" := (bind m (fun _ => k))
  (at level 100, k at level 200, right associativity).

(** the world after [_progress_store[cid] = e] *)
Definition put_entry (cid : list N) (e : entry) (w : World) : World :=
  let st := <[cid := e]> (_progress_store w) in
  {| _progress_store := st; observed := st :: observed w;
     dirs := dirs w; files := files w |}.

(** the world after the file at [path] gets the records [content] *)
Definition put_file (path : list N) (content : list row) (w : World)
  : World :=
  {| _progress_store := _progress_store w; observed := observed w;
     dirs := dirs w; files := <[path := content]> (files w) |}.

(** [_progress_store[client_id] = e] *)
Definition store_set (cid : list N) (e : entry) : M unit :=
  fun w => (Ok tt, put_entry cid e w).

(** [_progress_store[client_id][field] = v], as an update [f] of the entry *)
Definition store_update (cid : list N) (f : entry -> entry) : M unit :=
  fun w =>
    match _progress_store w !! cid with
    | None => (Raise KeyError, w)
    | Some e => store_set cid (f e) w
    end.

Definition set_processed (v : Z) (e : entry) : entry :=
  {| processed := v; total := total e; status := status e |}.
Definition set_total (v : Z) (e : entry) : entry :=
  {| processed := processed e; total := v; status := status e |}.
Definition set_status (v : list N) (e : entry) : entry :=
  {| processed := processed e; total := total e; status := v |}.

(** [get_export_progress] *)
Definition get_export_progress (cid : list N) (w : World) : option entry :=
  _progress_store w !! cid.

(** ** Paths and files *)

Definition TILDE_WORK : list N := Eval cbv in py "~/work".
Definition SLASH_WORK : list N := Eval cbv in py "/work".

(** [os.path.expanduser("~/work")]: the home directory without trailing
    separators, followed by [/work]; the path itself when no home directory
    is known *)
Definition expanduser_work (home : option (list N)) : list N :=
  match home with
  | None => TILDE_WORK
  | Some userhome => rstrip (N.eqb SLASH) userhome ++ SLASH_WORK
  end.

(** [posixpath.join(a, b)] *)
Definition path_join (a b : list N) : list N :=
  if startswith b [SLASH] then b
  else if str_empty a || endswith a [SLASH] then a ++ b
  else a ++ [SLASH] ++ b.

(** a path and its proper prefixes that end before a separator: the
    directories [os.makedirs] makes sure exist *)
Fixpoint dir_prefixes (before rest : list N) : list (list N) :=
  match rest with
  | [] => if str_empty before then [] else [before]
  | c :: r =>
      if (c =? SLASH) && negb (str_empty before)
      then before :: dir_prefixes (before ++ [c]) r
      else dir_prefixes (before ++ [c]) r
  end.

(** [os.makedirs(name, exist_ok=True)] on the path [name] given with its
    ancestors, innermost first: when the parent does not exist it is made
    first, in the same way; then [name] is made, unless it is a directory
    already.  [false] when a [mkdir] raises; the directories made before it
    stay, which [have] accounts for. *)
Fixpoint make_path (mkdir : list N -> bool) (names : list (list N))
    (have : gset (list N)) : bool * gset (list N) :=
  match names with
  | [] => (true, have)
  | name :: heads =>
      let '(ok, have) :=
        match heads with
        | head :: _ =>
            if decide (head ∈ have) then (true, have)
            else make_path mkdir heads have
        | [] => (true, have)
        end in
      if ok
      then if decide (name ∈ have) then (true, have)
           else if mkdir name then (true, have ∪ {[name]})
           else (false, have)
      else (false, have)
  end.

(** [df[:limit]] *)
Definition slice_to {A} (limit : Z) (l : list A) : list A :=
  if (0 <=? limit)%Z then take (Z.to_nat limit) l
  else take (length l - Z.to_nat (- limit)) l.

(** [Cursor.fetchmany(size)] *)
Definition fetchmany (size : nat) (c : Cursor)
  : result (list row * Cursor) :=
  match cur_fetches c with
  | Some O => Raise DatabaseError
  | _ =>
      Ok (take size (cur_rows c),
          {| cur_keys := cur_keys c;
             cur_rows := drop size (cur_rows c);
             cur_fetches := Nat.pred <$> cur_fetches c |})
  end.

Definition COUNT_PREFIX : list N :=
  Eval cbv in py "SELECT COUNT(*) as count FROM (".
Definition COUNT_SUFFIX : list N := Eval cbv in py ") as subquery".

(** [f"SELECT COUNT(*) as count FROM ({sql}) as subquery"] *)
Definition count_sql (sql : list N) : list N :=
  COUNT_PREFIX ++ sql ++ COUNT_SUFFIX.

(** truth value of an optional string: [None] and the empty string are
    false *)
Definition truthy (o : option (list N)) : bool :=
  match o with
  | Some (_ :: _) => true
  | _ => false
  end.

(** ** The command *)

Record Command := {
  _client_id : list N;
  _filename : list N;
  _subfolder : list N;
  _streaming : bool
}.

Section Command.
Context {U : UnicodeDB}.
Variable env : Env.

(** [SqlResultSaveToWorkspaceCommand.__init__] *)
Definition __init__ (client_id filename subfolder : list N) (streaming : bool)
  : Command :=
  {| _client_id := client_id;
     _filename := sanitize_filename filename;
     _subfolder := sanitize_subfolder subfolder;
     _streaming := streaming |}.

(** [os.makedirs(full_dir, exist_ok=True)]: the directories it made are
    there afterwards, also when it raises *)
Definition makedirs (full_dir : list N) : M unit :=
  fun w =>
    let '(ok, made) :=
      make_path (env_makedirs env) (rev (dir_prefixes [] full_dir)) (dirs w) in
    (if ok then Ok tt else Raise MakedirsError,
     {| _progress_store := _progress_store w; observed := observed w;
        dirs := made; files := files w |}).

(** [open(filepath, "w", encoding=encoding)]: the file is created, or
    emptied; so it is when [open] raises after that *)
Definition open_write (filepath : list N) : M unit :=
  fun w =>
    if env_open env filepath then (Ok tt, put_file filepath [] w)
    else if env_open_truncates env filepath
         then (Raise OpenError, put_file filepath [] w)
         else (Raise OpenError, w).

(** writing [records] to the open file *)
Definition write_records (filepath : list N) (records : list row) : M unit :=
  fun w =>
    match files w !! filepath with
    | None => (Raise WriteError, w)
    | Some content =>
        let full :=
          match env_write_limit env with
          | Some n => (n <? length content + length records)%nat
          | None => false
          end in
        if full then (Raise WriteError, w)
        else (Ok tt, put_file filepath (content ++ records) w)
    end.

(** [csv.writer.writerow] *)
Definition writerow (filepath : list N) (r : row) : M unit :=
  write_records filepath [r].

Definition one_or_none (l : list Query) : result (option Query) :=
  match l with
  | [] => Ok None
  | [q] => Ok (Some q)
  | _ :: _ :: _ => Raise MultipleResultsFound
  end.

(** [validate]: the query it stores in [self._query] is returned *)
Definition validate (self : Command) : M Query :=
  o <- lift (one_or_none
               (List.filter (fun q => str_eqb (client_id q) (_client_id self))
                  (env_queries env))) ;;
  match o with
  | None => raise (SupersetErrorException RESULTS_BACKEND_ERROR 404)
  | Some query =>
      if env_access env query then ret query
      else raise (SupersetErrorException QUERY_SECURITY_ACCESS_ERROR 403)
  end.

Definition _get_workspace_path (self : Command) : M (list N) :=
  let work_dir := expanduser_work (env_home env) in
  let full_dir :=
    if str_empty (_subfolder self)
       || str_empty (strip is_space (_subfolder self))
    then work_dir
    else path_join work_dir (_subfolder self) in
  makedirs full_dir ;;;
  ret (path_join full_dir (_filename self)).

Definition limited (f : LimitingFactor) : bool :=
  match f with
  | QUERY | DROPDOWN | QUERY_AND_DROPDOWN => true
  | NONE => false
  end.

Definition _get_sql_and_limit (query : Query)
  : result (list N * option Z) :=
  if truthy (select_sql query) then Ok (default [] (select_sql query), None)
  else
    let sql := executed_sql query in
    match env_script env (engine query) sql with
    | None => Raise ParseError
    | Some statements =>
        match last statements with
        | None => Raise IndexError
        | Some limit =>
            let limit :=
              match limit with
              | Some n => if limited (limiting_factor query)
                          then Some (n - 1)%Z else Some n
              | None => None
              end in
            Ok (sql, limit)
        end
    end.

Definition _save_from_cache (query : Query) (filepath : list N)
  : M SaveToWorkspaceResult :=
  let blob :=
    match env_backend env with
    | Some get => if truthy (results_key query)
                  then get (default [] (results_key query)) else None
    | None => None
    end in
  df <- (if truthy blob
         then call (env_payload env (default [] blob)) BackendError
         else
           p <- lift (_get_sql_and_limit query) ;;
           let '(sql, limit) := p in
           df <- call (env_get_df env sql) DatabaseError ;;
           ret match limit with
               | Some n => {| frame_columns := frame_columns df;
                              frame_data := slice_to n (frame_data df) |}
               | None => df
               end) ;;
  csv_string <- call (env_to_csv env df) CsvError ;;
  open_write filepath ;;;
  write_records filepath csv_string ;;;
  ret {| res_status := SUCCESS; res_path := filepath;
         row_count := Z.of_nat (length (frame_data df)) |}.

(** the [for row in rows] loop: every row is written and counted *)
Fixpoint write_rows (filepath : list N) (rows : list row) (row_count : Z)
  : M Z :=
  match rows with
  | [] => ret row_count
  | r :: rest =>
      writerow filepath r ;;;
      write_rows filepath rest (row_count + 1)%Z
  end.

(** the [while True] loop; [writer] tells whether the header is written.
    The loop is bounded by [fuel]; one more than the number of rows is
    enough ([stream_loop_fuel] below). *)
Fixpoint stream_loop (fuel : nat) (cid filepath : list N) (result : Cursor)
    (writer : bool) (row_count : Z) : M Z :=
  match fuel with
  | O => raise OutOfFuel
  | S fuel' =>
      p <- lift (fetchmany (Z.to_nat STREAMING_BATCH_SIZE) result) ;;
      let '(rows, result) := p in
      match rows with
      | [] => ret row_count
      | _ :: _ =>
          (if writer then ret tt else writerow filepath (cur_keys result)) ;;;
          row_count <- write_rows filepath rows row_count ;;
          store_update cid (set_processed row_count) ;;;
          stream_loop fuel' cid filepath result true row_count
      end
  end.

(** the SQL [_stream_to_file] executes, given what [_get_sql_and_limit]
    returned and the statements of the script *)
Definition streaming_sql (query : Query) (sql : list N) (limit : option Z)
    (statements : list (option Z)) : list N :=
  match statements with
  | [] => sql
  | _ :: _ =>
      if truthy (select_sql query) then default [] (select_sql query)
      else match limit with
           | Some _ => re_sub_limit sql
           | None => sql
           end
  end.

(** the best-effort row count, with its [try]/[except] *)
Definition count_rows (cid sql : list N) : M unit :=
  try_except
    (total_rows <- call (env_scalar env (count_sql sql)) DatabaseError ;;
     store_update cid (set_total total_rows) ;;;
     store_update cid (set_status EXPORTING))
    (fun _ => store_update cid (set_status EXPORTING)).

Definition _stream_to_file (self : Command) (query : Query)
    (filepath : list N) : M SaveToWorkspaceResult :=
  p <- lift (_get_sql_and_limit query) ;;
  let '(sql, limit) := p in
  statements <- call (env_script env (engine query) sql) ParseError ;;
  let sql := streaming_sql query sql limit statements in
  store_set (_client_id self)
    {| processed := 0; total := -1; status := COUNTING |} ;;;
  (if env_connect env then ret tt else raise DatabaseError) ;;;
  count_rows (_client_id self) sql ;;;
  result <- call (env_execute env sql) DatabaseError ;;
  open_write filepath ;;;
  row_count <- stream_loop (S (length (cur_rows result))) (_client_id self)
                 filepath result false 0 ;;
  store_update (_client_id self) (set_status COMPLETED) ;;;
  ret {| res_status := SUCCESS; res_path := filepath;
         row_count := row_count |}.

Definition run (self : Command) : M SaveToWorkspaceResult :=
  query <- validate self ;;
  filepath <- _get_workspace_path self ;;
  try_except
    (if _streaming self then _stream_to_file self query filepath
     else _save_from_cache query filepath)
    (fun _ => raise (SupersetErrorException GENERIC_BACKEND_ERROR 500)).

End Command.

(** ** The sanitizers as the specification words them *)

(** the class [[A-Za-z0-9_.-]] *)
Definition ascii_whitelist (c : N) : bool :=
  ascii_alnum c || (c =? UNDERSCORE) || (c =? DOT) || (c =? DASH).

(** "strip any directory component": keep the last [/]-separated component *)
Definition strip_directory (s : list N) : list N :=
  List.last (split SLASH s) [].

(** "ends in .csv, case-insensitively": the last four code points are a
    dot and the letters c, s, v in either case *)
Definition ends_with_csv_ci (s : list N) : bool :=
  match rev s with
  | v :: s' :: c :: d :: _ =>
      (d =? 46) && ((c =? 99) || (c =? 67))
      && ((s' =? 115) || (s' =? 83)) && ((v =? 118) || (v =? 86))
  | _ => false
  end.

(** the filename pipeline of the specification, over a whitelist [cls] *)
Definition spec_sanitize_filename (cls : N -> bool) (f : list N) : list N :=
  let n := strip_directory f in
  let n := map (fun c => if cls c then c else UNDERSCORE) n in
  let n := lstrip (N.eqb DOT) n in
  let n := match n with [] => EXPORT | _ :: _ => n end in
  if ends_with_csv_ci n then n else n ++ DOT_CSV.

(** the subfolder pipeline of the specification: each segment is passed
    through [segment] *)
Definition spec_sanitize_subfolder (segment : list N -> list N)
    (p : list N) : list N :=
  let p := remove2 DOT DOT p in
  let p := strip (N.eqb SLASH) p in
  let segs := List.filter (fun x => negb (str_empty x))
                (map segment (split SLASH p)) in
  match segs with
  | [] => SQL_EXPORTS
  | _ :: _ => join [SLASH] segs
  end.

(** a segment as the specification sanitizes it: the filename whitelist,
    without the stripping of leading dots *)
Definition spec_segment (part : list N) : list N :=
  map (fun c => if ascii_whitelist c then c else UNDERSCORE) part.

(** a segment as the code sanitizes it: the class [[\w\-]] (no dot), then
    underscores stripped from both ends *)
Definition sanitized_segment {U : UnicodeDB} (part : list N) : list N :=
  strip (N.eqb UNDERSCORE) (re_sub_class subfolder_char UNDERSCORE part).

(** the pattern [^[\w.-]+\.csv$]: a non-empty body over the class, then
    the suffix; [$] also matches before a final newline.  [suffix_ok] decides
    the last four code points. *)
Definition matches_name_pattern {U : UnicodeDB}
    (suffix_ok : list N -> bool) (s : list N) : bool :=
  let s := match rev s with
           | 10 :: r => rev r
           | _ => s
           end in
  let body := take (length s - 4) s in
  negb (str_empty body) && forallb filename_char body
  && suffix_ok (drop (length s - 4) s).

(** the suffix [\.csv] *)
Definition suffix_exact (t : list N) : bool := str_eqb t DOT_CSV.

(** the suffix [\.csv] with each letter in either case *)
Definition suffix_ci (t : list N) : bool :=
  match t with
  | [d; c; s'; v] =>
      (d =? 46) && ((c =? 99) || (c =? 67))
      && ((s' =? 115) || (s' =? 83)) && ((v =? 118) || (v =? 86))
  | _ => false
  end.

(** what every sanitized filename satisfies: only code points of the class,
    no leading dot, and the suffix *)
Definition clean_name {U : UnicodeDB} (r : list N) : Prop :=
  Forall (fun c => filename_char c = true) r
  /\ match r with [] => False | c :: _ => c <> DOT end
  /\ endswith (lower r) DOT_CSV = true.

(** the cumulative row counts after each batch, for [n] rows fetched in
    batches of [size] once [c] rows are written; [fuel] bounds the number of
    batches *)
Fixpoint batch_points (fuel size : nat) (c : Z) (n : nat) : list Z :=
  match fuel with
  | O => []
  | S fuel' =>
      match n with
      | O => []
      | S _ =>
          let k := Nat.min size n in
          (c + Z.of_nat k)%Z :: batch_points fuel' size (c + Z.of_nat k)%Z (n - k)
      end
  end.

(** the values of the entry of [cid] in a list of store values *)
Definition entries_of (cid : list N) (h : list (gmap (list N) entry))
  : list (option entry) :=
  map (fun st => st !! cid) h.

(** an export that is under way: the entry exists and its status is
    "counting" or "exporting" *)
Definition in_progress (o : option entry) : Prop :=
  exists e, o = Some e /\ (status e = COUNTING \/ status e = EXPORTING).

(** the values the entry of an export takes, oldest first, when the count
    query returns [scalar] ([None]: it raises) and [n] rows are streamed *)
Definition expected_progress (scalar : option Z) (n : nat) : list entry :=
  let t := default (-1)%Z scalar in
  [{| processed := 0; total := -1; status := COUNTING |}]
  ++ match scalar with
     | Some _ => [{| processed := 0; total := t; status := COUNTING |};
                  {| processed := 0; total := t; status := EXPORTING |}]
     | None => [{| processed := 0; total := t; status := EXPORTING |}]
     end
  ++ map (fun p => {| processed := p; total := t; status := EXPORTING |})
       (batch_points (S n) (Z.to_nat STREAMING_BATCH_SIZE) 0 n)
  ++ [{| processed := Z.of_nat n; total := t; status := COMPLETED |}].

(** the world after the best-effort count *)
Definition counted (cid : list N) (scalar : option Z) (e : entry) (w : World)
  : World :=
  match scalar with
  | Some t => put_entry cid (set_status EXPORTING (set_total t e))
                (put_entry cid (set_total t e) w)
  | None => put_entry cid (set_status EXPORTING e) w
  end.

(** ** An example deployment

    A table [t] of [n] one-column rows behind a PostgreSQL engine, a query
    that was previewed with the limit 100 (one probe row added), and the
    calls of the collaborators on it. *)

Definition demo_sql : list N := Eval cbv in py "SELECT * FROM t".
Definition demo_sql_limited : list N :=
  Eval cbv in py "SELECT * FROM t LIMIT 101".
Definition demo_sql_select : list N :=
  Eval cbv in py "SELECT * FROM t LIMIT 10".

(** the size of the example table *)
Definition demo_n : nat := N.to_nat 25000.

Definition demo_rows (n : nat) : list row :=
  map (fun i => [[N.of_nat i]]) (seq 0 n).

Definition demo_query : Query :=
  {| client_id := py "run-1";
     select_sql := None;
     executed_sql := demo_sql_limited;
     limiting_factor := QUERY;
     results_key := None;
     engine := py "postgresql" |}.

(** a second query, stored with a [select_sql] of its own *)
Definition demo_select_query : Query :=
  {| client_id := py "run-2";
     select_sql := Some demo_sql_select;
     executed_sql := py "CREATE TABLE t AS SELECT * FROM src";
     limiting_factor := NONE;
     results_key := None;
     engine := py "postgresql" |}.

(** the limit of the three statements the example knows *)
Definition demo_limit (sql : list N) : option nat :=
  if str_eqb sql demo_sql_limited then Some 101%nat
  else if str_eqb sql demo_sql_select then Some 10%nat
  else None.

(** the rows the example database returns for a statement *)
Definition demo_result (n : nat) (sql : list N) : option (list row) :=
  if str_eqb sql demo_sql then Some (demo_rows n)
  else match demo_limit sql with
       | Some k => Some (take k (demo_rows n))
       | None => None
       end.

(** [connect], [execute] and [count] tell which calls succeed *)
Definition demo_env (n : nat) (connect execute count : bool) : Env :=
  {| env_queries := [demo_query; demo_select_query];
     env_access := fun _ => true;
     env_script := fun _ sql => Some [Z.of_nat <$> demo_limit sql];
     env_home := Some (py "/home/jovyan");
     env_makedirs := fun _ => true;
     env_backend := None;
     env_payload := fun _ => None;
     env_get_df := fun sql =>
       (fun rows => {| frame_columns := [py "id"]; frame_data := rows |})
       <$> demo_result n sql;
     env_to_csv := fun df => Some (frame_columns df :: frame_data df);
     env_connect := connect;
     env_scalar := fun _ => if count then Some (Z.of_nat n) else None;
     env_execute := fun sql =>
       if execute
       then (fun rows => {| cur_keys := [py "id"]; cur_rows := rows;
                            cur_fetches := None |})
            <$> demo_result n sql
       else None;
     env_open := fun _ => true;
     env_open_truncates := fun _ => false;
     env_write_limit := None |}.

Definition empty_world : World :=
  {| _progress_store := ∅; observed := []; dirs := ∅; files := ∅ |}.

Definition demo_command : Command :=
  @__init__ latin1_db (py "run-1") (py "report") (py "exports/2024") true.

Definition demo_select_command : Command :=
  @__init__ latin1_db (py "run-2") (py "report") (py "exports/2024") true.

Definition demo_path : list N :=
  Eval cbv in py "/home/jovyan/work/exports/2024/report.csv".

(** the state of a world while the export of [cid] is under way: the entry
    is in progress, and so is every value it has taken since the store was
    last seen as [h0] *)
Definition export_pending (cid : list N) (h0 : list (gmap (list N) entry))
    (w : World) : Prop :=
  in_progress (_progress_store w !! cid)
  /\ exists new, observed w = new ++ h0
                 /\ Forall in_progress (entries_of cid new).

(** a computation that keeps [export_pending], however it ends *)
Definition keeps_pending {A : Type} (cid : list N) (h0 : list (gmap (list N) entry))
    (m : M A) : Prop :=
  forall w r w', export_pending cid h0 w -> m w = (r, w') ->
                 export_pending cid h0 w'.

(** a computation that, when it raises from a pending world, ends in a
    pending world *)
Definition fails_pending {A : Type} (cid : list N)
    (h0 : list (gmap (list N) entry)) (m : M A) : Prop :=
  forall w e w', export_pending cid h0 w -> m w = (Raise e, w') ->
                 export_pending cid h0 w'.

(** a computation that does not run out of fuel *)
Definition has_fuel {A : Type} (m : M A) : Prop :=
  forall w w', m w <> (Raise OutOfFuel, w').

(** ** The shape of a trailing LIMIT clause *)

Section ClauseShape.
Context {U : UnicodeDB}.

Definition spaces (ws : list N) : Prop :=
  Forall (fun c => is_space c = true) ws.

(** a keyword in any letter case *)
Definition keyword (kw w : list N) : Prop :=
  Forall2 (fun k c => ci_literal k c = true) kw w.

Definition digits (ds : list N) : Prop :=
  ds <> [] /\ Forall (fun c => is_digit c = true) ds.

(** white space, the keyword, white space, a number *)
Definition clause (kw s : list N) : Prop :=
  exists ws1 w ws2 ds,
    s = ws1 ++ w ++ ws2 ++ ds
    /\ ws1 <> [] /\ spaces ws1 /\ keyword kw w
    /\ ws2 <> [] /\ spaces ws2 /\ digits ds.

(** optional white space, an optional semicolon, optional white space *)
Definition is_tail (t : list N) : Prop :=
  spaces t
  \/ exists ws1 ws2, t = ws1 ++ SEMICOLON :: ws2 /\ spaces ws1 /\ spaces ws2.

(** [s] is a LIMIT clause with an optional OFFSET clause, followed by the
    tail [tail] *)
Definition limit_clause (s tail : list N) : Prop :=
  exists lim off,
    s = lim ++ off ++ tail
    /\ clause KW_LIMIT lim
    /\ (off = [] \/ clause KW_OFFSET off)
    /\ is_tail tail.

(** a code point that the [l] of the pattern does not match *)
Definition not_l (c : N) : Prop := ci_literal 108 c = false.

(** the text does not end in white space *)
Definition no_trailing_space (body : list N) : Prop :=
  forall c, last body = Some c -> is_space c = false.

End ClauseShape.

(** ** Notions for the further properties *)

(** [s] neither begins nor ends with a code point of the class [p] *)
Definition trimmed (p : N -> bool) (s : list N) : Prop :=
  match s with [] => True | c :: _ => p c = false end
  /\ match rev s with [] => True | c :: _ => p c = false end.

(** a file name made of word characters, dashes and dots that does not begin
    with a dot and ends in ".csv" in some letter case *)
Definition valid_filename {U : UnicodeDB} (r : list N) : Prop :=
  Forall (fun c => filename_char c = true) r
  /\ match r with [] => False | c :: _ => c <> DOT end
  /\ ends_with_csv_ci r = true.

(** a relative path: one or more segments joined by [/], each non-empty,
    made of word characters and dashes, without an underscore at either
    end *)
Definition valid_subfolder {U : UnicodeDB} (p : list N) : Prop :=
  exists segs,
    segs <> [] /\ p = join [SLASH] segs
    /\ Forall (fun seg => seg <> []
                          /\ Forall (fun c => subfolder_char c = true) seg
                          /\ trimmed (N.eqb UNDERSCORE) seg) segs.

(** white space or a semicolon: what may follow a LIMIT clause *)
Definition tail_char (c : N) : Prop := is_space c = true \/ c = SEMICOLON.

(** a digit, white space or a semicolon: the last code point of a text the
    LIMIT pattern matches *)
Definition clause_end {U : UnicodeDB} (c : N) : Prop :=
  is_digit c = true \/ is_space c = true \/ c = SEMICOLON.

(** what a streaming export may change: the entry of its client id and
    the file at its path; no other entry, no other file, no directory *)
Definition stream_footprint (cid path : list N) (w w' : World) : Prop :=
  (forall k, k <> cid -> _progress_store w' !! k = _progress_store w !! k)
  /\ (forall p, p <> path -> files w' !! p = files w !! p)
  /\ dirs w' = dirs w.

(** what a standard export may change: the file at its path only *)
Definition cache_footprint (path : list N) (w w' : World) : Prop :=
  _progress_store w' = _progress_store w
  /\ observed w' = observed w
  /\ (forall p, p <> path -> files w' !! p = files w !! p)
  /\ dirs w' = dirs w.

(** a computation whose effect on the world stays within [R] *)
Definition within {A : Type} (R : World -> World -> Prop) (m : M A) : Prop :=
  forall w, R w (snd (m w)).

(** ** A second example deployment: the same table, with a results
    backend that holds the first 50 rows for one query, a query whose SQL
    is empty, and switches for the access check and for the fetch that
    fails *)

Definition demo_cached_query : Query :=
  {| client_id := py "run-3";
     select_sql := None;
     executed_sql := demo_sql_limited;
     limiting_factor := QUERY;
     results_key := Some (py "key-3");
     engine := py "postgresql" |}.

Definition demo_empty_query : Query :=
  {| client_id := py "run-4";
     select_sql := None;
     executed_sql := [];
     limiting_factor := NONE;
     results_key := None;
     engine := py "postgresql" |}.

Definition demo_env2 (n : nat) (access : bool) (fetches : option nat) : Env :=
  {| env_queries := [demo_query; demo_select_query; demo_cached_query;
                     demo_empty_query];
     env_access := fun _ => access;
     env_script := fun _ sql =>
       if str_empty sql then Some [] else Some [Z.of_nat <$> demo_limit sql];
     env_home := Some (py "/home/jovyan");
     env_makedirs := fun _ => true;
     env_backend := Some (fun key =>
       if str_eqb key (py "key-3") then Some (py "payload") else None);
     env_payload := fun _ =>
       Some {| frame_columns := [py "id"];
               frame_data := take 50 (demo_rows n) |};
     env_get_df := fun sql =>
       (fun rows => {| frame_columns := [py "id"]; frame_data := rows |})
       <$> demo_result n sql;
     env_to_csv := fun df => Some (frame_columns df :: frame_data df);
     env_connect := true;
     env_scalar := fun _ => Some (Z.of_nat n);
     env_execute := fun sql =>
       (fun rows => {| cur_keys := [py "id"]; cur_rows := rows;
                       cur_fetches := fetches |})
       <$> demo_result n sql;
     env_open := fun _ => true;
     env_open_truncates := fun _ => false;
     env_write_limit := None |}.

(** the deployment with a file system that refuses: [mkdir] tells which
    directories can be made, [opens] whether [open] returns, [truncates]
    whether a failing [open] has emptied the file *)
Definition demo_env_fs (mkdir : list N -> bool) (opens truncates : bool)
  : Env :=
  let env := demo_env2 3 true None in
  {| env_queries := env_queries env; env_access := env_access env;
     env_script := env_script env; env_home := env_home env;
     env_makedirs := mkdir; env_backend := env_backend env;
     env_payload := env_payload env; env_get_df := env_get_df env;
     env_to_csv := env_to_csv env; env_connect := env_connect env;
     env_scalar := env_scalar env; env_execute := env_execute env;
     env_open := fun _ => opens;
     env_open_truncates := fun _ => truncates;
     env_write_limit := env_write_limit env |}.

Definition demo_cached_command : Command :=
  @__init__ latin1_db (py "run-3") (py "report") (py "exports/2024") false.

Definition demo_standard_command : Command :=
  @__init__ latin1_db (py "run-1") (py "report") (py "exports/2024") false.

Definition demo_empty_command : Command :=
  @__init__ latin1_db (py "run-4") (py "report") (py "exports/2024") true.



(** what [_save_from_cache] finds in the results backend: [blob] after
    [if results_backend and self._query.results_key] *)
Definition cached_blob (env : Env) (query : Query) : option (list N) :=
  match env_backend env with
  | Some get => if truthy (results_key query)
                then get (default [] (results_key query)) else None
  | None => None
  end.

(** [len(df[:limit])] for a frame of [len] rows *)
Definition sliced_length (limit len : Z) : Z :=
  if (0 <=? limit)%Z then Z.min limit len else Z.max 0 (len + limit).

(** the frame the standard mode writes when it re-runs the query *)
Definition replayed (limit : option Z) (df : Frame) : Frame :=
  match limit with
  | Some n => {| frame_columns := frame_columns df;
                 frame_data := slice_to n (frame_data df) |}
  | None => df
  end.

(** * Lemmas *)

(** ** Running the functions *)

Example sanitize_filename_traversal :
  @sanitize_filename latin1_db (py "../../etc/passwd") = py "passwd.csv".
Proof. reflexivity. Qed.

Example sanitize_filename_hidden :
  @sanitize_filename latin1_db (py "...") = py "export.csv".
Proof. reflexivity. Qed.

Example sanitize_filename_spaces :
  @sanitize_filename latin1_db (py "my report (1).Csv") = py "my_report__1_.Csv".
Proof. reflexivity. Qed.

Example sanitize_subfolder_traversal :
  @sanitize_subfolder latin1_db (py "/a/../../b.c//") = py "a/b_c".
Proof. reflexivity. Qed.

Example sanitize_subfolder_default :
  @sanitize_subfolder latin1_db (py "../..") = py "sql_exports".
Proof. reflexivity. Qed.

Example remove2_odd_run : remove2 DOT DOT (py ".....a...") = py ".a.".
Proof. reflexivity. Qed.

Example re_sub_limit_offset :
  @re_sub_limit latin1_db (py "SELECT * FROM t limit 101 OFFSET 5 ;")
  = py "SELECT * FROM t ;".
Proof. reflexivity. Qed.

Example re_sub_limit_inner :
  @re_sub_limit latin1_db (py "SELECT * FROM (SELECT 1 LIMIT 5) x")
  = py "SELECT * FROM (SELECT 1 LIMIT 5) x".
Proof. reflexivity. Qed.

(** ** Facts about the string operations *)

Lemma str_eqb_eq a b : str_eqb a b = true <-> a = b.
Proof.
  revert b; induction a as [|x a IH]; intros [|y b]; cbn; try (split; congruence).
  rewrite andb_true_iff, N.eqb_eq, IH. split; [intros [-> ->]; reflexivity|].
  intros [= -> ->]; auto.
Qed.

Lemma endswith_spec s suf :
  endswith s suf = true <-> exists m, s = m ++ suf.
Proof.
  unfold endswith. rewrite andb_true_iff, Nat.leb_le, str_eqb_eq. split.
  - intros [Hle Hd]. exists (take (length s - length suf) s).
    rewrite <- (take_drop (length s - length suf) s) at 1. f_equal. exact Hd.
  - intros [m ->]. rewrite length_app. split; [lia|].
    replace (length m + length suf - length suf)%nat with (length m) by lia.
    apply drop_app_length.
Qed.

Lemma rfind_ge x p : (-1 <= rfind x p)%Z.
Proof.
  induction p as [|c r IH]; cbn; [lia|].
  destruct (0 <=? rfind x r)%Z eqn:E; [lia|]. destruct (c =? x); lia.
Qed.

Lemma split_not_nil sep s : split sep s <> [].
Proof.
  destruct s as [|c r]; cbn; [discriminate|].
  destruct (c =? sep); [discriminate|]. destruct (split sep r); discriminate.
Qed.

Lemma rfind_split x p :
  ((rfind x p < 0)%Z -> split x p = [p])
  /\ ((0 <= rfind x p)%Z -> exists a b l, split x p = a :: b :: l)
  /\ drop (Z.to_nat (rfind x p + 1)) p = List.last (split x p) [].
Proof.
  induction p as [|c r (IH1 & IH2 & IH3)]; cbn [rfind split].
  - repeat split; try reflexivity. intros H; cbn in H; lia.
  - pose proof (rfind_ge x r) as Hge.
    destruct (0 <=? rfind x r)%Z eqn:E.
    + apply Z.leb_le in E. destruct (IH2 E) as (a & b & l & Hs).
      split; [lia|]. split.
      * intros _. rewrite Hs. destruct (c =? x); eauto.
      * replace (Z.to_nat (rfind x r + 1 + 1)) with (S (Z.to_nat (rfind x r + 1))) by lia.
        cbn [drop]. rewrite IH3, Hs. destruct (c =? x); reflexivity.
    + apply Z.leb_gt in E. rewrite (IH1 E).
      destruct (c =? x) eqn:Ec.
      * split; [intros H; lia|]. split; [eauto|]. reflexivity.
      * split; [reflexivity|]. split; [intros H; lia|]. reflexivity.
Qed.

(** [basename] keeps the last of the [/]-separated components *)
Lemma basename_last_component p :
  basename p = List.last (split SLASH p) [].
Proof. apply rfind_split. Qed.

Lemma rfind_neg_notin x p : (rfind x p < 0)%Z <-> Forall (fun c => c <> x) p.
Proof.
  induction p as [|c r IH]; cbn [rfind].
  - split; [constructor | lia].
  - pose proof (rfind_ge x r). destruct (0 <=? rfind x r)%Z eqn:E.
    + apply Z.leb_le in E. split; [lia|]. intros HF. inversion HF; subst.
      apply IH in H3. lia.
    + apply Z.leb_gt in E. destruct (c =? x) eqn:Ec.
      * apply N.eqb_eq in Ec. split; [lia|]. intros HF. inversion HF; subst. congruence.
      * apply N.eqb_neq in Ec. split; [|lia]. intros _. constructor; [assumption|].
        apply IH; assumption.
Qed.

Lemma basename_no_sep p : Forall (fun c => c <> SLASH) p -> basename p = p.
Proof.
  intros H. apply rfind_neg_notin in H. pose proof (rfind_ge SLASH p).
  unfold basename. replace (rfind SLASH p) with (-1)%Z by lia. reflexivity.
Qed.

Lemma basename_suffix p : exists d, p = d ++ basename p.
Proof. exists (take (Z.to_nat (rfind SLASH p + 1)) p). symmetry. apply take_drop. Qed.

Lemma lstrip_id p s :
  match s with [] => True | c :: _ => p c = false end -> lstrip p s = s.
Proof. destruct s as [|c r]; cbn; [reflexivity|]. intros ->. reflexivity. Qed.

Lemma lstrip_head p s :
  match lstrip p s with [] => True | c :: _ => p c = false end.
Proof.
  induction s as [|c r IH]; cbn; [exact I|].
  destruct (p c) eqn:E; [exact IH | exact E].
Qed.

Lemma lstrip_suffix p s : exists d, s = d ++ lstrip p s /\ Forall (fun c => p c = true) d.
Proof.
  induction s as [|c r (d & Hd & HF)]; cbn.
  - exists []. split; [reflexivity | constructor].
  - destruct (p c) eqn:E.
    + exists (c :: d). split; [cbn; congruence | constructor; assumption].
    + exists []. split; [reflexivity | constructor].
Qed.

Lemma re_sub_class_keeps keep repl s :
  keep repl = true -> Forall (fun c => keep c = true) (re_sub_class keep repl s).
Proof.
  intros Hr. unfold re_sub_class. apply Forall_map, Forall_forall. intros c _.
  cbn. destruct (keep c) eqn:E; assumption.
Qed.

Lemma re_sub_class_id keep repl s :
  Forall (fun c => keep c = true) s -> re_sub_class keep repl s = s.
Proof.
  induction 1 as [|c r Hc _ IH]; cbn; [reflexivity|]. rewrite Hc. f_equal. exact IH.
Qed.

Section LowerFacts.
Context {U : UnicodeDB}.

Lemma lower_ctx_app b s t a :
  lower_ctx b (s ++ t) a = lower_ctx b s (t ++ a) ++ lower_ctx (b ++ s) t a.
Proof.
  revert b; induction s as [|c r IH]; intros b; cbn.
  - rewrite app_nil_r. reflexivity.
  - rewrite IH, <- !app_assoc. reflexivity.
Qed.

Lemma lower_ctx_ascii b t a :
  Forall (fun c => c < 128) t -> lower_ctx b t a = map ascii_tolower t.
Proof.
  intros H; revert b; induction H as [|c r Hc _ IH]; intros b; cbn; [reflexivity|].
  unfold lower_cp. apply N.ltb_lt in Hc. rewrite Hc, IH. reflexivity.
Qed.

(** a lowered text ends in a word over [. c s v] only if the text itself
    ends in ASCII code points that lower to that word *)
Lemma lower_ctx_tail p : forall b s a m,
  Forall (fun x => csv_char x = true) p ->
  lower_ctx b s a = m ++ p ->
  exists s0 t, s = s0 ++ t /\ Forall (fun c => c < 128) t
               /\ map ascii_tolower t = p.
Proof.
  induction p as [|x p' IH] using rev_ind; intros b s a m Hp Hl.
  - exists s, []. rewrite app_nil_r. repeat split; constructor.
  - apply Forall_app in Hp as [Hp' Hx]. inversion Hx as [|? ? Hcx _]; subst.
    destruct s as [|c0 r0] using rev_ind.
    { apply (f_equal length) in Hl. rewrite !length_app in Hl. cbn in Hl. lia. }
    clear IHr0. rename r0 into s1, c0 into c.
    rewrite lower_ctx_app in Hl. cbn [lower_ctx] in Hl.
    rewrite app_nil_r in Hl. unfold lower_cp in Hl.
    destruct (c <? 128) eqn:Ec.
    + rewrite !app_assoc in Hl. apply app_inj_tail in Hl as [Hl Hx'].
      apply IH in Hl as (s0 & t & -> & Ht & Hm); [|assumption].
      exists s0, (t ++ [c]). rewrite app_assoc. split; [reflexivity|]. split.
      * apply Forall_app; split; [assumption|]. constructor; [|constructor].
        apply N.ltb_lt; assumption.
      * rewrite map_app, Hm. cbn. congruence.
    + apply N.ltb_ge in Ec.
      pose proof (uni_lower_last (b ++ s1) c ([] ++ a) Ec) as Hlast.
      destruct (last (uni_lower (b ++ s1) c ([] ++ a))) as [y|] eqn:El; [|discriminate].
      apply last_Some in El as [l El]. rewrite El in Hl.
      rewrite !app_assoc in Hl. apply app_inj_tail in Hl as [_ ->].
      rewrite Hcx in Hlast. discriminate.
Qed.

Lemma lower_endswith_iff s p :
  Forall (fun x => csv_char x = true) p ->
  endswith (lower s) p = true <->
  exists s0 t, s = s0 ++ t /\ Forall (fun c => c < 128) t
               /\ map ascii_tolower t = p.
Proof.
  intros Hp. rewrite endswith_spec. unfold lower. split.
  - intros [m Hm]. eapply lower_ctx_tail; eassumption.
  - intros (s0 & t & -> & Ht & <-). rewrite lower_ctx_app.
    rewrite (lower_ctx_ascii _ t _ Ht). eauto.
Qed.

(** appending an ASCII suffix makes the lowered text end in the lowered
    suffix, whatever precedes it *)
Lemma lower_app_ascii_endswith s t :
  Forall (fun c => c < 128) t ->
  endswith (lower (s ++ t)) (map ascii_tolower t) = true.
Proof.
  intros Ht. apply endswith_spec. unfold lower. rewrite lower_ctx_app.
  rewrite (lower_ctx_ascii _ t _ Ht). eauto.
Qed.

End LowerFacts.


(** ** [sanitize_filename] *)

Section FilenameFacts.
Context {U : UnicodeDB}.

Lemma ascii_tolower_cases c x :
  c < 128 -> ascii_tolower c = x ->
  c = x \/ (c + 32 = x /\ 65 <= c <= 90).
Proof.
  unfold ascii_tolower, ascii_upper. intros Hc <-.
  destruct ((65 <=? c) && (c <=? 90)) eqn:E; [|left; reflexivity].
  apply andb_true_iff in E as [E1 E2]. apply N.leb_le in E1, E2. right. lia.
Qed.

Lemma lower_endswith_csv s :
  endswith (lower s) DOT_CSV = ends_with_csv_ci s.
Proof.
  apply eq_true_iff_eq. rewrite lower_endswith_iff
    by (repeat constructor).
  unfold ends_with_csv_ci. split.
  - intros (s0 & t & -> & Ht & Hm).
    destruct t as [|d [|c [|s' [|v [|]]]]]; try discriminate.
    injection Hm as Hd Hc Hs Hv.
    inversion Ht as [|? ? Hd' Ht1]; subst. inversion Ht1 as [|? ? Hc' Ht2]; subst.
    inversion Ht2 as [|? ? Hs' Ht3]; subst. inversion Ht3 as [|? ? Hv' _]; subst.
    rewrite rev_app_distr. cbn.
    apply ascii_tolower_cases in Hd, Hc, Hs, Hv; try assumption.
    rewrite !andb_true_iff, !orb_true_iff, !N.eqb_eq. lia.
  - destruct (rev s) as [|v [|s' [|c [|d r]]]] eqn:Er; try discriminate.
    rewrite !andb_true_iff, !orb_true_iff, !N.eqb_eq.
    intros (((Hd & Hc) & Hs) & Hv).
    exists (rev r), [d; c; s'; v]. split.
    + rewrite <- (rev_involutive s), Er. cbn. rewrite <- !app_assoc. reflexivity.
    + split.
      * repeat constructor; lia.
      * unfold DOT_CSV. cbn.
        destruct Hc as [-> | ->], Hs as [-> | ->], Hv as [-> | ->]; subst d;
          reflexivity.
Qed.

Lemma filename_char_ascii c : c < 128 -> filename_char c = ascii_whitelist c.
Proof.
  intros Hc. unfold filename_char, ascii_whitelist, is_word.
  apply N.ltb_lt in Hc. rewrite Hc.
  destruct (ascii_alnum c), (c =? UNDERSCORE), (c =? DASH), (c =? DOT);
    reflexivity.
Qed.

Lemma sanitize_filename_pipeline f :
  sanitize_filename f = spec_sanitize_filename filename_char f.
Proof.
  unfold sanitize_filename, spec_sanitize_filename, strip_directory, re_sub_class.
  rewrite basename_last_component.
  set (n := lstrip _ _).
  replace (if str_empty n then EXPORT else n)
    with (match n with [] => EXPORT | _ :: _ => n end) by (destruct n; reflexivity).
  rewrite lower_endswith_csv. destruct (ends_with_csv_ci _); reflexivity.
Qed.

Lemma filename_char_not_slash r :
  Forall (fun c => filename_char c = true) r -> Forall (fun c => c <> SLASH) r.
Proof.
  intros H. eapply Forall_impl; [exact H|]. intros c Hc ->.
  vm_compute in Hc. discriminate.
Qed.

Lemma Forall_suffix {A} (P : A -> Prop) d l : Forall P (d ++ l) -> Forall P l.
Proof. intros H. apply Forall_app in H. tauto. Qed.

Lemma sanitize_filename_clean f : clean_name (sanitize_filename f).
Proof.
  unfold sanitize_filename.
  set (m := re_sub_class filename_char UNDERSCORE (basename f)).
  assert (Hm : Forall (fun c => filename_char c = true) m)
    by (apply re_sub_class_keeps; reflexivity).
  destruct (lstrip_suffix (N.eqb DOT) m) as (d & Hd & _).
  pose proof (lstrip_head (N.eqb DOT) m) as Hh.
  rewrite Hd in Hm. apply Forall_suffix in Hm.
  set (n0 := lstrip (N.eqb DOT) m) in *.
  set (n := if str_empty n0 then EXPORT else n0).
  assert (Hn : Forall (fun c => filename_char c = true) n).
  { subst n. destruct n0; [|assumption]. cbn. repeat constructor. }
  assert (Hn1 : match n with [] => False | c :: _ => c <> DOT end).
  { subst n. destruct n0 as [|c r]; cbn; [discriminate|].
    intros ->. discriminate. }
  destruct (endswith (lower n) DOT_CSV) eqn:E; cbn [negb].
  - repeat split; assumption.
  - repeat split.
    + apply Forall_app; split; [assumption|]. repeat constructor.
    + destruct n; [contradiction|]. exact Hn1.
    + apply (lower_app_ascii_endswith n DOT_CSV). repeat constructor.
Qed.

Lemma clean_name_fixed r : clean_name r -> sanitize_filename r = r.
Proof.
  intros (Hc & Hh & He). unfold sanitize_filename.
  rewrite (basename_no_sep r) by (apply filename_char_not_slash; assumption).
  rewrite re_sub_class_id by assumption.
  rewrite lstrip_id.
  - destruct r; [contradiction|]. cbn [str_empty]. rewrite He. reflexivity.
  - destruct r as [|c r']; [exact I|]. apply N.eqb_neq. congruence.
Qed.

Lemma clean_name_matches r :
  clean_name r -> matches_name_pattern suffix_ci r = true.
Proof.
  intros (Hc & Hh & He). rewrite lower_endswith_csv in He.
  unfold ends_with_csv_ci in He. unfold matches_name_pattern.
  destruct (rev r) as [|v [|s' [|c [|d rest]]]] eqn:Er; try discriminate.
  assert (Hr : r = rev rest ++ [d; c; s'; v]).
  { rewrite <- (rev_involutive r), Er. cbn. rewrite <- !app_assoc. reflexivity. }
  assert (Hv : v <> 10).
  { rewrite !andb_true_iff, !orb_true_iff, !N.eqb_eq in He. lia. }
  replace (match v :: s' :: c :: d :: rest with
           | 10 :: r0 => rev r0
           | _ => r
           end) with r.
  2:{ destruct v as [|p]; [reflexivity|].
      do 4 (destruct p; try reflexivity). congruence. }
  rewrite Hr, length_app. cbn [length].
  replace (length (rev rest) + 4 - 4)%nat with (length (rev rest)) by lia.
  rewrite take_app_length, drop_app_length.
  rewrite Hr in Hc, Hh. apply Forall_app in Hc as [Hb _].
  rewrite !andb_true_iff. repeat split.
  - destruct (rev rest); [|reflexivity]. cbn in Hh.
    rewrite !andb_true_iff, N.eqb_eq in He. exfalso. apply Hh. tauto.
  - apply forallb_forall. intros x Hx. rewrite Forall_forall in Hb.
    apply Hb. apply list_elem_of_In. assumption.
  - exact He.
Qed.

End FilenameFacts.

(** ** [sanitize_subfolder] *)

Lemma lstrip_Forall (P : N -> Prop) p s : Forall P s -> Forall P (lstrip p s).
Proof.
  intros H. destruct (lstrip_suffix p s) as (d & Hd & _).
  rewrite Hd in H. apply Forall_app in H. tauto.
Qed.

Lemma strip_Forall (P : N -> Prop) p s : Forall P s -> Forall P (strip p s).
Proof.
  intros H. unfold strip, rstrip. apply Forall_rev, lstrip_Forall, Forall_rev.
  apply lstrip_Forall. assumption.
Qed.

Lemma join_Forall (P : N -> Prop) sep segs :
  Forall P sep -> Forall (Forall P) segs -> Forall P (join sep segs).
Proof.
  intros Hsep. induction 1 as [|x l Hx Hl IH]; cbn; [constructor|].
  destruct l; [assumption|]. repeat (apply Forall_app; split); assumption.
Qed.

Lemma split_Forall (P : N -> Prop) sep s :
  Forall P s -> Forall (Forall P) (split sep s).
Proof.
  induction 1 as [|c r Hc Hr IH]; cbn; [repeat constructor|].
  destruct (c =? sep); [constructor; [constructor | assumption]|].
  destruct (split sep r) as [|q qs]; [repeat constructor; assumption|].
  inversion IH; subst. constructor; [constructor|]; assumption.
Qed.

Lemma split_app_sep sep a b :
  split sep (a ++ sep :: b) = split sep a ++ split sep b.
Proof.
  induction a as [|c r IH]; cbn.
  - rewrite N.eqb_refl. reflexivity.
  - rewrite IH. destruct (c =? sep); [reflexivity|].
    pose proof (split_not_nil sep r). destruct (split sep r); [contradiction|].
    reflexivity.
Qed.

Lemma split_no_sep sep s : Forall (fun c => c <> sep) s -> split sep s = [s].
Proof.
  induction 1 as [|c r Hc _ IH]; cbn; [reflexivity|].
  apply N.eqb_neq in Hc. rewrite Hc, IH. reflexivity.
Qed.

Lemma split_join sep (segs : list (list N)) :
  segs <> [] -> Forall (Forall (fun c => c <> sep)) segs ->
  split sep (join [sep] segs) = segs.
Proof.
  intros Hne H. induction H as [|x l Hx Hl IH]; [contradiction|].
  cbn [join]. destruct l as [|y l'].
  - apply split_no_sep. assumption.
  - cbn [app]. rewrite split_app_sep, split_no_sep by assumption.
    rewrite IH by discriminate. reflexivity.
Qed.

Section SubfolderFacts.
Context {U : UnicodeDB}.

Lemma sanitize_parts_spec parts acc :
  sanitize_parts parts acc
  = acc ++ List.filter (fun x => negb (str_empty x)) (map sanitized_segment parts).
Proof.
  revert acc; induction parts as [|part rest IH]; intros acc; cbn.
  - rewrite app_nil_r. reflexivity.
  - fold (sanitized_segment part).
    destruct (str_empty (sanitized_segment part)); cbn; rewrite IH.
    + reflexivity.
    + rewrite <- app_assoc. reflexivity.
Qed.

Lemma sanitize_subfolder_pipeline p :
  sanitize_subfolder p = spec_sanitize_subfolder sanitized_segment p.
Proof.
  unfold sanitize_subfolder, spec_sanitize_subfolder.
  rewrite sanitize_parts_spec. reflexivity.
Qed.

Lemma sanitized_segment_chars part :
  Forall (fun c => subfolder_char c = true) (sanitized_segment part).
Proof. apply strip_Forall, re_sub_class_keeps. reflexivity. Qed.

(** the segments the loop keeps: non-empty, over the class [[\w\-]] *)
Lemma sanitize_parts_segments parts :
  Forall (fun seg => seg <> [] /\ Forall (fun c => subfolder_char c = true) seg)
    (sanitize_parts parts []).
Proof.
  rewrite sanitize_parts_spec. cbn. apply Forall_forall. intros seg Hin.
  apply list_elem_of_In, filter_In in Hin as [Hin Hne].
  apply in_map_iff in Hin as (part & <- & _). split.
  - intros E. rewrite E in Hne. discriminate.
  - apply sanitized_segment_chars.
Qed.

Lemma subfolder_char_plain c :
  subfolder_char c = true -> c <> DOT /\ c <> SLASH.
Proof.
  intros H. split; intros ->; vm_compute in H; discriminate.
Qed.

(** every code point of a sanitized subfolder is of the class or a [/] *)
Lemma sanitize_subfolder_chars p :
  Forall (fun c => subfolder_char c = true \/ c = SLASH) (sanitize_subfolder p).
Proof.
  unfold sanitize_subfolder.
  pose proof (sanitize_parts_segments (split SLASH (strip (N.eqb SLASH) (remove2 DOT DOT p)))) as H.
  destruct (sanitize_parts _ []) as [|x l] eqn:E.
  - apply Forall_forall. intros c Hc. left.
    vm_compute in Hc. repeat (apply elem_of_cons in Hc as [-> | Hc]; [reflexivity|]).
    inversion Hc.
  - apply join_Forall; [repeat constructor; right; reflexivity|].
    eapply Forall_impl; [exact H|]. intros seg [_ Hseg].
    eapply Forall_impl; [exact Hseg|]. intros c Hc. left. assumption.
Qed.

(** the segments of a sanitized subfolder *)
Lemma sanitize_subfolder_segments p :
  Forall (fun seg => seg <> [] /\ Forall (fun c => subfolder_char c = true) seg)
    (split SLASH (sanitize_subfolder p)).
Proof.
  unfold sanitize_subfolder.
  pose proof (sanitize_parts_segments (split SLASH (strip (N.eqb SLASH) (remove2 DOT DOT p)))) as H.
  destruct (sanitize_parts _ []) as [|x l] eqn:E.
  - cbn. constructor; [|constructor]. split; [discriminate|].
    repeat constructor.
  - unfold SLASH at 2. rewrite split_join; [exact H | discriminate |].
    eapply Forall_impl; [exact H|]. intros seg [_ Hseg].
    eapply Forall_impl; [exact Hseg|]. intros c Hc.
    apply subfolder_char_plain. assumption.
Qed.

Lemma sanitize_subfolder_no_dot p : Forall (fun c => c <> DOT) (sanitize_subfolder p).
Proof.
  eapply Forall_impl; [apply sanitize_subfolder_chars|].
  intros c [Hc | ->]; [apply subfolder_char_plain; assumption | discriminate].
Qed.

End SubfolderFacts.

(** ** The destination path *)

Lemma endswith_notin s d : Forall (fun c => c <> d) s -> endswith s [d] = false.
Proof.
  intros H. destruct (endswith s [d]) eqn:E; [|reflexivity].
  apply endswith_spec in E as [m ->]. apply Forall_app in H as [_ H].
  inversion H; subst. congruence.
Qed.

Lemma endswith_app s t d : t <> [] -> endswith (s ++ t) [d] = endswith t [d].
Proof.
  intros Ht. apply eq_true_iff_eq. rewrite !endswith_spec. split.
  - intros [m Hm]. destruct t as [|x t'] using rev_ind; [contradiction|].
    rewrite app_assoc in Hm. apply app_inj_tail in Hm as [_ ->]. eauto.
  - intros [m ->]. exists (s ++ m). rewrite app_assoc. reflexivity.
Qed.

Lemma expanduser_work_end home :
  expanduser_work home <> [] /\ endswith (expanduser_work home) [SLASH] = false.
Proof.
  destruct home as [h|]; cbn; [|split; [discriminate | reflexivity]].
  split.
  - intros E. apply app_eq_nil in E as [_ E]. discriminate.
  - rewrite endswith_app by discriminate. reflexivity.
Qed.

Lemma path_join_relative a b :
  a <> [] -> endswith a [SLASH] = false ->
  match b with [] => True | c :: _ => c <> SLASH end ->
  path_join a b = a ++ SLASH :: b.
Proof.
  intros Ha He Hb. unfold path_join.
  replace (startswith b [SLASH]) with false.
  2:{ destruct b as [|c r]; [reflexivity|]. cbn. apply N.eqb_neq in Hb.
      rewrite Hb. reflexivity. }
  rewrite He. destruct a; [contradiction|]. reflexivity.
Qed.

Lemma join_slash_ends (segs : list (list N)) :
  segs <> [] ->
  Forall (fun seg => seg <> [] /\ Forall (fun c => c <> SLASH) seg) segs ->
  match join [SLASH] segs with [] => False | c :: _ => c <> SLASH end
  /\ endswith (join [SLASH] segs) [SLASH] = false.
Proof.
  intros Hne H. induction H as [|x l [Hx1 Hx2] Hl IH]; [contradiction|].
  cbn [join]. destruct l as [|y l'].
  - split; [|apply endswith_notin; assumption].
    destruct x; [contradiction|]. inversion Hx2; assumption.
  - destruct IH as [_ IH]; [discriminate|]. split.
    + destruct x; [contradiction|]. cbn. inversion Hx2; assumption.
    + rewrite endswith_app.
      * change ([SLASH] ++ join [SLASH] (y :: l')) with ([SLASH] ++ join [SLASH] (y :: l')).
        rewrite endswith_app; [exact IH|].
        inversion Hl as [|? ? [Hy _] _]; subst. cbn.
        destruct l'; [assumption|]. destruct y; [contradiction|]. discriminate.
      * discriminate.
Qed.

(** ** [os.makedirs] *)

Lemma grown_set (have have1 : gset (list N)) name heads :
  have ⊆ have1 -> have1 ⊆ have ∪ list_to_set heads ->
  (have ⊆ have1 /\ have1 ⊆ have ∪ list_to_set (name :: heads))
  /\ (have ⊆ have1 ∪ {[name]}
      /\ have1 ∪ {[name]} ⊆ have ∪ list_to_set (name :: heads)).
Proof.
  intros H1 H2. cbn [list_to_set].
  repeat split; intros x Hx; set_unfold; specialize (H1 x); specialize (H2 x);
    tauto.
Qed.

Lemma make_path_sub mkdir : forall names have,
  have ⊆ snd (make_path mkdir names have)
  /\ snd (make_path mkdir names have) ⊆ have ∪ list_to_set names.
Proof.
  induction names as [|name heads IH]; intros have; cbn [make_path].
  - cbn [snd]. split; [reflexivity | apply union_subseteq_l].
  - assert (H : exists ok have1,
      match heads with
      | head :: _ =>
          if decide (head ∈ have) then (true, have)
          else make_path mkdir heads have
      | [] => (true, have)
      end = (ok, have1)
      /\ have ⊆ have1 /\ have1 ⊆ have ∪ list_to_set heads).
    { assert (Hsame : have ⊆ have /\ have ⊆ have ∪ list_to_set heads)
        by (split; [reflexivity | apply union_subseteq_l]).
      destruct heads as [|head heads'].
      - exists true, have. split; [reflexivity | exact Hsame].
      - destruct (decide (head ∈ have)).
        + exists true, have. split; [reflexivity | exact Hsame].
        + destruct (IH have) as [H1 H2].
          destruct (make_path mkdir (head :: heads') have) as [ok have1].
          exists ok, have1. split; [reflexivity|]. split; assumption. }
    destruct H as (ok & have1 & -> & H1 & H2).
    destruct (grown_set have have1 name heads H1 H2) as [Hkeep Hadd].
    destruct ok; [|exact Hkeep].
    destruct (decide (name ∈ have1)); [exact Hkeep|].
    destruct (mkdir name); [exact Hadd | exact Hkeep].
Qed.

Lemma make_path_ok mkdir : (forall d, mkdir d = true) ->
  forall names have, fst (make_path mkdir names have) = true.
Proof.
  intros Hmk. induction names as [|name heads IH]; intros have;
    cbn [make_path]; [reflexivity|].
  assert (H : exists have1,
    match heads with
    | head :: _ =>
        if decide (head ∈ have) then (true, have)
        else make_path mkdir heads have
    | [] => (true, have)
    end = (true, have1)).
  { destruct heads as [|head heads']; [eexists; reflexivity|].
    destruct (decide (head ∈ have)); [eexists; reflexivity|].
    specialize (IH have).
    destruct (make_path mkdir (head :: heads') have) as [ok have1].
    cbn [fst] in IH. subst ok. eexists; reflexivity. }
  destruct H as (have1 & ->).
  destruct (decide (name ∈ have1)); [reflexivity|]. rewrite Hmk. reflexivity.
Qed.

(** when the call returns, the directory is there *)
Lemma make_path_leaf mkdir name heads have :
  fst (make_path mkdir (name :: heads) have) = true ->
  name ∈ snd (make_path mkdir (name :: heads) have).
Proof.
  cbn [make_path].
  destruct (match heads with
            | head :: _ =>
                if decide (head ∈ have) then (true, have)
                else make_path mkdir heads have
            | [] => (true, have)
            end) as [ok have1].
  destruct ok; [|discriminate].
  destruct (decide (name ∈ have1)); [intros _; assumption|].
  destruct (mkdir name); [|discriminate]. intros _. cbn [snd].
  apply elem_of_union_r, elem_of_singleton. reflexivity.
Qed.

Lemma makedirs_cases (env : Env) full_dir w :
  exists ok made,
    make_path (env_makedirs env) (rev (dir_prefixes [] full_dir)) (dirs w)
    = (ok, made)
    /\ makedirs env full_dir w
       = (if ok then Ok tt else Raise MakedirsError,
          {| _progress_store := _progress_store w; observed := observed w;
             dirs := made; files := files w |}).
Proof.
  unfold makedirs. destruct (make_path _ _ _) as [ok made].
  exists ok, made. split; reflexivity.
Qed.

Lemma makedirs_ok (env : Env) full_dir w :
  (forall d, env_makedirs env d = true) ->
  exists made,
    makedirs env full_dir w
    = (Ok tt, {| _progress_store := _progress_store w; observed := observed w;
                 dirs := made; files := files w |}).
Proof.
  intros Hmk. destruct (makedirs_cases env full_dir w) as (ok & made & E & ->).
  pose proof (make_path_ok _ Hmk (rev (dir_prefixes [] full_dir)) (dirs w)) as H.
  rewrite E in H. cbn [fst] in H. subst ok. exists made. reflexivity.
Qed.

(** when the last directory cannot be made, the ones made on the way stay *)
Example makedirs_leaves_parents :
  let env := demo_env_fs (fun d => negb (str_eqb d (py "/home/jovyan/work/a/b")))
               true false in
  let out := makedirs env (py "/home/jovyan/work/a/b") empty_world in
  fst out = Raise MakedirsError
  /\ py "/home/jovyan/work/a" ∈ dirs (snd out)
  /\ py "/home/jovyan/work/a/b" ∉ dirs (snd out).
Proof.
  cbn zeta. split; [vm_compute; reflexivity|]. split.
  - apply (bool_decide_unpack (_ ∈ _)). vm_compute. exact I.
  - apply (bool_decide_unpack (_ ∉ _)). vm_compute. exact I.
Qed.

Section PathFacts.
Context {U : UnicodeDB}.

Lemma sanitize_subfolder_ends p :
  match sanitize_subfolder p with [] => False | c :: _ => c <> SLASH end
  /\ endswith (sanitize_subfolder p) [SLASH] = false.
Proof.
  unfold sanitize_subfolder.
  pose proof (sanitize_parts_segments (split SLASH (strip (N.eqb SLASH) (remove2 DOT DOT p)))) as H.
  destruct (sanitize_parts _ []) as [|x l] eqn:E.
  - split; [discriminate | reflexivity].
  - apply join_slash_ends; [discriminate|].
    eapply Forall_impl; [exact H|]. intros seg [Hne Hseg]. split; [assumption|].
    eapply Forall_impl; [exact Hseg|]. intros c Hc. apply subfolder_char_plain; assumption.
Qed.

Lemma no_dot_not_parent s :
  Forall (fun c => c <> DOT) s -> ~ In [DOT; DOT] (split SLASH s).
Proof.
  intros H Hin. apply (split_Forall _ SLASH) in H.
  rewrite Forall_forall in H. apply list_elem_of_In, H in Hin.
  inversion Hin; subst. congruence.
Qed.

Lemma clean_name_component r :
  clean_name r ->
  split SLASH r = [r] /\ r <> [DOT; DOT]
  /\ match r with [] => True | c :: _ => c <> SLASH end.
Proof.
  intros (Hc & Hh & _). pose proof (filename_char_not_slash r Hc) as Hs.
  split; [apply split_no_sep; assumption|]. split.
  - intros ->. apply Hh. reflexivity.
  - destruct r; [exact I|]. inversion Hs; assumption.
Qed.

(** the path [_get_workspace_path] returns lies under the work directory and
    has no [..] component below it *)
Lemma workspace_path_shape (env : Env) cid f p streaming w :
  (forall d, env_makedirs env d = true) ->
  exists rel w',
    _get_workspace_path env (__init__ cid f p streaming) w
    = (Ok (expanduser_work (env_home env) ++ SLASH :: rel), w')
    /\ ~ In [DOT; DOT] (split SLASH rel)
    /\ _progress_store w' = _progress_store w /\ files w' = files w.
Proof.
  intros Hmk. unfold _get_workspace_path, __init__, bind, ret.
  cbn [_subfolder _filename].
  destruct (expanduser_work_end (env_home env)) as [Hw1 Hw2].
  destruct (sanitize_subfolder_ends p) as [Hs1 Hs2].
  assert (Hs3 : match sanitize_subfolder p with [] => True | c :: _ => c <> SLASH end)
    by (destruct (sanitize_subfolder p); [exact I | exact Hs1]).
  assert (Hs4 : sanitize_subfolder p <> [])
    by (destruct (sanitize_subfolder p); [contradiction | discriminate]).
  destruct (clean_name_component _ (sanitize_filename_clean f)) as (Hf1 & Hf2 & Hf3).
  set (work_dir := expanduser_work (env_home env)) in *.
  set (sub := sanitize_subfolder p) in *.
  set (name := sanitize_filename f) in *.
  destruct (str_empty sub || str_empty (strip is_space sub));
    [destruct (makedirs_ok env work_dir w Hmk) as (made & ->)
    |destruct (makedirs_ok env (path_join work_dir sub) w Hmk) as (made & ->)].
  - exists name. eexists. rewrite path_join_relative by assumption.
    split; [reflexivity|]. split; [|split; reflexivity].
    rewrite Hf1. intros [E | []]. congruence.
  - exists (sub ++ SLASH :: name). eexists.
    rewrite (path_join_relative work_dir sub) by assumption.
    rewrite path_join_relative.
    + rewrite <- app_assoc. split; [reflexivity|]. split; [|split; reflexivity].
      rewrite split_app_sep, Hf1. intros Hin. apply in_app_or in Hin as [Hin | [E | []]].
      * revert Hin. apply no_dot_not_parent, sanitize_subfolder_no_dot.
      * congruence.
    + intros E. apply app_eq_nil in E as [E _]. contradiction.
    + change (SLASH :: sub) with ([SLASH] ++ sub). rewrite endswith_app.
      * rewrite endswith_app; [exact Hs2 | exact Hs4].
      * discriminate.
    + exact Hf3.
Qed.

End PathFacts.

(** ** The monad *)

Lemma bind_ok {A B} (m : M A) (k : A -> M B) w a w1 :
  m w = (Ok a, w1) -> bind m k w = k a w1.
Proof. unfold bind. intros ->. reflexivity. Qed.

Lemma bind_raise {A B} (m : M A) (k : A -> M B) w e w1 :
  m w = (Raise e, w1) -> bind m k w = (Raise e, w1).
Proof. unfold bind. intros ->. reflexivity. Qed.

Lemma set_processed_same e : set_processed (processed e) e = e.
Proof. destruct e; reflexivity. Qed.

Lemma store_update_ok cid f w e :
  _progress_store w !! cid = Some e ->
  store_update cid f w = (Ok tt, put_entry cid (f e) w).
Proof. unfold store_update, store_set. intros ->. reflexivity. Qed.

Lemma put_entry_lookup cid e w : _progress_store (put_entry cid e w) !! cid = Some e.
Proof. cbn. apply lookup_insert_eq. Qed.

(** ** Batches *)

Lemma batch_size_pos : (0 < Z.to_nat STREAMING_BATCH_SIZE)%nat.
Proof. unfold STREAMING_BATCH_SIZE. lia. Qed.

Lemma batch_size_Z : Z.of_nat (Z.to_nat STREAMING_BATCH_SIZE) = 10000%Z.
Proof. unfold STREAMING_BATCH_SIZE. lia. Qed.

Lemma batch_points_bounds fuel size c n :
  (0 < size)%nat ->
  Forall (fun p => (c < p <= c + Z.of_nat n)%Z
                   /\ (((p - c) mod Z.of_nat size = 0)%Z \/ p = (c + Z.of_nat n)%Z))
    (batch_points fuel size c n).
Proof.
  intros Hs. revert c n; induction fuel as [|fuel IH]; intros c n; cbn [batch_points];
    [constructor|].
  destruct n as [|n']; [constructor|]. set (n := S n') in *.
  constructor.
  - split; [lia|]. destruct (Nat.le_gt_cases size n).
    + left. rewrite Nat.min_l by assumption.
      replace (c + Z.of_nat size - c)%Z with (Z.of_nat size) by lia.
      apply Z_mod_same_full.
    + right. rewrite Nat.min_r by lia. reflexivity.
  - eapply Forall_impl; [apply IH|]. cbn beta. intros p [Hp Hm].
    split; [lia|]. destruct (Nat.le_gt_cases size n) as [Hle|Hgt].
    + rewrite Nat.min_l in * by assumption. destruct Hm as [Hm | ->]; [left | right; lia].
      replace (p - c)%Z with ((p - (c + Z.of_nat size)) + 1 * Z.of_nat size)%Z by lia.
      rewrite Z_mod_plus_full. assumption.
    + rewrite Nat.min_r in * by lia. lia.
Qed.

Lemma batch_points_sorted fuel size c n :
  (0 < size)%nat -> StronglySorted Z.le (batch_points fuel size c n).
Proof.
  intros Hs. revert c n; induction fuel as [|fuel IH]; intros c n; cbn [batch_points];
    [constructor|].
  destruct n as [|n']; [constructor|]. set (n := S n') in *.
  constructor; [apply IH|].
  eapply Forall_impl; [apply (batch_points_bounds fuel size); assumption|].
  cbn beta. intros p [Hp _]. lia.
Qed.

Lemma batch_points_step fuel size c n :
  (0 < n)%nat ->
  batch_points (S fuel) size c n
  = (c + Z.of_nat (Nat.min size n))%Z
    :: batch_points fuel size (c + Z.of_nat (Nat.min size n))%Z (n - Nat.min size n).
Proof. intros Hn. destruct n; [lia | reflexivity]. Qed.

Lemma batch_points_last fuel size c n :
  (0 < size)%nat -> (n < fuel)%nat -> (0 < n)%nat ->
  last (batch_points fuel size c n) = Some (c + Z.of_nat n)%Z.
Proof.
  intros Hs. revert c n; induction fuel as [|fuel IH]; intros c n Hf Hn; [lia|].
  cbn [batch_points]. destruct n as [|n']; [lia|]. set (n := S n') in *.
  destruct (Nat.le_gt_cases n size) as [Hle|Hgt].
  - rewrite Nat.min_r by assumption. replace (n - n)%nat with 0%nat by lia.
    destruct fuel; reflexivity.
  - rewrite Nat.min_l by lia.
    specialize (IH (c + Z.of_nat size)%Z (n - size)%nat ltac:(lia) ltac:(lia)).
    destruct (batch_points fuel size (c + Z.of_nat size) (n - size)) eqn:E;
      [discriminate|].
    rewrite last_cons, IH. f_equal. lia.
Qed.

(** the spec's example: 25000 rows make three batches *)
Example batch_points_demo :
  batch_points (S demo_n) (Z.to_nat STREAMING_BATCH_SIZE) 0 demo_n
  = [10000; 20000; 25000]%Z.
Proof. vm_compute. reflexivity. Qed.

Lemma demo_rows_length n : length (demo_rows n) = n.
Proof. unfold demo_rows. rewrite length_map. apply length_seq. Qed.

Lemma demo_n_Z : Z.of_nat demo_n = 25000%Z.
Proof. unfold demo_n. lia. Qed.

(** ** The streaming loop when nothing fails *)

Lemma put_file_same path content w :
  files w !! path = Some content -> put_file path content w = w.
Proof.
  intros H. destruct w as [st ob d f]. unfold put_file. cbn in *.
  f_equal. apply insert_id. assumption.
Qed.

Lemma put_file_twice path c1 c2 w :
  put_file path c2 (put_file path c1 w) = put_file path c2 w.
Proof. unfold put_file. cbn. f_equal. apply insert_insert_eq. Qed.

Section StreamFacts.
Context {U : UnicodeDB}.
Variable env : Env.

Lemma write_records_ok path records w content :
  env_write_limit env = None ->
  files w !! path = Some content ->
  write_records env path records w
  = (Ok tt, put_file path (content ++ records) w).
Proof. unfold write_records. intros -> ->. reflexivity. Qed.

Lemma write_rows_ok path rows : forall c w content,
  env_write_limit env = None ->
  files w !! path = Some content ->
  write_rows env path rows c w
  = (Ok (c + Z.of_nat (length rows))%Z, put_file path (content ++ rows) w).
Proof.
  induction rows as [|r rest IH]; intros c w content Hl Hf; cbn [write_rows].
  - rewrite app_nil_r, put_file_same by assumption. unfold ret.
    f_equal. f_equal. cbn. lia.
  - unfold writerow.
    rewrite (bind_ok _ _ _ _ _ (write_records_ok path [r] w content Hl Hf)).
    rewrite (IH _ _ (content ++ [r]) Hl) by apply lookup_insert_eq.
    rewrite put_file_twice, <- app_assoc. f_equal. f_equal.
    cbn [length]. lia.
Qed.

Lemma stream_loop_ok cid path : forall fuel cur writer c w content e,
  cur_fetches cur = None -> env_write_limit env = None ->
  files w !! path = Some content ->
  _progress_store w !! cid = Some e -> processed e = c ->
  (length (cur_rows cur) < fuel)%nat ->
  exists w' new,
    stream_loop env fuel cid path cur writer c w
    = (Ok (c + Z.of_nat (length (cur_rows cur)))%Z, w')
    /\ files w' !! path
       = Some (content
               ++ (if writer then []
                   else match cur_rows cur with
                        | [] => []
                        | _ :: _ => [cur_keys cur]
                        end)
               ++ cur_rows cur)
    /\ dirs w' = dirs w
    /\ _progress_store w' !! cid
       = Some (set_processed (c + Z.of_nat (length (cur_rows cur))) e)
    /\ observed w' = new ++ observed w
    /\ entries_of cid new
       = rev (map (fun p => Some (set_processed p e))
                (batch_points fuel (Z.to_nat STREAMING_BATCH_SIZE) c
                   (length (cur_rows cur)))).
Proof.
  remember (Z.to_nat STREAMING_BATCH_SIZE) as B eqn:HB.
  assert (HB0 : (0 < B)%nat) by (subst B; unfold STREAMING_BATCH_SIZE; lia).
  induction fuel as [|fuel IH]; intros cur writer c w content e Hf Hl Hfile Hst Hc Hlen;
    [lia|].
  cbn [stream_loop]. rewrite <- HB.
  unfold fetchmany. rewrite Hf. unfold bind at 1, lift at 1.
  destruct (cur_rows cur) as [|r0 rows0] eqn:Erows.
  - rewrite take_nil. exists w, []. unfold ret. cbn [length].
    rewrite Z.add_0_r, <- Hc, set_processed_same.
    destruct writer; cbn [app]; rewrite app_nil_r; repeat split; auto.
  - destruct B as [|B']; [lia|]. cbn [take].
    set (rows := r0 :: rows0) in *.
    set (hdr := if writer then [] else [cur_keys cur]).
    set (k := Nat.min (S B') (length rows)).
    assert (Hk : length (take (S B') rows) = k) by apply length_take.
    assert (Hw1 : exists w1,
      (if writer then ret tt else writerow env path (cur_keys cur)) w = (Ok tt, w1)
      /\ w1 = put_file path (content ++ hdr) w).
    { subst hdr. destruct writer.
      - exists w. split; [reflexivity|]. rewrite app_nil_r, put_file_same; auto.
      - exists (put_file path (content ++ [cur_keys cur]) w).
        split; [unfold writerow; apply write_records_ok; assumption
               | reflexivity]. }
    destruct Hw1 as (w1 & Hw1 & Ew1).
    change (r0 :: take B' rows0) with (take (S B') rows).
    cbn [cur_keys]. rewrite (bind_ok _ _ _ _ _ Hw1).
    rewrite (bind_ok _ _ _ _ _ (write_rows_ok path (take (S B') rows) c w1 (content ++ hdr) Hl
               ltac:(subst w1; apply lookup_insert_eq))).
    rewrite Hk. subst w1. rewrite put_file_twice.
    set (w2 := put_file path ((content ++ hdr) ++ take (S B') rows) w).
    rewrite (bind_ok _ _ _ _ _ (store_update_ok cid (set_processed (c + Z.of_nat k)) w2 e Hst)).
    set (e3 := set_processed (c + Z.of_nat k)%Z e).
    set (w3 := put_entry cid e3 w2).
    set (cur' := {| cur_keys := cur_keys cur; cur_rows := drop (S B') rows;
                    cur_fetches := Nat.pred <$> None |}).
    destruct (IH cur' true (c + Z.of_nat k)%Z w3 ((content ++ hdr) ++ take (S B') rows) e3)
      as (w' & new & Hrun & Hfiles & Hdirs & Hstore & Hobs & Hent).
    + reflexivity.
    + assumption.
    + apply lookup_insert_eq.
    + apply put_entry_lookup.
    + reflexivity.
    + cbn [cur' cur_rows]. rewrite length_drop. subst rows. cbn [length] in *. lia.
    + assert (Hlen' : length (cur_rows cur') = (length rows - k)%nat).
      { cbn [cur' cur_rows]. rewrite length_drop. subst k. lia. }
      assert (Hsum : (c + Z.of_nat k + Z.of_nat (length (cur_rows cur')))%Z
                     = (c + Z.of_nat (length rows))%Z).
      { rewrite Hlen'. subst k. lia. }
      exists w', (new ++ [_progress_store w3]).
      rewrite Hrun, Hsum. split; [reflexivity|]. split.
      { rewrite Hfiles. cbn [app cur' cur_rows]. f_equal.
        rewrite <- !app_assoc. f_equal. f_equal. apply take_drop. }
      split; [rewrite Hdirs; reflexivity|]. split.
      { rewrite Hstore, Hsum. reflexivity. }
      split.
      { rewrite Hobs. cbn. rewrite <- app_assoc. reflexivity. }
      unfold entries_of in *. rewrite map_app, Hent.
      rewrite batch_points_step by (subst rows; cbn [length]; lia).
      fold k. cbn [map rev]. rewrite Hlen'. f_equal.
      cbn. rewrite lookup_insert_eq. reflexivity.
Qed.

(** the count query never makes the export fail: with or without a
    result the status becomes "exporting" *)
Lemma count_rows_ok cid sql w e :
  _progress_store w !! cid = Some e ->
  count_rows env cid sql w
  = (Ok tt, counted cid (env_scalar env (count_sql sql)) e w).
Proof.
  intros He. unfold count_rows, try_except, counted, call.
  destruct (env_scalar env (count_sql sql)) as [t|].
  - unfold bind at 1, ret at 1.
    rewrite (bind_ok _ _ _ _ _ (store_update_ok cid (set_total t) w e He)).
    rewrite (store_update_ok cid (set_status EXPORTING) _ (set_total t e))
      by apply put_entry_lookup.
    reflexivity.
  - unfold bind, raise.
    rewrite (store_update_ok cid (set_status EXPORTING) w e He). reflexivity.
Qed.

(** a streaming export in which no call other than the count query fails *)
Lemma stream_to_file_ok self q path w sql0 limit stmts cur :
  _get_sql_and_limit env q = Ok (sql0, limit) ->
  env_script env (engine q) sql0 = Some stmts ->
  env_connect env = true ->
  env_execute env (streaming_sql q sql0 limit stmts) = Some cur ->
  cur_fetches cur = None ->
  env_open env path = true ->
  env_write_limit env = None ->
  let n := length (cur_rows cur) in
  let scalar := env_scalar env (count_sql (streaming_sql q sql0 limit stmts)) in
  exists w' new,
    _stream_to_file env self q path w
    = (Ok {| res_status := SUCCESS; res_path := path; row_count := Z.of_nat n |}, w')
    /\ files w' !! path
       = Some (match cur_rows cur with [] => [] | _ :: _ => [cur_keys cur] end
               ++ cur_rows cur)
    /\ dirs w' = dirs w
    /\ _progress_store w' !! _client_id self
       = Some {| processed := Z.of_nat n; total := default (-1)%Z scalar;
                 status := COMPLETED |}
    /\ observed w' = new ++ observed w
    /\ entries_of (_client_id self) new
       = rev (map Some (expected_progress scalar n)).
Proof.
  intros Hsql Hscript Hconn Hexec Hfetch Hopen Hlimit n scalar.
  unfold _stream_to_file.
  rewrite Hsql. unfold bind at 1, lift at 1.
  rewrite Hscript. unfold call at 1, bind at 1, ret at 1.
  set (sql := streaming_sql q sql0 limit stmts) in *.
  set (cid := _client_id self).
  set (e0 := {| processed := 0; total := -1; status := COUNTING |}).
  unfold bind at 1, store_set at 1.
  rewrite Hconn. unfold bind at 1, ret at 1.
  set (w1 := put_entry cid e0 w).
  rewrite (bind_ok _ _ _ _ _ (count_rows_ok cid sql w1 e0 (put_entry_lookup _ _ _))).
  fold scalar. set (w2 := counted cid scalar e0 w1).
  rewrite Hexec. unfold call at 1, bind at 1, ret at 1.
  unfold bind at 1, open_write at 1. rewrite Hopen.
  set (w3 := put_file path [] w2).
  set (e2 := {| processed := 0; total := default (-1)%Z scalar; status := EXPORTING |}).
  assert (He2 : _progress_store w3 !! cid = Some e2).
  { subst w3 w2 e2. unfold counted. destruct scalar; apply put_entry_lookup. }
  destruct (stream_loop_ok cid path (S n) cur false 0%Z w3 [] e2 Hfetch Hlimit
              ltac:(apply lookup_insert_eq) He2 eq_refl ltac:(subst n; lia))
    as (w4 & new & Hrun & Hfiles & Hdirs & Hstore & Hobs & Hent).
  rewrite (bind_ok _ _ _ _ _ Hrun). fold n in Hstore, Hent.
  rewrite (bind_ok _ _ _ _ _ (store_update_ok cid (set_status COMPLETED) w4 _ Hstore)).
  unfold ret. rewrite Z.add_0_l.
  set (wf := put_entry cid (set_status COMPLETED (set_processed (Z.of_nat n) e2)) w4).
  exists wf, (_progress_store wf :: new
              ++ match scalar with
                 | Some t => [_progress_store w2;
                              _progress_store (put_entry cid (set_total t e0) w1);
                              _progress_store w1]
                 | None => [_progress_store w2; _progress_store w1]
                 end).
  split; [reflexivity|]. split.
  { cbn [wf put_entry files]. rewrite Hfiles. reflexivity. }
  split.
  { cbn [wf put_entry dirs]. rewrite Hdirs. subst w3 w2 w1. unfold counted.
    destruct scalar; reflexivity. }
  split.
  { subst wf. rewrite put_entry_lookup. reflexivity. }
  split.
  { cbn [wf put_entry observed]. rewrite Hobs. cbn [app]. f_equal.
    rewrite <- app_assoc. f_equal.
    subst w3 w2 w1. unfold counted. destruct scalar; reflexivity. }
  unfold entries_of in *. cbn [map]. rewrite map_app, Hent.
  unfold expected_progress. rewrite !map_app, !rev_app_distr.
  cbn [rev map app]. subst wf. rewrite put_entry_lookup.
  cbn [app]. f_equal.
  rewrite <- app_assoc. f_equal.
  { rewrite !map_map. reflexivity. }
  subst w3 w2 w1. unfold counted.
  destruct scalar; cbn [map rev app put_entry put_file _progress_store];
    rewrite ?lookup_insert_eq; reflexivity.
Qed.

End StreamFacts.

(** ** The bound of the streaming loop is enough *)

Lemma has_fuel_ret {A} (a : A) : has_fuel (ret a).
Proof. intros w w'. discriminate. Qed.

Lemma has_fuel_raise {A} e : e <> OutOfFuel -> has_fuel (@raise A e).
Proof. intros He w w' [= E _]. contradiction. Qed.

Lemma has_fuel_call {A} (o : option A) e : e <> OutOfFuel -> has_fuel (call o e).
Proof. intros He. destruct o; [apply has_fuel_ret | apply has_fuel_raise; assumption]. Qed.

Lemma has_fuel_bind {A B} (m : M A) (k : A -> M B) :
  has_fuel m -> (forall a, has_fuel (k a)) -> has_fuel (bind m k).
Proof.
  intros Hm Hk w w'. unfold bind. destruct (m w) as [[a|e] w1] eqn:E.
  - apply Hk.
  - intros [= -> ->]. apply (Hm _ _ E).
Qed.

Lemma has_fuel_try {A} (m : M A) (h : exc -> M A) :
  (forall e, has_fuel (h e)) -> has_fuel (try_except m h).
Proof.
  intros Hh w w'. unfold try_except. destruct (m w) as [[a|e] w1].
  - discriminate.
  - apply Hh.
Qed.

Lemma has_fuel_store_update cid f : has_fuel (store_update cid f).
Proof.
  intros w w'. unfold store_update, store_set.
  destruct (_progress_store w !! cid); discriminate.
Qed.

Section FuelFacts.
Context {U : UnicodeDB}.
Variable env : Env.

Lemma has_fuel_write_records path records :
  has_fuel (write_records env path records).
Proof.
  intros w w'. unfold write_records. destruct (files w !! path); [|discriminate].
  destruct (match env_write_limit env with Some _ => _ | None => _ end);
    discriminate.
Qed.

Lemma has_fuel_write_rows path rows : forall c,
  has_fuel (write_rows env path rows c).
Proof.
  induction rows as [|r rest IH]; intros c; cbn [write_rows].
  - apply has_fuel_ret.
  - apply has_fuel_bind; [apply has_fuel_write_records | intros _; apply IH].
Qed.

(** with more fuel than rows to fetch, the loop ends by itself *)
Lemma stream_loop_fuel cid path : forall fuel cur writer c,
  (length (cur_rows cur) < fuel)%nat ->
  has_fuel (stream_loop env fuel cid path cur writer c).
Proof.
  induction fuel as [|fuel IH]; intros cur writer c Hlen; [lia|].
  cbn [stream_loop]. pose proof batch_size_pos as HB.
  remember (Z.to_nat STREAMING_BATCH_SIZE) as B eqn:EB. clear EB.
  unfold fetchmany.
  destruct (cur_fetches cur) as [[|k]|].
  - intros w w'. unfold bind, lift. discriminate.
  - unfold bind at 1, lift at 1. intros w.
    destruct (cur_rows cur) as [|r0 rows0] eqn:Er.
    + rewrite take_nil. apply has_fuel_ret.
    + destruct B as [|B']; [lia|]. cbn [take].
      apply has_fuel_bind.
      { destruct writer; [apply has_fuel_ret | apply has_fuel_write_records]. }
      intros _. apply has_fuel_bind; [apply has_fuel_write_rows|]. intros c'.
      apply has_fuel_bind; [apply has_fuel_store_update|]. intros _.
      apply IH. cbn [cur_rows drop]. rewrite length_drop. cbn [length] in Hlen. lia.
  - unfold bind at 1, lift at 1. intros w.
    destruct (cur_rows cur) as [|r0 rows0] eqn:Er.
    + rewrite take_nil. apply has_fuel_ret.
    + destruct B as [|B']; [lia|]. cbn [take].
      apply has_fuel_bind.
      { destruct writer; [apply has_fuel_ret | apply has_fuel_write_records]. }
      intros _. apply has_fuel_bind; [apply has_fuel_write_rows|]. intros c'.
      apply has_fuel_bind; [apply has_fuel_store_update|]. intros _.
      apply IH. cbn [cur_rows drop]. rewrite length_drop. cbn [length] in Hlen. lia.
Qed.

(** so [_stream_to_file] always ends, with a result or with an exception
    of the code *)
Lemma stream_to_file_fuel self q path : has_fuel (_stream_to_file env self q path).
Proof.
  unfold _stream_to_file. apply has_fuel_bind.
  { intros w w'. unfold lift, _get_sql_and_limit.
    destruct (truthy (select_sql q)); [discriminate|].
    destruct (env_script env (engine q) (executed_sql q)) as [st|]; [|discriminate].
    destruct (last st); discriminate. }
  intros [sql limit]. apply has_fuel_bind; [apply has_fuel_call; discriminate|].
  intros stmts. apply has_fuel_bind; [intros w w'; discriminate|]. intros _.
  apply has_fuel_bind.
  { destruct (env_connect env); [apply has_fuel_ret | apply has_fuel_raise; discriminate]. }
  intros _. apply has_fuel_bind.
  { apply has_fuel_try. intros _. apply has_fuel_store_update. }
  intros _. apply has_fuel_bind; [apply has_fuel_call; discriminate|]. intros cur.
  apply has_fuel_bind.
  { intros w w'. unfold open_write.
    destruct (env_open env path), (env_open_truncates env path); discriminate. }
  intros _. apply has_fuel_bind; [apply stream_loop_fuel; lia|]. intros rc.
  apply has_fuel_bind; [apply has_fuel_store_update | intros _; apply has_fuel_ret].
Qed.

End FuelFacts.

(** ** A streaming export that fails *)

Section Pending.
Context {U : UnicodeDB}.
Variable env : Env.
Variable cid : list N.
Variable h0 : list (gmap (list N) entry).

Lemma keeps_ret {A} (a : A) : keeps_pending cid h0 (ret a).
Proof. intros w r w' H [= <- <-]. exact H. Qed.

Lemma keeps_raise {A} e : keeps_pending cid h0 (@raise A e).
Proof. intros w r w' H [= <- <-]. exact H. Qed.

Lemma keeps_lift {A} (x : result A) : keeps_pending cid h0 (lift x).
Proof. intros w r w' H [= <- <-]. exact H. Qed.

Lemma keeps_call {A} (o : option A) e : keeps_pending cid h0 (call o e).
Proof. destruct o; [apply keeps_ret | apply keeps_raise]. Qed.

Lemma keeps_bind {A B} (m : M A) (k : A -> M B) :
  keeps_pending cid h0 m -> (forall a, keeps_pending cid h0 (k a)) ->
  keeps_pending cid h0 (bind m k).
Proof.
  intros Hm Hk w r w' H. unfold bind.
  destruct (m w) as [[a|e] w1] eqn:E.
  - apply (Hk a). eapply Hm; eassumption.
  - intros [= <- <-]. eapply Hm; eassumption.
Qed.

Lemma keeps_try {A} (m : M A) (h : exc -> M A) :
  keeps_pending cid h0 m -> (forall e, keeps_pending cid h0 (h e)) ->
  keeps_pending cid h0 (try_except m h).
Proof.
  intros Hm Hh w r w' H. unfold try_except.
  destruct (m w) as [[a|e] w1] eqn:E.
  - intros [= <- <-]. eapply Hm; eassumption.
  - apply (Hh e). eapply Hm; eassumption.
Qed.

Lemma export_pending_put e w :
  status e = COUNTING \/ status e = EXPORTING ->
  export_pending cid h0 w -> export_pending cid h0 (put_entry cid e w).
Proof.
  intros He [_ (new & Hobs & Hnew)].
  assert (Hin : in_progress (_progress_store (put_entry cid e w) !! cid)).
  { rewrite put_entry_lookup. exists e. auto. }
  split; [exact Hin|].
  exists (_progress_store (put_entry cid e w) :: new). split.
  - cbn. rewrite Hobs. reflexivity.
  - constructor; assumption.
Qed.

Lemma keeps_store_update f :
  (forall e, status (f e) = status e \/ status (f e) = EXPORTING) ->
  keeps_pending cid h0 (store_update cid f).
Proof.
  intros Hf w r w' H. unfold store_update, store_set.
  destruct H as [(e & He & Hs) Hrest]. rewrite He. intros [= <- <-].
  apply export_pending_put.
  - destruct (Hf e) as [-> | ->]; auto.
  - split; [exists e; auto | assumption].
Qed.

Lemma export_pending_put_file path content w :
  export_pending cid h0 w -> export_pending cid h0 (put_file path content w).
Proof. intros H. exact H. Qed.

Lemma keeps_write_records path records :
  keeps_pending cid h0 (write_records env path records).
Proof.
  intros w r w' H. unfold write_records.
  destruct (files w !! path); [|intros [= <- <-]; exact H].
  destruct (match env_write_limit env with Some _ => _ | None => _ end);
    intros [= <- <-]; exact H.
Qed.

Lemma keeps_open_write path : keeps_pending cid h0 (open_write env path).
Proof.
  intros w r w' H. unfold open_write.
  destruct (env_open env path), (env_open_truncates env path);
    intros [= <- <-]; exact H.
Qed.

Lemma keeps_write_rows path rows : forall c,
  keeps_pending cid h0 (write_rows env path rows c).
Proof.
  induction rows as [|r rest IH]; intros c; cbn [write_rows].
  - apply keeps_ret.
  - apply keeps_bind; [apply keeps_write_records | intros _; apply IH].
Qed.

Lemma keeps_stream_loop path : forall fuel cur writer c,
  keeps_pending cid h0 (stream_loop env fuel cid path cur writer c).
Proof.
  induction fuel as [|fuel IH]; intros cur writer c; cbn [stream_loop].
  - apply keeps_raise.
  - apply keeps_bind; [apply keeps_lift|]. intros [rows cur'].
    destruct rows as [|r rows]; [apply keeps_ret|].
    apply keeps_bind.
    { destruct writer; [apply keeps_ret | apply keeps_write_records]. }
    intros _. apply keeps_bind; [apply keeps_write_rows|]. intros c'.
    apply keeps_bind; [|intros _; apply IH].
    apply keeps_store_update. intros e. left. reflexivity.
Qed.

Lemma keeps_count_rows sql : keeps_pending cid h0 (count_rows env cid sql).
Proof.
  unfold count_rows. apply keeps_try.
  - apply keeps_bind; [apply keeps_call|]. intros t.
    apply keeps_bind; [|intros _].
    + apply keeps_store_update. intros e. left. reflexivity.
    + apply keeps_store_update. intros e. right. reflexivity.
  - intros _. apply keeps_store_update. intros e. right. reflexivity.
Qed.

Lemma fails_bind {A B} (m : M A) (k : A -> M B) :
  keeps_pending cid h0 m -> (forall a, fails_pending cid h0 (k a)) ->
  fails_pending cid h0 (bind m k).
Proof.
  intros Hm Hk w e w' H. unfold bind.
  destruct (m w) as [[a|e1] w1] eqn:E.
  - apply (Hk a). eapply Hm; eassumption.
  - intros [= <- <-]. eapply Hm; eassumption.
Qed.

Lemma fails_complete {A} (a : A) :
  fails_pending cid h0 (store_update cid (set_status COMPLETED) ;;; ret a).
Proof.
  intros w e w' [(e2 & He2 & _) _].
  rewrite (bind_ok _ _ _ _ _ (store_update_ok cid _ w e2 He2)).
  unfold ret. discriminate.
Qed.

End Pending.

Section StreamFailure.
Context {U : UnicodeDB}.
Variable env : Env.

(** once the progress entry is created, an export that raises leaves the
    entry in progress *)
Lemma stream_to_file_raise self q path w sql0 limit stmts e w' :
  _get_sql_and_limit env q = Ok (sql0, limit) ->
  env_script env (engine q) sql0 = Some stmts ->
  _stream_to_file env self q path w = (Raise e, w') ->
  export_pending (_client_id self) (observed w) w'.
Proof.
  intros Hsql Hscript. unfold _stream_to_file.
  rewrite Hsql. unfold bind at 1, lift at 1.
  rewrite Hscript. unfold call at 1, bind at 1, ret at 1.
  set (sql := streaming_sql q sql0 limit stmts).
  set (cid := _client_id self).
  unfold bind at 1, store_set at 1.
  set (w1 := put_entry cid _ w).
  assert (H1 : export_pending cid (observed w) w1).
  { assert (Hin : in_progress (_progress_store w1 !! cid)).
    { subst w1. rewrite put_entry_lookup. eexists. split; [reflexivity|]. left. reflexivity. }
    split; [exact Hin|]. exists [_progress_store w1]. split; [reflexivity|].
    constructor; [exact Hin | constructor]. }
  intros Hrun. refine (fails_bind cid (observed w) _ _ _ _ w1 e w' H1 Hrun).
  { destruct (env_connect env); [apply keeps_ret | apply keeps_raise]. }
  intros _. apply fails_bind; [apply keeps_count_rows|]. intros _.
  apply fails_bind; [apply keeps_call|]. intros cur.
  apply fails_bind; [apply keeps_open_write|]. intros _.
  apply fails_bind; [apply keeps_stream_loop|]. intros rc.
  apply fails_complete.
Qed.

End StreamFailure.

(** ** Removing the LIMIT clause *)

Lemma span_spec p s a b :
  span p s = (a, b) -> s = a ++ b /\ Forall (fun c => p c = true) a.
Proof.
  revert a b; induction s as [|c r IH]; intros a b; cbn.
  - intros [= <- <-]. split; [reflexivity | constructor].
  - destruct (p c) eqn:E.
    + destruct (span p r) as [a' b'] eqn:Es. intros [= <- <-].
      destruct (IH a' b' eq_refl) as [-> Ha]. split; [reflexivity|].
      constructor; assumption.
    + intros [= <- <-]. split; [reflexivity | constructor].
Qed.

Lemma span_app p a b :
  Forall (fun c => p c = true) a ->
  match b with [] => True | c :: _ => p c = false end ->
  span p (a ++ b) = (a, b).
Proof.
  intros Ha Hb. induction Ha as [|c r Hc _ IH]; cbn.
  - destruct b as [|c r]; [reflexivity|]. cbn. rewrite Hb. reflexivity.
  - rewrite Hc, IH. reflexivity.
Qed.

Lemma plus_spec p s rest :
  plus p s = Some rest ->
  exists a, s = a ++ rest /\ a <> [] /\ Forall (fun c => p c = true) a.
Proof.
  unfold plus. destruct (span p s) as [a b] eqn:E.
  apply span_spec in E as [-> Ha]. destruct a; [discriminate|].
  intros [= <-]. eexists. split; [reflexivity|]. split; [discriminate | assumption].
Qed.

Lemma plus_app p a b :
  a <> [] -> Forall (fun c => p c = true) a ->
  match b with [] => True | c :: _ => p c = false end ->
  plus p (a ++ b) = Some b.
Proof.
  intros Hne Ha Hb. unfold plus. rewrite span_app by assumption.
  destruct a; [contradiction | reflexivity].
Qed.

Section RegexFacts.
Context {U : UnicodeDB}.

Lemma match_keyword_spec kw : forall s rest,
  match_keyword kw s = Some rest -> exists w, s = w ++ rest /\ keyword kw w.
Proof.
  induction kw as [|k kw IH]; intros s rest; cbn.
  - intros [= <-]. exists []. split; [reflexivity | constructor].
  - destruct s as [|c s']; [discriminate|].
    destruct (ci_literal k c) eqn:E; [|discriminate].
    intros H. apply IH in H as (w & -> & Hw). exists (c :: w).
    split; [reflexivity | constructor; assumption].
Qed.

Lemma match_keyword_app kw w rest :
  keyword kw w -> match_keyword kw (w ++ rest) = Some rest.
Proof.
  induction 1 as [|k c kw' w' Hc _ IH]; cbn; [reflexivity|].
  rewrite Hc. exact IH.
Qed.

Lemma space_not_digit c : is_space c = true -> is_digit c = false.
Proof.
  intros Hs. unfold is_digit. destruct (c <? 128) eqn:E.
  - apply N.ltb_lt in E. unfold is_space in Hs. unfold ascii_digit.
    rewrite !orb_true_iff, !andb_true_iff, !N.leb_le, !N.eqb_eq in Hs.
    apply andb_false_iff. rewrite !N.leb_gt. lia.
  - apply N.ltb_ge in E. destruct (uni_isdecimal c) eqn:Ed; [|reflexivity].
    rewrite (uni_decimal_not_space c E Ed) in Hs. discriminate.
Qed.

Lemma digit_not_space c : is_digit c = true -> is_space c = false.
Proof.
  intros Hd. destruct (is_space c) eqn:Hs; [|reflexivity].
  rewrite (space_not_digit c Hs) in Hd. discriminate.
Qed.

(** what [l] matches, and that nothing else in the pattern matches it *)
Lemma ci_l_iff c : ci_literal 108 c = true <-> c = 76 \/ c = 108.
Proof.
  unfold ci_literal. cbn [N.eqb Pos.eqb andb orb]. rewrite !orb_false_r.
  rewrite andb_true_iff, N.ltb_lt, N.eqb_eq. unfold ascii_tolower, ascii_upper.
  destruct ((65 <=? c) && (c <=? 90)) eqn:E.
  - apply andb_true_iff in E as [E1 E2]. apply N.leb_le in E1, E2. lia.
  - apply andb_false_iff in E. rewrite !N.leb_gt in E. lia.
Qed.

Lemma ci_o_iff c : ci_literal 111 c = true <-> c = 79 \/ c = 111.
Proof.
  unfold ci_literal. cbn [N.eqb Pos.eqb andb orb]. rewrite !orb_false_r.
  rewrite andb_true_iff, N.ltb_lt, N.eqb_eq. unfold ascii_tolower, ascii_upper.
  destruct ((65 <=? c) && (c <=? 90)) eqn:E.
  - apply andb_true_iff in E as [E1 E2]. apply N.leb_le in E1, E2. lia.
  - apply andb_false_iff in E. rewrite !N.leb_gt in E. lia.
Qed.

Lemma match_clause_app k kw c rest :
  clause (k :: kw) c ->
  (forall x, ci_literal k x = true -> is_space x = false) ->
  match rest with [] => True | x :: _ => is_digit x = false end ->
  match_clause (k :: kw) (c ++ rest) = Some rest.
Proof.
  intros (ws1 & w & ws2 & ds & -> & Hn1 & Hs1 & Hw & Hn2 & Hs2 & Hnd & Hd) Hk Hrest.
  unfold match_clause. rewrite <- !app_assoc.
  rewrite plus_app; [|assumption|assumption|].
  2:{ inversion Hw as [|? x ? w' Hx Hw']; subst. cbn. apply Hk. assumption. }
  rewrite match_keyword_app by assumption.
  rewrite plus_app; [|assumption|assumption|].
  2:{ destruct ds as [|d ds']; [contradiction|]. cbn.
      inversion Hd; subst. apply digit_not_space. assumption. }
  apply plus_app; assumption.
Qed.

Lemma match_clause_spec kw s rest :
  match_clause kw s = Some rest ->
  exists ws1 w ws2 ds,
    s = ws1 ++ w ++ ws2 ++ ds ++ rest
    /\ ws1 <> [] /\ spaces ws1 /\ keyword kw w /\ spaces ws2
    /\ Forall (fun c => is_digit c = true) ds.
Proof.
  unfold match_clause.
  destruct (plus is_space s) as [s1|] eqn:E1; [|discriminate].
  destruct (match_keyword kw s1) as [s2|] eqn:E2; [|discriminate].
  destruct (plus is_space s2) as [s3|] eqn:E3; [|discriminate].
  intros E4.
  apply plus_spec in E1 as (ws1 & -> & Hn1 & Hs1).
  apply match_keyword_spec in E2 as (w & -> & Hw).
  apply plus_spec in E3 as (ws2 & -> & _ & Hs2).
  apply plus_spec in E4 as (ds & -> & _ & Hd).
  exists ws1, w, ws2, ds. repeat split; assumption.
Qed.

Lemma is_tail_head t :
  is_tail t -> match t with [] => True | x :: _ => is_digit x = false end.
Proof.
  intros [Hs | (ws1 & ws2 & -> & Hs1 & _)].
  - destruct t; [exact I|]. inversion Hs; subst. apply space_not_digit. assumption.
  - destruct ws1; cbn; [reflexivity|]. inversion Hs1; subst.
    apply space_not_digit. assumption.
Qed.

Lemma match_tail_ok t : is_tail t -> match_tail t = Some t.
Proof.
  assert (Hall : forall ws, spaces ws -> span is_space ws = (ws, [])).
  { intros ws Hws. rewrite <- (app_nil_r ws) at 1. apply span_app; [assumption | exact I]. }
  intros [Hs | (ws1 & ws2 & -> & Hs1 & Hs2)]; unfold match_tail.
  - rewrite (Hall t Hs). cbn [snd]. reflexivity.
  - rewrite span_app by (assumption || reflexivity). cbn [snd].
    rewrite N.eqb_refl, (Hall ws2 Hs2). reflexivity.
Qed.

Lemma match_tail_spec s g :
  match_tail s = Some g ->
  g = s /\ Forall (fun c => is_space c = true \/ c = SEMICOLON) s.
Proof.
  unfold match_tail.
  destruct (span is_space s) as [a s1] eqn:E1. cbn [snd].
  apply span_spec in E1 as [-> Ha].
  set (s2 := match s1 with
             | c :: r => if c =? SEMICOLON then r else s1
             | [] => s1
             end).
  destruct (span is_space s2) as [b s3] eqn:E2. cbn [snd].
  apply span_spec in E2 as [E2 Hb].
  destruct s3; [|discriminate]. intros [= <-]. split; [reflexivity|].
  rewrite app_nil_r in E2. apply Forall_app. split.
  - eapply Forall_impl; [exact Ha|]. auto.
  - subst s2. destruct s1 as [|c r]; [constructor|].
    destruct (c =? SEMICOLON) eqn:Ec.
    + apply N.eqb_eq in Ec. subst r. constructor; [right; assumption|].
      eapply Forall_impl; [exact Hb|]. auto.
    + rewrite E2. eapply Forall_impl; [exact Hb|]. auto.
Qed.

Lemma is_tail_chars t :
  is_tail t -> Forall (fun c => is_space c = true \/ c = SEMICOLON) t.
Proof.
  intros [Hs | (a & b & -> & Ha & Hb)].
  - eapply Forall_impl; [exact Hs|]. auto.
  - apply Forall_app. split; [eapply Forall_impl; [exact Ha|]; auto|].
    constructor; [right; reflexivity|]. eapply Forall_impl; [exact Hb|]. auto.
Qed.

Lemma no_offset_in_tail t : is_tail t -> match_clause KW_OFFSET t = None.
Proof.
  intros Ht. apply is_tail_chars in Ht.
  destruct (match_clause KW_OFFSET t) as [rest|] eqn:E; [|reflexivity].
  apply match_clause_spec in E as (ws1 & w & ws2 & ds & E & Hn1 & Hs1 & Hw & _).
  exfalso. rewrite E in Ht. apply Forall_app in Ht as [_ Ht].
  inversion Hw as [|k o kw' w' Ho _ Ek Ew]. rewrite <- Ew in Ht.
  inversion Ht as [|? ? Hx _]. apply ci_o_iff in Ho.
  destruct Ho as [-> | ->], Hx as [Hx | Hx]; discriminate.
Qed.

Lemma match_limit_ok s tail : limit_clause s tail -> match_limit s = Some tail.
Proof.
  intros (lim & off & -> & Hlim & Hoff & Ht). unfold match_limit.
  pose proof (is_tail_head tail Ht) as Hh.
  pose proof (no_offset_in_tail tail Ht) as Hno.
  unfold KW_LIMIT, KW_OFFSET in *.
  assert (Hl : forall x, ci_literal 108 x = true -> is_space x = false)
    by (intros x Hx; apply ci_l_iff in Hx as [-> | ->]; reflexivity).
  assert (Ho : forall x, ci_literal 111 x = true -> is_space x = false)
    by (intros x Hx; apply ci_o_iff in Hx as [-> | ->]; reflexivity).
  destruct Hoff as [-> | Hoff].
  - cbn [app]. rewrite (match_clause_app 108 _ lim tail Hlim Hl Hh).
    rewrite Hno. apply match_tail_ok. assumption.
  - rewrite (match_clause_app 108 _ lim (off ++ tail) Hlim Hl).
    + rewrite (match_clause_app 111 _ off tail Hoff Ho Hh).
      rewrite match_tail_ok by assumption. reflexivity.
    + destruct Hoff as (ws1 & w & ws2 & ds & -> & Hn1 & Hs1 & _).
      destruct ws1 as [|x ws1']; [contradiction|]. cbn.
      inversion Hs1; subst. apply space_not_digit. assumption.
Qed.

(** nothing but [l] matches what [l] matches *)
Lemma ci_l_only k c :
  ci_literal k c = true -> ci_literal 108 c = true -> k = 108.
Proof.
  intros Hk Hl. apply ci_l_iff in Hl.
  unfold ci_literal in Hk. destruct k as [|q].
  - destruct Hl as [-> | ->]; cbn in Hk; discriminate.
  - destruct Hl as [-> | ->]; cbn in Hk;
      rewrite ?andb_false_r, ?orb_false_r in Hk;
      apply Pos.eqb_eq in Hk; subst q; reflexivity.
Qed.

Lemma keyword_not_l kw w :
  keyword kw w -> Forall (fun k => k <> 108) kw -> Forall not_l w.
Proof.
  induction 1 as [|k c kw' w' Hc _ IH]; intros Hkw; [constructor|].
  inversion Hkw as [|? ? Hk Hkw']; subst. constructor; [|apply IH; assumption].
  unfold not_l. destruct (ci_literal 108 c) eqn:E; [|reflexivity].
  exfalso. apply Hk. eapply ci_l_only; eassumption.
Qed.

Lemma space_not_l c : is_space c = true -> not_l c.
Proof.
  intros Hs. unfold not_l. destruct (ci_literal 108 c) eqn:E; [|reflexivity].
  apply ci_l_iff in E as [-> | ->]; discriminate.
Qed.

Lemma digit_not_l c : is_digit c = true -> not_l c.
Proof.
  intros Hs. unfold not_l. destruct (ci_literal 108 c) eqn:E; [|reflexivity].
  apply ci_l_iff in E as [-> | ->]; discriminate.
Qed.

Lemma tail_not_l s g : match_tail s = Some g -> Forall not_l s.
Proof.
  intros H. apply match_tail_spec in H as [_ H].
  eapply Forall_impl; [exact H|]. intros c [Hc | ->];
    [apply space_not_l; assumption | reflexivity].
Qed.

Lemma clause_not_l kw s rest :
  match_clause kw s = Some rest -> Forall (fun k => k <> 108) kw ->
  exists c, s = c ++ rest /\ Forall not_l c.
Proof.
  intros H Hkw.
  apply match_clause_spec in H as (ws1 & w & ws2 & ds & -> & _ & Hs1 & Hw & Hs2 & Hd).
  exists (ws1 ++ w ++ ws2 ++ ds). rewrite <- !app_assoc. split; [reflexivity|].
  repeat (apply Forall_app; split).
  - eapply Forall_impl; [exact Hs1|]. apply space_not_l.
  - apply (keyword_not_l kw); assumption.
  - eapply Forall_impl; [exact Hs2|]. apply space_not_l.
  - eapply Forall_impl; [exact Hd|]. apply digit_not_l.
Qed.

(** a text the pattern matches: white space, one [l], and after it nothing
    that [l] would match *)
Lemma match_limit_shape s g :
  match_limit s = Some g ->
  exists ws l r, s = ws ++ l :: r /\ spaces ws /\ ci_literal 108 l = true
                 /\ Forall not_l r.
Proof.
  unfold match_limit.
  destruct (match_clause KW_LIMIT s) as [s1|] eqn:E1; [|discriminate].
  intros Hrest.
  assert (H1 : Forall not_l s1).
  { destruct (match_clause KW_OFFSET s1) as [s2|] eqn:E2.
    - destruct (match_tail s2) as [g2|] eqn:E3.
      + apply clause_not_l in E2 as (c & -> & Hc);
          [|repeat constructor; discriminate].
        apply Forall_app. split; [assumption|]. eapply tail_not_l; eassumption.
      + eapply tail_not_l; eassumption.
    - eapply tail_not_l; eassumption. }
  apply match_clause_spec in E1 as (ws1 & w & ws2 & ds & -> & _ & Hs1 & Hw & Hs2 & Hd).
  unfold KW_LIMIT in Hw. inversion Hw as [|k l kw' w' Hl Hw' Ek Ew]; subst.
  exists ws1, l, (w' ++ ws2 ++ ds ++ s1). split; [reflexivity|].
  split; [assumption|]. split; [assumption|].
  repeat (apply Forall_app; split).
  - apply (keyword_not_l [105; 109; 105; 116]); [assumption|].
    repeat constructor; discriminate.
  - eapply Forall_impl; [exact Hs2|]. apply space_not_l.
  - eapply Forall_impl; [exact Hd|]. apply digit_not_l.
  - assumption.
Qed.

(** the pattern does not match from a point before the clause *)
Lemma no_earlier_match x c ws1 L rest :
  is_space c = false -> ci_literal 108 L = true ->
  match_limit (x ++ c :: ws1 ++ L :: rest) = None.
Proof.
  intros Hc HL.
  destruct (match_limit (x ++ c :: ws1 ++ L :: rest)) as [g|] eqn:E; [|reflexivity].
  exfalso. apply match_limit_shape in E as (ws & l & r & E & Hws & Hl & Hr).
  assert (Hin : forall k, Forall not_l (k ++ L :: rest) -> False).
  { intros k Hk. apply Forall_app in Hk as [_ Hk]. inversion Hk as [|? ? HL' _].
    unfold not_l in HL'. congruence. }
  symmetry in E. apply app_eq_inv in E as [(k & Hk1 & Hk2) | (k & Hk1 & Hk2)].
  - destruct k as [|c' k'].
    + cbn in Hk2. injection Hk2 as -> <-. apply (Hin ws1). assumption.
    + cbn in Hk2. injection Hk2 as <- Hk2. rewrite Hk1 in Hws.
      apply Forall_app in Hws as [_ Hws]. inversion Hws; subst. congruence.
  - destruct k as [|l' k'].
    + cbn in Hk2. injection Hk2 as -> ->. apply (Hin ws1). assumption.
    + cbn in Hk2. injection Hk2 as -> ->.
      apply (Hin (k' ++ c :: ws1)). rewrite <- app_assoc. assumption.
Qed.

Lemma limit_clause_head s tail :
  limit_clause s tail ->
  exists ws1 L rest, s = ws1 ++ L :: rest /\ ci_literal 108 L = true.
Proof.
  intros (lim & off & -> & (ws1 & w & ws2 & ds & -> & _ & _ & Hw & _) & _).
  unfold KW_LIMIT in Hw. inversion Hw as [|k L kw' w' HL _ Ek Ew]; subst.
  exists ws1, L, ((w' ++ ws2 ++ ds) ++ off ++ tail). split; [|assumption].
  rewrite <- !app_assoc. reflexivity.
Qed.

(** a trailing LIMIT clause is removed, and only it *)
Lemma re_sub_limit_strip body s tail :
  limit_clause s tail -> no_trailing_space body ->
  re_sub_limit (body ++ s) = body ++ tail.
Proof.
  intros Hs. pose proof (match_limit_ok s tail Hs) as Hm.
  destruct (limit_clause_head s tail Hs) as (ws1 & L & rest & Es & HL).
  induction body as [|b body' IH]; intros Hb.
  - cbn [app]. destruct s; cbn [re_sub_limit]; rewrite Hm; reflexivity.
  - assert (Hnone : match_limit ((b :: body') ++ s) = None).
    { destruct (last (b :: body')) as [c|] eqn:El.
      - pose proof (Hb c El) as Hc. apply last_Some in El as [x Ex].
        rewrite Ex, Es, <- app_assoc. apply no_earlier_match; assumption.
      - apply last_None in El. discriminate. }
    cbn [app re_sub_limit] in *. rewrite Hnone. f_equal. apply IH.
    intros c Hc. apply Hb. destruct body'; [discriminate|].
    rewrite last_cons_cons. assumption.
Qed.

End RegexFacts.

(** ** The progress of a successful export *)

Lemma StronglySorted_app_le (l1 l2 : list Z) :
  StronglySorted Z.le l1 -> StronglySorted Z.le l2 ->
  (forall x y, In x l1 -> In y l2 -> (x <= y)%Z) ->
  StronglySorted Z.le (l1 ++ l2).
Proof.
  intros H1 H2 H. induction H1 as [|x l Hl IH Hx]; cbn; [assumption|].
  constructor.
  - apply IH. intros a b Ha Hb. apply H; [right|]; assumption.
  - apply Forall_app. split; [assumption|]. apply Forall_forall.
    intros y Hy. apply H; [left; reflexivity | apply list_elem_of_In; assumption].
Qed.

(** the first value an export gives its entry *)
Lemma expected_progress_head scalar n :
  head (expected_progress scalar n)
  = Some {| processed := 0; total := -1; status := COUNTING |}.
Proof. reflexivity. Qed.

Lemma expected_progress_last scalar n :
  last (expected_progress scalar n)
  = Some {| processed := Z.of_nat n; total := default (-1)%Z scalar;
            status := COMPLETED |}.
Proof.
  unfold expected_progress. rewrite !app_assoc. apply last_snoc.
Qed.

(** every value of [processed] is a multiple of the batch size, or the
    number of rows *)
Lemma expected_progress_values scalar n :
  Forall (fun e => (0 <= processed e <= Z.of_nat n)%Z
                   /\ ((processed e mod 10000 = 0)%Z
                       \/ processed e = Z.of_nat n))
    (expected_progress scalar n).
Proof.
  unfold expected_progress. repeat (apply Forall_app; split).
  - repeat constructor; cbn; lia.
  - destruct scalar; repeat constructor; cbn; lia.
  - apply Forall_map.
    eapply Forall_impl; [apply (batch_points_bounds (S n) _ 0 n batch_size_pos)|].
    cbn beta. intros p [Hp Hm]. cbn [processed]. rewrite batch_size_Z in Hm.
    rewrite Z.sub_0_r, Z.add_0_l in Hm. split; [lia | exact Hm].
  - repeat constructor; cbn; lia.
Qed.

(** [processed] never decreases *)
Lemma expected_progress_sorted scalar n :
  StronglySorted Z.le (map processed (expected_progress scalar n)).
Proof.
  unfold expected_progress. rewrite !map_app, map_map. cbn [map processed].
  pose proof (batch_points_bounds (S n) _ 0 n batch_size_pos) as Hb.
  rewrite Forall_forall in Hb.
  assert (Hin : forall p, In p (batch_points (S n) (Z.to_nat STREAMING_BATCH_SIZE) 0 n)
                          -> (0 < p <= Z.of_nat n)%Z).
  { intros p Hp. apply list_elem_of_In, Hb in Hp. lia. }
  assert (Htail : StronglySorted Z.le
            (map (fun p => p) (batch_points (S n) (Z.to_nat STREAMING_BATCH_SIZE) 0 n)
             ++ [Z.of_nat n])).
  { rewrite map_id. apply StronglySorted_app_le.
    - apply batch_points_sorted, batch_size_pos.
    - repeat constructor.
    - intros x y Hx [<- | []]. apply Hin in Hx. lia. }
  assert (Hpos : Forall (fun y => (0 <= y)%Z)
            (map (fun p => p) (batch_points (S n) (Z.to_nat STREAMING_BATCH_SIZE) 0 n)
             ++ [Z.of_nat n])).
  { rewrite map_id. apply Forall_app. split.
    - apply Forall_forall. intros y Hy. apply list_elem_of_In, Hin in Hy. lia.
    - repeat constructor. lia. }
  change (map (fun x => processed {| processed := x; total := default (-1)%Z scalar;
                                     status := EXPORTING |}))
    with (map (fun p : Z => p)).
  destruct scalar; cbn [app map processed].
  - repeat (constructor; [|repeat (constructor; [lia|]); exact Hpos]). exact Htail.
  - repeat (constructor; [|repeat (constructor; [lia|]); exact Hpos]). exact Htail.
Qed.

(** ** The coordinator *)

Section RunFacts.
Context {U : UnicodeDB}.
Variable env : Env.

Lemma validate_world self w r w' : validate env self w = (r, w') -> w' = w.
Proof.
  unfold validate, bind, lift.
  destruct (one_or_none _) as [[q|]|e]; cbn.
  - destruct (env_access env q); intros [= _ <-]; reflexivity.
  - intros [= _ <-]; reflexivity.
  - intros [= _ <-]; reflexivity.
Qed.

Lemma filter_no_client cid (l : list Query) :
  (forall q, In q l -> client_id q <> cid) ->
  List.filter (fun q => str_eqb (client_id q) cid) l = [].
Proof.
  induction l as [|q l IH]; intros H; cbn; [reflexivity|].
  destruct (str_eqb (client_id q) cid) eqn:E.
  - apply str_eqb_eq in E. exfalso. apply (H q); [left; reflexivity | assumption].
  - apply IH. intros q' Hq'. apply H. right. assumption.
Qed.

End RunFacts.

Section CountFacts.
Context {U : UnicodeDB}.
Variable env : Env.






End CountFacts.

Section RunFailure.
Context {U : UnicodeDB}.
Variable env : Env.

Lemma workspace_path_store self w r w0 :
  _get_workspace_path env self w = (r, w0) ->
  _progress_store w0 = _progress_store w /\ observed w0 = observed w
  /\ files w0 = files w.
Proof.
  unfold _get_workspace_path, bind, ret.
  destruct (makedirs_cases env
              (if str_empty (_subfolder self)
                  || str_empty (strip is_space (_subfolder self))
               then expanduser_work (env_home env)
               else path_join (expanduser_work (env_home env)) (_subfolder self))
              w) as (ok & made & _ & ->).
  destruct ok; intros [= _ <-]; repeat split; reflexivity.
Qed.

End RunFailure.

(** * The claims *)

(** ** C1: what a streaming export writes *)

(** C1, as stated, fails: a query stored with a [select_sql] that ends in a
    LIMIT clause is executed with that text as it is (the clause could be
    removed: [re_sub_limit] removes it), and the export of the
    25000-row table returns 10 rows. *)
Lemma streaming_export_keeps_limit_of_select_sql :
  @streaming_sql latin1_db demo_select_query demo_sql_select None [Some 10%Z]
  = demo_sql_select
  /\ @re_sub_limit latin1_db demo_sql_select = demo_sql
  /\ fst (@run latin1_db (demo_env demo_n true true true)
            demo_select_command empty_world)
     = Ok {| res_status := SUCCESS; res_path := demo_path; row_count := 10 |}.
Proof. repeat split; vm_compute; reflexivity. Qed.

(** C1, amended.  For a query without [select_sql] whose [executed_sql]
    ends, after text that does not end in white space, in white space,
    LIMIT n, an optional OFFSET m, optional white space and an optional
    semicolon, and for which a limit is detected, the streaming export
    executes the text without the clause; when no call fails it writes the
    header and then every row the cursor yields, with no regard to the
    limit, and returns their number as the row count.  A query with
    [select_sql] is executed with that text, unchanged. *)
Theorem streaming_export_writes_every_row {U : UnicodeDB} (env : Env)
    (self : Command) (q : Query) (path : list N) (w : World)
    body s tail stmts l cur :
  truthy (select_sql q) = false ->
  executed_sql q = body ++ s ->
  limit_clause s tail ->
  no_trailing_space body ->
  env_script env (engine q) (executed_sql q) = Some (stmts ++ [Some l]) ->
  env_connect env = true ->
  env_execute env (body ++ tail) = Some cur ->
  cur_fetches cur = None ->
  env_open env path = true ->
  env_write_limit env = None ->
  (exists limit w',
     _get_sql_and_limit env q = Ok (executed_sql q, Some limit)
     /\ streaming_sql q (executed_sql q) (Some limit) (stmts ++ [Some l])
        = body ++ tail
     /\ _stream_to_file env self q path w
        = (Ok {| res_status := SUCCESS; res_path := path;
                 row_count := Z.of_nat (length (cur_rows cur)) |}, w')
     /\ files w' !! path
        = Some (match cur_rows cur with [] => [] | _ :: _ => [cur_keys cur] end
                ++ cur_rows cur))
  /\ (forall q' sel limit' stmts',
        select_sql q' = Some sel -> sel <> [] ->
        streaming_sql q' sel limit' stmts' = sel).
Proof.
  intros Ht Hsql Hclause Hbody Hscript Hconn Hexec Hfetch Hopen Hlimit. split.
  - set (limit := if limited (limiting_factor q) then (l - 1)%Z else l).
    assert (Hres : _get_sql_and_limit env q = Ok (executed_sql q, Some limit)).
    { unfold _get_sql_and_limit. rewrite Ht, Hscript, last_snoc.
      subst limit. destruct (limited (limiting_factor q)); reflexivity. }
    assert (Hstrip : streaming_sql q (executed_sql q) (Some limit) (stmts ++ [Some l])
                     = body ++ tail).
    { unfold streaming_sql. rewrite Ht.
      destruct (stmts ++ [Some l]) eqn:E; [destruct stmts; discriminate|].
      rewrite Hsql. apply re_sub_limit_strip; assumption. }
    rewrite <- Hstrip in Hexec.
    destruct (stream_to_file_ok env self q path w (executed_sql q) (Some limit)
                (stmts ++ [Some l]) cur Hres Hscript Hconn Hexec Hfetch Hopen Hlimit)
      as (w' & new & Hrun & Hfiles & _).
    exists limit, w'. repeat split; assumption.
  - intros q' sel limit' stmts' Hsel Hne. unfold streaming_sql.
    rewrite Hsel. destruct sel; [contradiction|]. destruct stmts'; reflexivity.
Qed.

(** the spec's example: a preview limit of 100 over 25000 rows; the export
    returns all the rows under the header *)
Lemma streaming_export_writes_every_row_witness :
  exists w' content,
    @_stream_to_file latin1_db (demo_env demo_n true true true) demo_command
      demo_query demo_path empty_world
    = (Ok {| res_status := SUCCESS; res_path := demo_path;
             row_count := 25000 |}, w')
    /\ files w' !! demo_path = Some content
    /\ Z.of_nat (length content) = 25001%Z.
Proof.
  destruct (@streaming_export_writes_every_row latin1_db
              (demo_env demo_n true true true) demo_command demo_query demo_path
              empty_world demo_sql (py " LIMIT 101") [] [] 101%Z
              {| cur_keys := [py "id"]; cur_rows := demo_rows demo_n;
                 cur_fetches := None |})
    as [(limit & w' & _ & _ & Hrun & Hfiles) _]; try reflexivity.
  - exists (py " LIMIT 101"), []. split; [reflexivity|]. split.
    + exists [32], (py "LIMIT"), [32], (py "101").
      split; [reflexivity|]. split; [discriminate|].
      split; [repeat constructor|]. split; [repeat constructor|].
      split; [discriminate|]. split; [repeat constructor|].
      split; [discriminate | repeat constructor].
    + split; [left; reflexivity | left; constructor].
  - intros c Hc. vm_compute in Hc. injection Hc as <-. reflexivity.
  - cbn [cur_rows cur_keys] in Hrun, Hfiles.
    rewrite demo_rows_length, demo_n_Z in Hrun.
    eexists w', _. split; [exact Hrun|]. split; [exact Hfiles|].
    rewrite length_app, demo_rows_length.
    pose proof demo_n_Z as Hn.
    destruct (demo_rows demo_n) eqn:E.
    + apply (f_equal length) in E. rewrite demo_rows_length in E. cbn in E. lia.
    + cbn [length]. lia.
Defined.

(** ** C2: the progress entry during a streaming export *)

(** C2.  A streaming export in which no call fails returns the number [n]
    of rows the cursor yields.  The values it gives the entry of its client
    id, oldest first, start with [{processed: 0, total: -1, status:
    "counting"}] whatever the store held before; every value of [processed]
    lies between 0 and [n] and is a multiple of the batch size 10000, or
    [n] itself; [processed] never decreases; and the last value, which is
    the one left in the store, has status "completed" and [processed = n]. *)
Theorem streaming_progress {U : UnicodeDB} (env : Env) (self : Command)
    (q : Query) (path : list N) (w : World) sql0 limit stmts cur :
  _get_sql_and_limit env q = Ok (sql0, limit) ->
  env_script env (engine q) sql0 = Some stmts ->
  env_connect env = true ->
  env_execute env (streaming_sql q sql0 limit stmts) = Some cur ->
  cur_fetches cur = None ->
  env_open env path = true ->
  env_write_limit env = None ->
  let n := Z.of_nat (length (cur_rows cur)) in
  let obs :=
    expected_progress
      (env_scalar env (count_sql (streaming_sql q sql0 limit stmts)))
      (length (cur_rows cur)) in
  exists r w' new,
    _stream_to_file env self q path w = (Ok r, w')
    /\ row_count r = n
    /\ observed w' = new ++ observed w
    /\ entries_of (_client_id self) new = rev (map Some obs)
    /\ head obs = Some {| processed := 0; total := -1; status := COUNTING |}
    /\ Forall (fun e => (0 <= processed e <= n)%Z
                        /\ ((processed e mod STREAMING_BATCH_SIZE = 0)%Z
                            \/ processed e = n)) obs
    /\ StronglySorted Z.le (map processed obs)
    /\ exists e, last obs = Some e
                 /\ get_export_progress (_client_id self) w' = Some e
                 /\ status e = COMPLETED /\ processed e = n.
Proof.
  intros Hsql Hscript Hconn Hexec Hfetch Hopen Hlimit n obs.
  destruct (stream_to_file_ok env self q path w sql0 limit stmts cur
              Hsql Hscript Hconn Hexec Hfetch Hopen Hlimit)
    as (w' & new & Hrun & _ & _ & Hstore & Hobs & Hent).
  eexists. exists w', new.
  split; [exact Hrun|]. split; [reflexivity|]. split; [exact Hobs|].
  split; [exact Hent|]. split; [apply expected_progress_head|].
  split; [apply expected_progress_values|].
  split; [apply expected_progress_sorted|].
  eexists. split; [apply expected_progress_last|].
  split; [exact Hstore|]. split; reflexivity.
Qed.

Lemma streaming_progress_witness :
  exists r w',
    @_stream_to_file latin1_db (demo_env demo_n true true true) demo_command
      demo_query demo_path empty_world = (Ok r, w')
    /\ row_count r = 25000%Z
    /\ get_export_progress (py "run-1") w'
       = Some {| processed := 25000; total := 25000; status := COMPLETED |}.
Proof.
  destruct (@streaming_progress latin1_db (demo_env demo_n true true true)
              demo_command demo_query demo_path empty_world
              demo_sql_limited (Some 100%Z) [Some 101%Z]
              {| cur_keys := [py "id"]; cur_rows := demo_rows demo_n;
                 cur_fetches := None |}
              eq_refl eq_refl eq_refl eq_refl eq_refl eq_refl eq_refl)
    as (r & w' & new & Hrun & Hr & _ & _ & _ & _ & _ & e & Hl & He & _).
  cbn [cur_rows] in Hr, Hl. rewrite demo_rows_length, demo_n_Z in Hr.
  rewrite expected_progress_last, demo_rows_length in Hl.
  change (env_scalar (demo_env demo_n true true true) _)
    with (Some (Z.of_nat demo_n)) in Hl.
  cbn [default] in Hl. rewrite !demo_n_Z in Hl. injection Hl as <-.
  exists r, w'. split; [exact Hrun|]. split; [exact Hr | exact He].
Defined.

(** ** C3: limit resolution *)

(** C3.  When [select_sql] is set (a non-empty string), [_get_sql_and_limit]
    returns it verbatim with no limit.  Otherwise it returns [executed_sql]
    with the limit of the last statement of the parsed script: one less
    than the detected limit when the limiting factor is QUERY, DROPDOWN or
    QUERY_AND_DROPDOWN, the detected limit when it is NONE, and no limit
    when none was detected. *)
Theorem get_sql_and_limit_resolution (env : Env) (q : Query) :
  (forall s, select_sql q = Some s -> s <> [] ->
     _get_sql_and_limit env q = Ok (s, None))
  /\ (forall stmts final,
        truthy (select_sql q) = false ->
        env_script env (engine q) (executed_sql q) = Some (stmts ++ [final]) ->
        exists limit,
          _get_sql_and_limit env q = Ok (executed_sql q, limit)
          /\ (forall n, final = Some n ->
                limiting_factor q = QUERY \/ limiting_factor q = DROPDOWN
                \/ limiting_factor q = QUERY_AND_DROPDOWN ->
                limit = Some (n - 1)%Z)
          /\ (forall n, final = Some n -> limiting_factor q = NONE ->
                limit = Some n)
          /\ (final = None -> limit = None)).
Proof.
  unfold _get_sql_and_limit. split.
  - intros s Hs Hne. rewrite Hs. destruct s; [contradiction | reflexivity].
  - intros stmts final Ht Hscript. rewrite Ht, Hscript, last_snoc.
    eexists. split; [reflexivity|]. repeat split.
    + intros n -> [Hf | [Hf | Hf]]; rewrite Hf; reflexivity.
    + intros n -> Hf. rewrite Hf. reflexivity.
    + intros ->. reflexivity.
Qed.

(** the spec's example: limiting factor QUERY and a detected limit of 101
    resolve to the limit 100 *)
Lemma get_sql_and_limit_resolution_witness :
  _get_sql_and_limit (demo_env 3 true true true) demo_query
  = Ok (demo_sql_limited, Some 100%Z).
Proof.
  destruct (get_sql_and_limit_resolution (demo_env 3 true true true) demo_query)
    as [_ H].
  destruct (H [] (Some 101%Z) eq_refl eq_refl) as (limit & Hr & H1 & _).
  rewrite Hr. rewrite (H1 101%Z eq_refl (or_introl eq_refl)). reflexivity.
Defined.

(** ** C4: [sanitize_subfolder] *)

(** C4, as stated, fails twice: the segment whitelist has no dot, and
    underscores are stripped from both ends of every segment. *)
Lemma sanitize_subfolder_dot_and_underscore :
  @sanitize_subfolder latin1_db (py "a.b") = py "a_b"
  /\ spec_sanitize_subfolder spec_segment (py "a.b") = py "a.b"
  /\ @sanitize_subfolder latin1_db (py "_tmp_/x") = py "tmp/x"
  /\ spec_sanitize_subfolder spec_segment (py "_tmp_/x") = py "_tmp_/x".
Proof. repeat split; reflexivity. Qed.

(** C4, amended.  [sanitize_subfolder] removes the [..] substrings, trims
    [/] at both ends, splits on [/], replaces in each segment every code
    point that is not a word character or a dash by an underscore (a dot is
    replaced too) and strips underscores from both ends of the segment,
    drops the empty segments, joins the rest with [/], and returns
    "sql_exports" when no segment is left.  Every segment of the result
    is non-empty and made of word characters and dashes. *)
Theorem sanitize_subfolder_spec {U : UnicodeDB} (p : list N) :
  sanitize_subfolder p = spec_sanitize_subfolder sanitized_segment p
  /\ Forall (fun seg => seg <> [] /\ Forall (fun c => subfolder_char c = true) seg)
       (split SLASH (sanitize_subfolder p)).
Proof.
  split; [apply sanitize_subfolder_pipeline | apply sanitize_subfolder_segments].
Qed.

(** ** C5: [sanitize_filename] *)

(** C5, as stated, fails: the letter U+00E9 is outside [[A-Za-z0-9_.-]] but
    is a word character, so the code keeps it where the claim has an
    underscore. *)
Lemma sanitize_filename_keeps_word_characters :
  @sanitize_filename latin1_db [233] = [233; 46; 99; 115; 118]
  /\ spec_sanitize_filename ascii_whitelist [233] = [95; 46; 99; 115; 118].
Proof. split; reflexivity. Qed.

(** C5, amended.  [sanitize_filename] keeps the last [/]-separated
    component, replaces every code point that is not a word character, a
    dash or a dot by an underscore, strips leading dots, substitutes
    "export" for an empty result and appends ".csv" unless the name ends in
    ".csv" in some letter case.  On ASCII input the characters kept are
    exactly [[A-Za-z0-9_.-]]. *)
Theorem sanitize_filename_spec {U : UnicodeDB} (f : list N) :
  sanitize_filename f = spec_sanitize_filename filename_char f
  /\ (Forall (fun c => c < 128) f ->
      sanitize_filename f = spec_sanitize_filename ascii_whitelist f).
Proof.
  split; [apply sanitize_filename_pipeline|].
  intros Hf. rewrite sanitize_filename_pipeline.
  unfold spec_sanitize_filename.
  assert (Hs : Forall (fun c => c < 128) (strip_directory f)).
  { unfold strip_directory. rewrite <- basename_last_component.
    destruct (basename_suffix f) as [d Hd]. rewrite Hd in Hf.
    apply Forall_app in Hf. tauto. }
  assert (Hm : map (fun c => if filename_char c then c else UNDERSCORE) (strip_directory f)
               = map (fun c => if ascii_whitelist c then c else UNDERSCORE) (strip_directory f)).
  { induction Hs as [|c r Hc _ IH]; cbn; [reflexivity|].
    rewrite filename_char_ascii by assumption. f_equal. exact IH. }
  rewrite Hm. reflexivity.
Qed.

Lemma sanitize_filename_spec_witness :
  @sanitize_filename latin1_db (py "../tmp/my report.CSV")
  = spec_sanitize_filename ascii_whitelist (py "../tmp/my report.CSV").
Proof.
  apply (@sanitize_filename_spec latin1_db (py "../tmp/my report.CSV")).
  apply Forall_forall. intros c Hc. apply list_elem_of_In in Hc.
  cbn in Hc. repeat (destruct Hc as [<- | Hc]; [reflexivity|]). contradiction.
Defined.

(** ** C6: idempotence and shape of a sanitized filename *)

(** C6, as stated, fails: a name that already ends in ".CSV" is returned as
    it is, and does not match the case-sensitive pattern. *)
Lemma sanitize_filename_upper_suffix :
  @sanitize_filename latin1_db (py "a.CSV") = py "a.CSV"
  /\ @matches_name_pattern latin1_db suffix_exact
       (@sanitize_filename latin1_db (py "a.CSV")) = false.
Proof. split; reflexivity. Qed.

(** C6, amended.  [sanitize_filename] is idempotent, its result is never
    empty, and the result matches [^[\w.-]+\.csv$] with the letters of the
    suffix taken in either case. *)
Theorem sanitize_filename_idempotent {U : UnicodeDB} (f : list N) :
  sanitize_filename (sanitize_filename f) = sanitize_filename f
  /\ sanitize_filename f <> []
  /\ matches_name_pattern suffix_ci (sanitize_filename f) = true.
Proof.
  pose proof (sanitize_filename_clean f) as Hc. split; [|split].
  - apply clean_name_fixed. assumption.
  - destruct Hc as (_ & Hh & _). intros E. rewrite E in Hh. exact Hh.
  - apply clean_name_matches. assumption.
Qed.

(** ** C7: no parent-directory reference survives *)

(** C7.  The result of [sanitize_subfolder] contains no dot at all, hence no
    [..] segment, for every input (with or without [..] in it); and the
    path [_get_workspace_path] builds from a sanitized subfolder and
    filename is the work directory followed by components none of which is
    [..]. *)
Theorem sanitize_subfolder_no_parent_reference {U : UnicodeDB} (env : Env)
    (cid f p : list N) (streaming : bool) (w : World) :
  (forall d, env_makedirs env d = true) ->
  Forall (fun c => c <> DOT) (sanitize_subfolder p)
  /\ ~ In [DOT; DOT] (split SLASH (sanitize_subfolder p))
  /\ exists rel w',
       _get_workspace_path env (__init__ cid f p streaming) w
       = (Ok (expanduser_work (env_home env) ++ SLASH :: rel), w')
       /\ ~ In [DOT; DOT] (split SLASH rel).
Proof.
  intros Hmk. split; [apply sanitize_subfolder_no_dot|]. split.
  - apply no_dot_not_parent, sanitize_subfolder_no_dot.
  - destruct (workspace_path_shape env cid f p streaming w Hmk)
      as (rel & w' & H1 & H2 & _).
    exists rel, w'. split; assumption.
Qed.

Lemma sanitize_subfolder_no_parent_reference_witness :
  ~ In [DOT; DOT]
      (split SLASH (@sanitize_subfolder latin1_db (py "../../etc/./..//x"))).
Proof.
  apply (@sanitize_subfolder_no_parent_reference latin1_db
           (demo_env 3 true true true) (py "run-1") (py "report")
           (py "../../etc/./..//x") true empty_world).
  intros d. reflexivity.
Defined.

(** ** C8: the best-effort row count *)




(** ** C9: an unknown client id *)

(** C9.  When no stored query has the client id of the request, [run]
    raises the query-not-found error with status 404 and leaves the world
    as it was: no directory is created and no file is written. *)
Theorem run_unknown_client_id {U : UnicodeDB} (env : Env) (self : Command)
    (w : World) :
  (forall q, In q (env_queries env) -> client_id q <> _client_id self) ->
  run env self w
  = (Raise (SupersetErrorException RESULTS_BACKEND_ERROR 404), w).
Proof.
  intros H. unfold run, validate, bind at 1, bind at 1, lift.
  rewrite filter_no_client by assumption. reflexivity.
Qed.

Lemma run_unknown_client_id_witness :
  @run latin1_db (demo_env 3 true true true)
    (@__init__ latin1_db (py "run-9") (py "report") (py "exports") true)
    empty_world
  = (Raise (SupersetErrorException RESULTS_BACKEND_ERROR 404), empty_world).
Proof.
  apply (@run_unknown_client_id latin1_db).
  intros q [<- | [<- | []]]; discriminate.
Defined.

(** ** C10: a streaming export that raises *)


(** C10.  When a streaming export raises after its progress entry is
    created, [run] re-raises the failure as the generic error with status
    500 in the world the export left, so the rewrapping does not touch the
    store; the entry of the client id is left with status "counting" or
    "exporting", and no value it took during the export has the status
    "failed". *)
Theorem failed_export_stays_in_progress {U : UnicodeDB} (env : Env)
    (self : Command) (w : World) q path w0 sql0 limit stmts e w' :
  _streaming self = true ->
  validate env self w = (Ok q, w) ->
  _get_workspace_path env self w = (Ok path, w0) ->
  _get_sql_and_limit env q = Ok (sql0, limit) ->
  env_script env (engine q) sql0 = Some stmts ->
  _stream_to_file env self q path w0 = (Raise e, w') ->
  run env self w
  = (Raise (SupersetErrorException GENERIC_BACKEND_ERROR 500), w')
  /\ (exists en,
        get_export_progress (_client_id self) w' = Some en
        /\ (status en = COUNTING \/ status en = EXPORTING)
        /\ status en <> FAILED)
  /\ (exists new,
        observed w' = new ++ observed w
        /\ Forall (fun o => exists en, o = Some en /\ status en <> FAILED)
             (entries_of (_client_id self) new)).
Proof.
  intros Hstr Hval Hpath Hsql Hscript Hrun.
  pose proof (stream_to_file_raise env self q path w0 sql0 limit stmts e w'
                Hsql Hscript Hrun) as [Hin (new & Hobs & Hnew)].
  destruct (workspace_path_store env self w _ w0 Hpath) as (_ & Hobs0 & _).
  assert (Hnf : forall o, in_progress o ->
                          exists en, o = Some en /\ status en <> FAILED).
  { intros o (en & -> & [Hs | Hs]); exists en; (split; [reflexivity|]);
      rewrite Hs; discriminate. }
  split; [|split].
  - unfold run. rewrite (bind_ok _ _ _ _ _ Hval), (bind_ok _ _ _ _ _ Hpath).
    unfold try_except. rewrite Hstr, Hrun. reflexivity.
  - destruct Hin as (en & Hen & Hs). exists en. split; [exact Hen|].
    split; [exact Hs|]. destruct Hs as [Hs | Hs]; rewrite Hs; discriminate.
  - exists new. rewrite <- Hobs0. split; [exact Hobs|].
    eapply Forall_impl; [exact Hnew|]. exact Hnf.
Qed.

(** the query fails to execute: the entry stays "exporting" *)
Lemma failed_export_stays_in_progress_witness :
  exists w' en,
    @run latin1_db (demo_env 3 true false true) demo_command empty_world
    = (Raise (SupersetErrorException GENERIC_BACKEND_ERROR 500), w')
    /\ get_export_progress (py "run-1") w' = Some en
    /\ (status en = COUNTING \/ status en = EXPORTING).
Proof.
  set (env := demo_env 3 true false true).
  set (w0 := snd (_get_workspace_path env demo_command empty_world)).
  set (w' := snd (@_stream_to_file latin1_db env demo_command demo_query demo_path w0)).
  destruct (@failed_export_stays_in_progress latin1_db env demo_command
              empty_world demo_query demo_path w0 demo_sql_limited (Some 100%Z)
              [Some 101%Z] DatabaseError w')
    as (Hrun & (en & Hen & Hs & _) & _);
    try (vm_compute; reflexivity).
  exists w', en. split; [exact Hrun|]. split; [exact Hen | exact Hs].
Defined.

(** * Further properties of the code *)

(** ** The sanitizers *)

Lemma rstrip_id p s :
  match rev s with [] => True | c :: _ => p c = false end -> rstrip p s = s.
Proof.
  intros H. unfold rstrip. rewrite lstrip_id by assumption. apply rev_involutive.
Qed.

Lemma strip_trimmed p s : trimmed p s -> strip p s = s.
Proof.
  intros [H1 H2]. unfold strip. rewrite lstrip_id by assumption.
  apply rstrip_id. assumption.
Qed.

Lemma strip_is_trimmed p s : trimmed p (strip p s).
Proof.
  unfold strip, rstrip, trimmed.
  pose proof (lstrip_head p s) as Ht. set (t := lstrip p s) in *.
  pose proof (lstrip_head p (rev t)) as Hu.
  destruct (lstrip_suffix p (rev t)) as (d & Hd & Hall).
  set (u := lstrip p (rev t)) in *. rewrite rev_involutive.
  split; [|exact Hu].
  destruct u as [|x u'] using rev_ind; [exact I|]. clear IHu'.
  rewrite rev_app_distr. cbn.
  assert (Et : t = x :: rev u' ++ rev d).
  { rewrite <- (rev_involutive t), Hd, !rev_app_distr. cbn. reflexivity. }
  rewrite Et in Ht. exact Ht.
Qed.

Lemma remove2_absent x y s : Forall (fun c => c <> x) s -> remove2 x y s = s.
Proof.
  induction 1 as [|c r Hc Hr IH]; [reflexivity|].
  cbn [remove2]. destruct r as [|d r']; [reflexivity|].
  apply N.eqb_neq in Hc. rewrite Hc. cbn [andb]. f_equal. exact IH.
Qed.

Lemma endswith_false_rev s d :
  endswith s [d] = false ->
  match rev s with [] => True | c :: _ => N.eqb d c = false end.
Proof.
  intros H. destruct (rev s) as [|c r] eqn:E; [exact I|].
  assert (Es : s = rev r ++ [c]).
  { rewrite <- (rev_involutive s), E. reflexivity. }
  rewrite Es, endswith_app in H by discriminate.
  apply N.eqb_neq. intros ->. unfold endswith in H. cbn in H.
  rewrite N.eqb_refl in H. discriminate.
Qed.

Section SanitizerFixedPoints.
Context {U : UnicodeDB}.

Lemma valid_filename_clean r : valid_filename r <-> clean_name r.
Proof.
  unfold valid_filename, clean_name. rewrite lower_endswith_csv. tauto.
Qed.

Lemma kept_segments segs :
  Forall (fun seg => seg <> []
                     /\ Forall (fun c => subfolder_char c = true) seg
                     /\ trimmed (N.eqb UNDERSCORE) seg) segs ->
  List.filter (fun x => negb (str_empty x)) (map sanitized_segment segs) = segs.
Proof.
  induction 1 as [|seg l (Hne & Hc & Ht) _ IH]; [reflexivity|].
  cbn [map List.filter]. unfold sanitized_segment at 1 2.
  rewrite re_sub_class_id, strip_trimmed by assumption.
  destruct seg; [contradiction|]. cbn. rewrite IH. reflexivity.
Qed.

Lemma valid_subfolder_fixed p : valid_subfolder p -> sanitize_subfolder p = p.
Proof.
  intros (segs & Hne & -> & Hall).
  assert (Hplain : Forall (fun seg => seg <> [] /\ Forall (fun c => c <> SLASH) seg) segs).
  { eapply Forall_impl; [exact Hall|]. intros seg (H1 & H2 & _). split; [assumption|].
    eapply Forall_impl; [exact H2|]. intros c Hc. apply subfolder_char_plain; assumption. }
  assert (Hnodot : Forall (fun c => c <> DOT) (join [SLASH] segs)).
  { apply join_Forall; [repeat constructor; discriminate|].
    eapply Forall_impl; [exact Hall|]. intros seg (_ & H2 & _).
    eapply Forall_impl; [exact H2|]. intros c Hc. apply subfolder_char_plain; assumption. }
  destruct (join_slash_ends segs Hne Hplain) as [Hhead Hend].
  unfold sanitize_subfolder. rewrite remove2_absent by assumption.
  unfold strip. rewrite lstrip_id.
  2:{ destruct (join [SLASH] segs); [exact I|]. apply N.eqb_neq. congruence. }
  rewrite rstrip_id by (apply endswith_false_rev; assumption).
  assert (Hsplit : split SLASH (join [SLASH] segs) = segs).
  { apply split_join; [assumption|].
    eapply Forall_impl; [exact Hplain|]. intros seg [_ H]. exact H. }
  rewrite Hsplit, sanitize_parts_spec, kept_segments by assumption. cbn [app].
  destruct segs; [contradiction | reflexivity].
Qed.

Lemma sanitize_parts_trimmed parts :
  Forall (fun seg => seg <> []
                     /\ Forall (fun c => subfolder_char c = true) seg
                     /\ trimmed (N.eqb UNDERSCORE) seg)
    (sanitize_parts parts []).
Proof.
  rewrite sanitize_parts_spec. cbn. apply Forall_forall. intros seg Hin.
  apply list_elem_of_In, filter_In in Hin as [Hin Hne].
  apply in_map_iff in Hin as (part & <- & _). split; [|split].
  - intros E. rewrite E in Hne. discriminate.
  - apply sanitized_segment_chars.
  - apply strip_is_trimmed.
Qed.

Lemma sanitize_subfolder_valid p : valid_subfolder (sanitize_subfolder p).
Proof.
  unfold sanitize_subfolder.
  pose proof (sanitize_parts_trimmed (split SLASH (strip (N.eqb SLASH) (remove2 DOT DOT p)))) as H.
  destruct (sanitize_parts _ []) as [|x l] eqn:E.
  - exists [SQL_EXPORTS]. split; [discriminate|]. split; [reflexivity|].
    constructor; [|constructor]. split; [discriminate|]. split.
    + repeat constructor.
    + split; reflexivity.
  - exists (x :: l). split; [discriminate|]. split; [reflexivity | exact H].
Qed.

End SanitizerFixedPoints.

(** X1.  The names [sanitize_filename] returns unchanged are exactly the
    names made of word characters, dashes and dots that do not begin with a
    dot and end in ".csv" in some letter case. *)
Theorem sanitize_filename_fixed_points {U : UnicodeDB} (r : list N) :
  sanitize_filename r = r <-> valid_filename r.
Proof.
  rewrite valid_filename_clean. split.
  - intros H. rewrite <- H. apply sanitize_filename_clean.
  - apply clean_name_fixed.
Qed.

(** X2.  A sanitized filename is one visible path component: it contains no
    [/], does not begin with a dot, and is neither [.] nor [..]. *)
Theorem sanitize_filename_one_component {U : UnicodeDB} (f : list N) :
  split SLASH (sanitize_filename f) = [sanitize_filename f]
  /\ Forall (fun c => c <> SLASH) (sanitize_filename f)
  /\ (forall r, sanitize_filename f <> DOT :: r).
Proof.
  pose proof (sanitize_filename_clean f) as Hc.
  destruct (clean_name_component _ Hc) as (H1 & _ & _).
  destruct Hc as (Hch & Hh & _). split; [exact H1|]. split.
  - apply filename_char_not_slash. assumption.
  - intros r E. rewrite E in Hh. apply Hh. reflexivity.
Qed.

(** X3.  [sanitize_subfolder] is idempotent. *)
Theorem sanitize_subfolder_idempotent {U : UnicodeDB} (p : list N) :
  sanitize_subfolder (sanitize_subfolder p) = sanitize_subfolder p.
Proof. apply valid_subfolder_fixed, sanitize_subfolder_valid. Qed.

(** X4.  The paths [sanitize_subfolder] returns unchanged are exactly the
    relative paths of one or more [/]-joined segments, each non-empty, made
    of word characters and dashes, with no underscore at either end. *)
Theorem sanitize_subfolder_fixed_points {U : UnicodeDB} (p : list N) :
  sanitize_subfolder p = p <-> valid_subfolder p.
Proof.
  split.
  - intros H. rewrite <- H. apply sanitize_subfolder_valid.
  - apply valid_subfolder_fixed.
Qed.

(** ** The removal of the LIMIT clause *)

Section StripFacts.
Context {U : UnicodeDB}.

Lemma match_tail_chars s g :
  match_tail s = Some g -> g = s /\ Forall tail_char s.
Proof. apply match_tail_spec. Qed.

(** a match consumes a non-empty start of the text and returns the rest,
    which is white space and at most one semicolon *)
Lemma match_limit_suffix s g :
  match_limit s = Some g ->
  exists b, s = b ++ g /\ b <> [] /\ Forall tail_char g.
Proof.
  unfold match_limit.
  destruct (match_clause KW_LIMIT s) as [s1|] eqn:E1; [|discriminate].
  apply match_clause_spec in E1 as (ws1 & w & ws2 & ds & -> & Hn1 & _).
  assert (Hmain : forall g', match_tail s1 = Some g' ->
            exists b, ws1 ++ w ++ ws2 ++ ds ++ s1 = b ++ g' /\ b <> []
                      /\ Forall tail_char g').
  { intros g' Hg. apply match_tail_chars in Hg as [-> Hall].
    exists (ws1 ++ w ++ ws2 ++ ds). rewrite <- !app_assoc.
    split; [reflexivity|]. split; [|assumption].
    destruct ws1; [contradiction | discriminate]. }
  destruct (match_clause KW_OFFSET s1) as [s2|] eqn:E2; [|apply Hmain].
  destruct (match_tail s2) as [g2|] eqn:E3; [|apply Hmain].
  intros [= <-]. apply match_tail_chars in E3 as [-> Hall].
  apply match_clause_spec in E2 as (ws3 & w' & ws4 & ds' & -> & _).
  exists (ws1 ++ w ++ ws2 ++ ds ++ ws3 ++ w' ++ ws4 ++ ds').
  rewrite <- !app_assoc. split; [reflexivity|]. split; [|assumption].
  destruct ws1; [contradiction | discriminate].
Qed.

Lemma plus_last p s rest :
  plus p s = Some rest -> exists pre d, s = pre ++ d :: rest /\ p d = true.
Proof.
  intros H. apply plus_spec in H as (a & -> & Hne & Ha).
  destruct a as [|d a'] using rev_ind; [contradiction|].
  apply Forall_app in Ha as [_ Hd]. inversion Hd; subst.
  exists a', d. rewrite <- app_assoc. split; [reflexivity | assumption].
Qed.

Lemma match_clause_last kw s rest :
  match_clause kw s = Some rest ->
  exists pre d, s = pre ++ d :: rest /\ is_digit d = true.
Proof.
  unfold match_clause.
  destruct (plus is_space s) as [s1|] eqn:E1; [|discriminate].
  destruct (match_keyword kw s1) as [s2|] eqn:E2; [|discriminate].
  destruct (plus is_space s2) as [s3|] eqn:E3; [|discriminate].
  intros E4.
  apply plus_spec in E1 as (ws1 & -> & _).
  apply match_keyword_spec in E2 as (w & -> & _).
  apply plus_spec in E3 as (ws2 & -> & _).
  apply plus_last in E4 as (pre & d & -> & Hd).
  exists (ws1 ++ w ++ ws2 ++ pre), d. rewrite <- !app_assoc.
  split; [reflexivity | assumption].
Qed.

Lemma last_digit_or_tail pre d t :
  is_digit d = true -> Forall tail_char t ->
  exists c, last (pre ++ d :: t) = Some c /\ clause_end c.
Proof.
  intros Hd Ht. destruct t as [|x t'] using rev_ind.
  - exists d. split; [apply last_snoc | left; assumption].
  - clear IHt'. exists x. split.
    + change (pre ++ d :: t' ++ [x]) with (pre ++ (d :: t') ++ [x]).
      rewrite app_assoc. apply last_snoc.
    + apply Forall_app in Ht as [_ Hx]. inversion Hx as [|? ? [H | H] _]; subst;
        [right; left; assumption | right; right; reflexivity].
Qed.

Lemma match_limit_last s g :
  match_limit s = Some g -> exists c, last s = Some c /\ clause_end c.
Proof.
  unfold match_limit.
  destruct (match_clause KW_LIMIT s) as [s1|] eqn:E1; [|discriminate].
  apply match_clause_last in E1 as (pre & d & -> & Hd).
  assert (Hmain : forall g', match_tail s1 = Some g' ->
            exists c, last (pre ++ d :: s1) = Some c /\ clause_end c).
  { intros g' Hg. apply match_tail_chars in Hg as [_ Hall].
    apply last_digit_or_tail; assumption. }
  destruct (match_clause KW_OFFSET s1) as [s2|] eqn:E2; [|apply Hmain].
  destruct (match_tail s2) as [g2|] eqn:E3; [|apply Hmain].
  intros _. apply match_tail_chars in E3 as [_ Hall].
  apply match_clause_last in E2 as (pre' & d' & -> & Hd').
  change (pre ++ d :: pre' ++ d' :: s2) with (pre ++ (d :: pre') ++ d' :: s2).
  rewrite app_assoc. apply last_digit_or_tail; assumption.
Qed.

End StripFacts.

(** X5.  [re_sub_limit] removes at most one block of the text: what comes
    before the block is kept as it is, what comes after it is white space
    and at most one semicolon, and the block with what follows it is a
    match of the pattern. *)
Theorem re_sub_limit_removes_one_block {U : UnicodeDB} (sql : list N) :
  exists a b c,
    sql = a ++ b ++ c
    /\ re_sub_limit sql = a ++ c
    /\ Forall tail_char c
    /\ ((b = [] /\ c = []) \/ (b <> [] /\ match_limit (b ++ c) = Some c)).
Proof.
  induction sql as [|x r IH].
  - exists [], [], []. repeat split; [constructor | left; split; reflexivity].
  - cbn [re_sub_limit]. destruct (match_limit (x :: r)) as [g|] eqn:E.
    + destruct (match_limit_suffix _ _ E) as (b & Hb & Hne & Hg).
      exists [], b, g. cbn [app]. rewrite Hb in E.
      split; [assumption|]. split; [reflexivity|]. split; [assumption|].
      right. split; assumption.
    + destruct IH as (a & b & c & -> & Hr & Hc & Hcase).
      exists (x :: a), b, c. cbn [app]. rewrite Hr.
      repeat split; assumption.
Qed.

(** X6.  A text that does not end in a digit, white space or a semicolon is
    left unchanged by [re_sub_limit]: a LIMIT clause inside a subquery or
    followed by a comment stays. *)
Theorem re_sub_limit_needs_clause_at_end {U : UnicodeDB} (sql : list N) :
  (forall c, last sql = Some c -> ~ clause_end c) ->
  re_sub_limit sql = sql.
Proof.
  induction sql as [|x r IH]; intros H; [reflexivity|].
  cbn [re_sub_limit]. destruct (match_limit (x :: r)) as [g|] eqn:E.
  - exfalso. destruct (match_limit_last _ _ E) as (c & Hc & Hend).
    exact (H c Hc Hend).
  - f_equal. apply IH. intros c Hc. apply H.
    destruct r; [discriminate|]. rewrite last_cons_cons. assumption.
Qed.

Lemma re_sub_limit_needs_clause_at_end_witness :
  @re_sub_limit latin1_db (py "SELECT * FROM (SELECT 1 LIMIT 5) x -- top")
  = py "SELECT * FROM (SELECT 1 LIMIT 5) x -- top".
Proof.
  apply (@re_sub_limit_needs_clause_at_end latin1_db).
  intros c Hc. vm_compute in Hc. injection Hc as <-.
  intros [H | [H | H]]; discriminate.
Defined.

(** ** What an export may change *)

Section Within.
Variable R : World -> World -> Prop.
Hypothesis R_refl : forall w, R w w.
Hypothesis R_trans : forall w1 w2 w3, R w1 w2 -> R w2 w3 -> R w1 w3.

Lemma within_ret {A} (a : A) : within R (ret a).
Proof. intros w. apply R_refl. Qed.

Lemma within_raise {A} e : within R (@raise A e).
Proof. intros w. apply R_refl. Qed.

Lemma within_lift {A} (x : result A) : within R (lift x).
Proof. intros w. apply R_refl. Qed.

Lemma within_call {A} (o : option A) e : within R (call o e).
Proof. destruct o; [apply within_ret | apply within_raise]. Qed.

Lemma within_bind {A B} (m : M A) (k : A -> M B) :
  within R m -> (forall a, within R (k a)) -> within R (bind m k).
Proof.
  intros Hm Hk w. unfold bind. specialize (Hm w).
  destruct (m w) as [[a|e] w1]; cbn [snd] in *.
  - eapply R_trans; [exact Hm | apply Hk].
  - exact Hm.
Qed.

Lemma within_try {A} (m : M A) (h : exc -> M A) :
  within R m -> (forall e, within R (h e)) -> within R (try_except m h).
Proof.
  intros Hm Hh w. unfold try_except. specialize (Hm w).
  destruct (m w) as [[a|e] w1]; cbn [snd] in *.
  - exact Hm.
  - eapply R_trans; [exact Hm | apply Hh].
Qed.

End Within.

Lemma stream_footprint_refl cid path w : stream_footprint cid path w w.
Proof. repeat split; reflexivity. Qed.

Lemma stream_footprint_trans cid path w1 w2 w3 :
  stream_footprint cid path w1 w2 -> stream_footprint cid path w2 w3 ->
  stream_footprint cid path w1 w3.
Proof.
  intros (A1 & B1 & C1) (A2 & B2 & C2). split; [|split].
  - intros k Hk. rewrite A2, A1 by assumption. reflexivity.
  - intros p Hp. rewrite B2, B1 by assumption. reflexivity.
  - congruence.
Qed.

Lemma cache_footprint_refl path w : cache_footprint path w w.
Proof. repeat split; reflexivity. Qed.

Lemma cache_footprint_trans path w1 w2 w3 :
  cache_footprint path w1 w2 -> cache_footprint path w2 w3 ->
  cache_footprint path w1 w3.
Proof.
  intros (A1 & B1 & C1 & D1) (A2 & B2 & C2 & D2). repeat split; try congruence.
  intros p Hp. rewrite C2, C1 by assumption. reflexivity.
Qed.

Lemma cache_footprint_stream cid path w w' :
  cache_footprint path w w' -> stream_footprint cid path w w'.
Proof.
  intros (A & _ & C & D). split; [|split]; [|assumption|assumption].
  intros k _. rewrite A. reflexivity.
Qed.

Section Footprints.
Context {U : UnicodeDB}.
Variable env : Env.

Lemma put_file_cache_footprint path content w :
  cache_footprint path w (put_file path content w).
Proof.
  repeat split. intros p Hp. cbn. apply lookup_insert_ne. congruence.
Qed.

Lemma put_entry_stream_footprint cid path e w :
  stream_footprint cid path w (put_entry cid e w).
Proof.
  split; [|split; reflexivity]. intros k Hk. cbn. apply lookup_insert_ne. congruence.
Qed.

Lemma within_open_write path :
  within (cache_footprint path) (open_write env path).
Proof.
  intros w. unfold open_write.
  destruct (env_open env path), (env_open_truncates env path); cbn [snd];
    try apply put_file_cache_footprint; apply cache_footprint_refl.
Qed.

Lemma within_write_records path records :
  within (cache_footprint path) (write_records env path records).
Proof.
  intros w. unfold write_records.
  destruct (files w !! path); [|apply cache_footprint_refl].
  destruct (match env_write_limit env with Some _ => _ | None => _ end); cbn [snd].
  - apply cache_footprint_refl.
  - apply put_file_cache_footprint.
Qed.

Lemma within_weaken {A} cid path (m : M A) :
  within (cache_footprint path) m -> within (stream_footprint cid path) m.
Proof. intros H w. apply cache_footprint_stream, H. Qed.

Lemma within_store_update cid path f :
  within (stream_footprint cid path) (store_update cid f).
Proof.
  intros w. unfold store_update, store_set.
  destruct (_progress_store w !! cid); cbn [snd].
  - apply put_entry_stream_footprint.
  - apply stream_footprint_refl.
Qed.

Lemma within_write_rows cid path rows : forall c,
  within (stream_footprint cid path) (write_rows env path rows c).
Proof.
  induction rows as [|r rest IH]; intros c; cbn [write_rows].
  - apply within_ret, stream_footprint_refl.
  - apply within_bind; [apply stream_footprint_trans | |intros _; apply IH].
    apply within_weaken, within_write_records.
Qed.

Lemma within_stream_loop cid path : forall fuel cur writer c,
  within (stream_footprint cid path) (stream_loop env fuel cid path cur writer c).
Proof.
  pose proof (stream_footprint_refl cid path) as Hr.
  pose proof (stream_footprint_trans cid path) as Ht.
  induction fuel as [|fuel IH]; intros cur writer c; cbn [stream_loop].
  - apply within_raise, Hr.
  - apply within_bind; [exact Ht | apply within_lift, Hr|]. intros [rows cur'].
    destruct rows as [|r rows]; [apply within_ret, Hr|].
    apply within_bind; [exact Ht | |].
    { destruct writer; [apply within_ret, Hr|].
      apply within_weaken, within_write_records. }
    intros _. apply within_bind; [exact Ht | apply within_write_rows|]. intros c'.
    apply within_bind; [exact Ht | apply within_store_update | intros _; apply IH].
Qed.

Lemma within_stream_to_file self q path :
  within (stream_footprint (_client_id self) path) (_stream_to_file env self q path).
Proof.
  pose proof (stream_footprint_refl (_client_id self) path) as Hr.
  pose proof (stream_footprint_trans (_client_id self) path) as Ht.
  unfold _stream_to_file.
  apply within_bind; [exact Ht | apply within_lift, Hr|]. intros [sql limit].
  apply within_bind; [exact Ht | apply within_call, Hr|]. intros stmts.
  apply within_bind; [exact Ht | |].
  { intros w. apply put_entry_stream_footprint. }
  intros _. apply within_bind; [exact Ht | |].
  { destruct (env_connect env); [apply within_ret, Hr | apply within_raise, Hr]. }
  intros _. apply within_bind; [exact Ht | |].
  { unfold count_rows. apply within_try; [exact Ht | |].
    - apply within_bind; [exact Ht | apply within_call, Hr|]. intros t.
      apply within_bind; [exact Ht | apply within_store_update|]. intros _.
      apply within_store_update.
    - intros _. apply within_store_update. }
  intros _. apply within_bind; [exact Ht | apply within_call, Hr|]. intros cur.
  apply within_bind; [exact Ht | apply within_weaken, within_open_write|]. intros _.
  apply within_bind; [exact Ht | apply within_stream_loop|]. intros rc.
  apply within_bind; [exact Ht | apply within_store_update|]. intros _.
  apply within_ret, Hr.
Qed.

Lemma within_save_from_cache q path :
  within (cache_footprint path) (_save_from_cache env q path).
Proof.
  pose proof (cache_footprint_refl path) as Hr.
  pose proof (cache_footprint_trans path) as Ht.
  unfold _save_from_cache.
  apply within_bind; [exact Ht | |].
  { match goal with |- within _ (if ?b then _ else _) => destruct b end.
    - apply within_call, Hr.
    - apply within_bind; [exact Ht | apply within_lift, Hr|]. intros [sql limit].
      apply within_bind; [exact Ht | apply within_call, Hr|]. intros df.
      apply within_ret, Hr. }
  intros df. apply within_bind; [exact Ht | apply within_call, Hr|]. intros csv.
  apply within_bind; [exact Ht | apply within_open_write|]. intros _.
  apply within_bind; [exact Ht | apply within_write_records|]. intros _.
  apply within_ret, Hr.
Qed.

End Footprints.

(** X7.  A streaming export, however it ends, changes no entry of the
    progress store but that of its own client id, no file but the one at its
    path, and no directory. *)
Theorem stream_to_file_footprint {U : UnicodeDB} (env : Env) (self : Command)
    (q : Query) (path : list N) (w : World) :
  let w' := snd (_stream_to_file env self q path w) in
  (forall k, k <> _client_id self ->
     get_export_progress k w' = get_export_progress k w)
  /\ (forall p, p <> path -> files w' !! p = files w !! p)
  /\ dirs w' = dirs w.
Proof. apply (within_stream_to_file env self q path w). Qed.

(** X8.  A standard export, however it ends, leaves the progress store as it
    was (no entry is created or changed, for any client id) and changes no
    file but the one at its path and no directory. *)
Theorem save_from_cache_footprint (env : Env) (q : Query)
    (path : list N) (w : World) :
  let w' := snd (_save_from_cache env q path w) in
  (forall k, get_export_progress k w' = get_export_progress k w)
  /\ observed w' = observed w
  /\ (forall p, p <> path -> files w' !! p = files w !! p)
  /\ dirs w' = dirs w.
Proof.
  destruct (within_save_from_cache env q path w) as (A & B & C & D).
  cbn zeta. unfold get_export_progress. rewrite A. repeat split; assumption.
Qed.

(** ** The errors of [run] *)

(** X10.  When the query of the client id is found and the access check
    refuses it, [run] raises the access error with status 403 and leaves the
    world as it was: nothing is created or written, and the error is not
    turned into the generic one. *)
Theorem run_access_denied {U : UnicodeDB} (env : Env) (self : Command)
    (w : World) (q : Query) :
  List.filter (fun q' => str_eqb (client_id q') (_client_id self))
    (env_queries env) = [q] ->
  env_access env q = false ->
  run env self w
  = (Raise (SupersetErrorException QUERY_SECURITY_ACCESS_ERROR 403), w).
Proof.
  intros Hq Ha. unfold run, validate. unfold bind at 1 2, lift.
  rewrite Hq. cbn [one_or_none]. rewrite Ha. reflexivity.
Qed.

Lemma run_access_denied_witness :
  @run latin1_db (demo_env2 3 false None) demo_command empty_world
  = (Raise (SupersetErrorException QUERY_SECURITY_ACCESS_ERROR 403),
     empty_world).
Proof.
  apply (@run_access_denied latin1_db (demo_env2 3 false None) demo_command
           empty_world demo_query); reflexivity.
Defined.

(** ** Edge cases of the streaming export *)

(** X11.  A streaming export of a query that yields no row writes no header:
    the file at the path is left empty (whatever it held before), the row
    count is 0, and the entry ends "completed" with [processed = 0]. *)
Theorem stream_to_file_empty_result {U : UnicodeDB} (env : Env)
    (self : Command) (q : Query) (path : list N) (w : World)
    sql0 limit stmts cur :
  _get_sql_and_limit env q = Ok (sql0, limit) ->
  env_script env (engine q) sql0 = Some stmts ->
  env_connect env = true ->
  env_execute env (streaming_sql q sql0 limit stmts) = Some cur ->
  cur_rows cur = [] ->
  cur_fetches cur = None ->
  env_open env path = true ->
  env_write_limit env = None ->
  exists w',
    _stream_to_file env self q path w
    = (Ok {| res_status := SUCCESS; res_path := path; row_count := 0 |}, w')
    /\ files w' !! path = Some []
    /\ exists t, get_export_progress (_client_id self) w'
                 = Some {| processed := 0; total := t; status := COMPLETED |}.
Proof.
  intros Hsql Hscript Hconn Hexec Hrows Hfetch Hopen Hlimit.
  destruct (stream_to_file_ok env self q path w sql0 limit stmts cur
              Hsql Hscript Hconn Hexec Hfetch Hopen Hlimit)
    as (w' & new & Hrun & Hfiles & _ & Hstore & _).
  rewrite Hrows in Hrun, Hfiles, Hstore. cbn [length Z.of_nat app] in *.
  exists w'. split; [exact Hrun|]. split; [exact Hfiles|].
  eexists. exact Hstore.
Qed.

Lemma stream_to_file_empty_result_witness :
  exists w',
    @_stream_to_file latin1_db (demo_env2 0 true None) demo_command demo_query
      demo_path (put_file demo_path [[py "old"]] empty_world)
    = (Ok {| res_status := SUCCESS; res_path := demo_path; row_count := 0 |}, w')
    /\ files w' !! demo_path = Some [].
Proof.
  destruct (@stream_to_file_empty_result latin1_db (demo_env2 0 true None)
              demo_command demo_query demo_path
              (put_file demo_path [[py "old"]] empty_world)
              demo_sql_limited (Some 100%Z) [Some 101%Z]
              {| cur_keys := [py "id"]; cur_rows := []; cur_fetches := None |}
              eq_refl eq_refl eq_refl eq_refl eq_refl eq_refl eq_refl eq_refl)
    as (w' & Hrun & Hfiles & _).
  exists w'. split; [exact Hrun | exact Hfiles].
Defined.

Section EarlyFailure.
Context {U : UnicodeDB}.
Variable env : Env.

Lemma counted_facts cid scalar e w :
  files (counted cid scalar e w) = files w
  /\ dirs (counted cid scalar e w) = dirs w
  /\ _progress_store (counted cid scalar e w) !! cid
     = Some {| processed := processed e; total := default (total e) scalar;
               status := EXPORTING |}.
Proof.
  unfold counted. destruct scalar; (split; [reflexivity|]); (split; [reflexivity|]);
    rewrite put_entry_lookup; reflexivity.
Qed.

Lemma stream_to_file_prefix self q path w sql0 limit stmts :
  _get_sql_and_limit env q = Ok (sql0, limit) ->
  env_script env (engine q) sql0 = Some stmts ->
  let sql := streaming_sql q sql0 limit stmts in
  let cid := _client_id self in
  let w1 := put_entry cid {| processed := 0; total := -1; status := COUNTING |} w in
  let w2 := counted cid (env_scalar env (count_sql sql))
              {| processed := 0; total := -1; status := COUNTING |} w1 in
  _stream_to_file env self q path w
  = if env_connect env
    then match env_execute env sql with
         | None => (Raise DatabaseError, w2)
         | Some cur =>
             if env_open env path
             then (row_count <- stream_loop env (S (length (cur_rows cur))) cid
                                  path cur false 0 ;;
                   store_update cid (set_status COMPLETED) ;;;
                   ret {| res_status := SUCCESS; res_path := path;
                          row_count := row_count |}) (put_file path [] w2)
             else (Raise OpenError,
                   if env_open_truncates env path then put_file path [] w2
                   else w2)
         end
    else (Raise DatabaseError, w1).
Proof.
  intros Hsql Hscript sql cid w1 w2. unfold _stream_to_file.
  rewrite Hsql. unfold bind at 1, lift at 1.
  rewrite Hscript. unfold call at 1, bind at 1, ret at 1.
  fold sql cid. unfold bind at 1, store_set at 1. fold w1.
  destruct (env_connect env); [|reflexivity].
  unfold bind at 1, ret at 1.
  rewrite (bind_ok _ _ _ _ _ (count_rows_ok env cid sql w1 _ (put_entry_lookup _ _ _))).
  fold w2. destruct (env_execute env sql) as [cur|]; [|reflexivity].
  unfold call at 1, bind at 1, ret at 1. unfold bind at 1, open_write at 1.
  destruct (env_open env path), (env_open_truncates env path); reflexivity.
Qed.

End EarlyFailure.

(** X12.  A streaming export that fails before its loop starts leaves the
    status of its entry telling how far it got: "counting" with total -1
    when the connection fails; "exporting", with the total of the count
    query if it returned one, when the query cannot be executed or the file
    cannot be opened.  No file is touched when the connection or the query
    fails.  When [open] raises, every other file is as it was, and the file
    at the path is as it was if the operating system refused, and empty if
    [open] raised after it had created or emptied the file. *)
Theorem stream_to_file_fails_before_open {U : UnicodeDB} (env : Env)
    (self : Command) (q : Query) (path : list N) (w : World)
    sql0 limit stmts :
  _get_sql_and_limit env q = Ok (sql0, limit) ->
  env_script env (engine q) sql0 = Some stmts ->
  let sql := streaming_sql q sql0 limit stmts in
  let t := default (-1)%Z (env_scalar env (count_sql sql)) in
  (env_connect env = false ->
   exists w',
     _stream_to_file env self q path w = (Raise DatabaseError, w')
     /\ files w' = files w
     /\ get_export_progress (_client_id self) w'
        = Some {| processed := 0; total := -1; status := COUNTING |})
  /\ (env_connect env = true -> env_execute env sql = None ->
      exists w',
        _stream_to_file env self q path w = (Raise DatabaseError, w')
        /\ files w' = files w
        /\ get_export_progress (_client_id self) w'
           = Some {| processed := 0; total := t; status := EXPORTING |})
  /\ (env_connect env = true -> env_execute env sql <> None ->
      env_open env path = false ->
      exists w',
        _stream_to_file env self q path w = (Raise OpenError, w')
        /\ (forall p, p <> path -> files w' !! p = files w !! p)
        /\ files w' !! path
           = (if env_open_truncates env path then Some []
              else files w !! path)
        /\ get_export_progress (_client_id self) w'
           = Some {| processed := 0; total := t; status := EXPORTING |}).
Proof.
  intros Hsql Hscript sql t.
  pose proof (stream_to_file_prefix env self q path w sql0 limit stmts Hsql Hscript)
    as Hrun. cbn zeta in Hrun. fold sql in Hrun.
  set (e0 := {| processed := 0; total := -1; status := COUNTING |}) in *.
  destruct (counted_facts (_client_id self) (env_scalar env (count_sql sql)) e0
              (put_entry (_client_id self) e0 w)) as (Hf & _ & Hs).
  split; [|split].
  - intros Hc. rewrite Hc in Hrun. eexists. split; [exact Hrun|].
    split; [reflexivity | apply put_entry_lookup].
  - intros Hc He. rewrite Hc, He in Hrun. eexists. split; [exact Hrun|].
    split; [exact Hf | exact Hs].
  - intros Hc He Ho. rewrite Hc, Ho in Hrun.
    destruct (env_execute env sql); [|contradiction].
    eexists. split; [exact Hrun|].
    destruct (env_open_truncates env path).
    + split; [|split; [|exact Hs]].
      * intros p Hp. cbn [put_file files]. rewrite Hf.
        apply lookup_insert_ne. congruence.
      * apply lookup_insert_eq.
    + split; [|split; [|exact Hs]].
      * intros p _. rewrite Hf. reflexivity.
      * rewrite Hf. reflexivity.
Qed.

Lemma stream_to_file_fails_before_open_witness :
  exists w',
    @_stream_to_file latin1_db (demo_env_fs (fun _ => true) false true)
      demo_command demo_query demo_path
      (put_file demo_path [[py "old"]] empty_world)
    = (Raise OpenError, w')
    /\ files w' !! demo_path = Some []
    /\ get_export_progress (py "run-1") w'
       = Some {| processed := 0; total := 3; status := EXPORTING |}.
Proof.
  destruct (@stream_to_file_fails_before_open latin1_db
              (demo_env_fs (fun _ => true) false true) demo_command demo_query
              demo_path (put_file demo_path [[py "old"]] empty_world)
              demo_sql_limited (Some 100%Z) [Some 101%Z]
              eq_refl eq_refl) as (_ & _ & H).
  destruct (H eq_refl ltac:(discriminate) eq_refl) as (w' & Hrun & _ & Hf & Hs).
  exists w'. split; [exact Hrun|]. split; [exact Hf | exact Hs].
Defined.

Section FetchFailure.
Context {U : UnicodeDB}.
Variable env : Env.

(** the loop when the fetch after [j] full batches fails *)
Lemma stream_loop_fetch_fail cid path : forall j fuel cur writer c w content e,
  cur_fetches cur = Some j -> env_write_limit env = None ->
  files w !! path = Some content ->
  _progress_store w !! cid = Some e -> processed e = c ->
  (j * Z.to_nat STREAMING_BATCH_SIZE <= length (cur_rows cur))%nat ->
  (j < fuel)%nat ->
  exists w',
    stream_loop env fuel cid path cur writer c w = (Raise DatabaseError, w')
    /\ files w' !! path
       = Some (content
               ++ (if writer then []
                   else match j with
                        | O => []
                        | S _ => [cur_keys cur]
                        end)
               ++ take (j * Z.to_nat STREAMING_BATCH_SIZE) (cur_rows cur))
    /\ _progress_store w' !! cid
       = Some (set_processed
                 (c + Z.of_nat (j * Z.to_nat STREAMING_BATCH_SIZE)) e).
Proof.
  remember (Z.to_nat STREAMING_BATCH_SIZE) as B eqn:HB.
  assert (HB0 : (0 < B)%nat) by (subst B; unfold STREAMING_BATCH_SIZE; lia).
  induction j as [|j IH];
    intros fuel cur writer c w content e Hf Hl Hfile Hst Hc Hlen Hfuel;
    (destruct fuel as [|fuel]; [lia|]); cbn [stream_loop]; rewrite <- HB;
    unfold fetchmany; rewrite Hf; unfold bind at 1, lift at 1.
  - exists w. split; [reflexivity|]. split.
    + rewrite Hfile. cbn [Nat.mul take]. destruct writer; cbn [app];
        rewrite app_nil_r; reflexivity.
    + cbn [Nat.mul Z.of_nat]. rewrite Z.add_0_r, <- Hc, set_processed_same.
      exact Hst.
  - destruct (cur_rows cur) as [|r0 rows0] eqn:Erows; [cbn [length] in Hlen; nia|].
    destruct B as [|B']; [lia|]. cbn [take].
    set (rows := r0 :: rows0) in *.
    set (hdr := if writer then [] else [cur_keys cur]).
    assert (Hk : length (take (S B') rows) = S B').
    { rewrite length_take. nia. }
    assert (Hw1 :
      (if writer then ret tt else writerow env path (cur_keys cur)) w
      = (Ok tt, put_file path (content ++ hdr) w)).
    { subst hdr. destruct writer.
      - rewrite app_nil_r, put_file_same; auto.
      - unfold writerow. apply write_records_ok; assumption. }
    change (r0 :: take B' rows0) with (take (S B') rows).
    cbn [cur_keys]. rewrite (bind_ok _ _ _ _ _ Hw1).
    rewrite (bind_ok _ _ _ _ _
               (write_rows_ok env path (take (S B') rows) c
                  (put_file path (content ++ hdr) w) (content ++ hdr) Hl
                  ltac:(apply lookup_insert_eq))).
    rewrite Hk, put_file_twice.
    set (w2 := put_file path ((content ++ hdr) ++ take (S B') rows) w).
    rewrite (bind_ok _ _ _ _ _
               (store_update_ok cid (set_processed (c + Z.of_nat (S B'))) w2 e Hst)).
    set (e3 := set_processed (c + Z.of_nat (S B'))%Z e).
    set (w3 := put_entry cid e3 w2).
    set (cur' := {| cur_keys := cur_keys cur; cur_rows := drop (S B') rows;
                    cur_fetches := Nat.pred <$> Some (S j) |}).
    destruct (IH fuel cur' true (c + Z.of_nat (S B'))%Z w3
                ((content ++ hdr) ++ take (S B') rows) e3)
      as (w' & Hrun & Hfiles & Hstore).
    + reflexivity.
    + assumption.
    + apply lookup_insert_eq.
    + apply put_entry_lookup.
    + reflexivity.
    + cbn [cur' cur_rows]. rewrite length_drop. nia.
    + lia.
    + exists w'. split; [exact Hrun|]. split.
      * rewrite Hfiles. cbn [app cur' cur_rows cur_keys]. f_equal.
        rewrite <- !app_assoc. f_equal. subst hdr. f_equal.
        rewrite take_take_drop. f_equal.
      * rewrite Hstore. f_equal. subst e3. unfold set_processed. cbn.
        f_equal. lia.
Qed.

End FetchFailure.

(** X13.  When the database fails on the fetch that follows [j] full batches,
    the streaming export raises, and what it did so far stays: the file holds
    the header (if a batch was written) and the first [j * 10000] rows, and
    the entry keeps [processed = j * 10000] with the status "exporting". *)
Theorem stream_to_file_partial_file {U : UnicodeDB} (env : Env)
    (self : Command) (q : Query) (path : list N) (w : World)
    sql0 limit stmts cur (j : nat) :
  _get_sql_and_limit env q = Ok (sql0, limit) ->
  env_script env (engine q) sql0 = Some stmts ->
  env_connect env = true ->
  env_execute env (streaming_sql q sql0 limit stmts) = Some cur ->
  cur_fetches cur = Some j ->
  (j * Z.to_nat STREAMING_BATCH_SIZE <= length (cur_rows cur))%nat ->
  env_open env path = true ->
  env_write_limit env = None ->
  let done := (j * Z.to_nat STREAMING_BATCH_SIZE)%nat in
  exists w',
    _stream_to_file env self q path w = (Raise DatabaseError, w')
    /\ files w' !! path
       = Some (match j with O => [] | S _ => [cur_keys cur] end
               ++ take done (cur_rows cur))
    /\ get_export_progress (_client_id self) w'
       = Some {| processed := Z.of_nat done;
                 total := default (-1)%Z
                            (env_scalar env
                               (count_sql (streaming_sql q sql0 limit stmts)));
                 status := EXPORTING |}.
Proof.
  intros Hsql Hscript Hconn Hexec Hfetch Hlen Hopen Hlimit done.
  pose proof (stream_to_file_prefix env self q path w sql0 limit stmts Hsql Hscript)
    as Hrun. cbn zeta in Hrun. rewrite Hconn, Hexec, Hopen in Hrun.
  set (e0 := {| processed := 0; total := -1; status := COUNTING |}) in *.
  set (sql := streaming_sql q sql0 limit stmts) in *.
  set (w2 := counted (_client_id self) (env_scalar env (count_sql sql)) e0
               (put_entry (_client_id self) e0 w)) in *.
  destruct (counted_facts (_client_id self) (env_scalar env (count_sql sql)) e0
              (put_entry (_client_id self) e0 w)) as (_ & _ & Hs).
  fold w2 in Hs.
  destruct (stream_loop_fetch_fail env (_client_id self) path j
              (S (length (cur_rows cur))) cur false 0%Z (put_file path [] w2) []
              _ Hfetch Hlimit ltac:(apply lookup_insert_eq) Hs eq_refl Hlen)
    as (w' & Hloop & Hfiles & Hstore).
  { unfold STREAMING_BATCH_SIZE in Hlen. nia. }
  exists w'. rewrite Hrun, (bind_raise _ _ _ _ _ Hloop).
  split; [reflexivity|]. split; [exact Hfiles|].
  unfold get_export_progress. rewrite Hstore. reflexivity.
Qed.

Lemma stream_to_file_partial_file_witness :
  exists w',
    @_stream_to_file latin1_db (demo_env2 demo_n true (Some 2%nat))
      demo_command demo_query demo_path empty_world
    = (Raise DatabaseError, w')
    /\ files w' !! demo_path
       = Some ([[py "id"]] ++ take (N.to_nat 20000) (demo_rows demo_n))
    /\ get_export_progress (py "run-1") w'
       = Some {| processed := 20000; total := 25000; status := EXPORTING |}.
Proof.
  destruct (@stream_to_file_partial_file latin1_db
              (demo_env2 demo_n true (Some 2%nat)) demo_command demo_query
              demo_path empty_world demo_sql_limited (Some 100%Z) [Some 101%Z]
              {| cur_keys := [py "id"]; cur_rows := demo_rows demo_n;
                 cur_fetches := Some 2%nat |} 2%nat
              eq_refl eq_refl eq_refl eq_refl eq_refl)
    as (w' & Hrun & Hfiles & Hstore).
  - cbn [cur_rows]. rewrite demo_rows_length. unfold demo_n, STREAMING_BATCH_SIZE. lia.
  - reflexivity.
  - reflexivity.
  - exists w'. split; [exact Hrun|]. split.
    + rewrite Hfiles. cbn [cur_keys cur_rows].
      replace (2 * Z.to_nat STREAMING_BATCH_SIZE)%nat with (N.to_nat 20000)
        by (unfold STREAMING_BATCH_SIZE; lia).
      reflexivity.
    + change (py "run-1") with (_client_id demo_command). rewrite Hstore.
      change (env_scalar (demo_env2 demo_n true (Some 2%nat)) _)
        with (Some (Z.of_nat demo_n)).
      cbn [default]. rewrite demo_n_Z.
      replace (Z.of_nat (2 * Z.to_nat STREAMING_BATCH_SIZE)) with 20000%Z
        by (unfold STREAMING_BATCH_SIZE; lia).
      reflexivity.
Defined.

(** ** The standard mode *)

Lemma slice_to_length {A : Type} (limit : Z) (l : list A) :
  Z.of_nat (length (slice_to limit l)) = sliced_length limit (Z.of_nat (length l)).
Proof.
  unfold slice_to, sliced_length. destruct (0 <=? limit)%Z eqn:E;
    rewrite length_take; lia.
Qed.

Lemma slice_to_prefix {A : Type} (limit : Z) (l : list A) :
  exists rest, l = slice_to limit l ++ rest.
Proof.
  unfold slice_to. destruct (0 <=? limit)%Z;
    eexists; symmetry; apply take_drop.
Qed.

(** X14.  Without a cached payload the standard mode re-runs the query and
    keeps [df[:limit]]: the file is replaced by the CSV of a prefix of the
    rows, and the row count is [min(limit, rows)] for a limit from 0 on, and
    [max(0, rows + limit)] for a negative one; with no limit every row is
    kept. *)
Theorem save_from_cache_replay (env : Env) (q : Query) (path : list N)
    (w : World) sql limit df records :
  truthy (cached_blob env q) = false ->
  _get_sql_and_limit env q = Ok (sql, limit) ->
  env_get_df env sql = Some df ->
  env_to_csv env (replayed limit df) = Some records ->
  env_open env path = true ->
  env_write_limit env = None ->
  let n := Z.of_nat (length (frame_data df)) in
  _save_from_cache env q path w
  = (Ok {| res_status := SUCCESS; res_path := path;
           row_count := match limit with
                        | Some k => sliced_length k n
                        | None => n
                        end |},
     put_file path records w)
  /\ exists rest, frame_data df = frame_data (replayed limit df) ++ rest.
Proof.
  intros Hblob Hsql Hdf Hcsv Hopen Hlimit n. split.
  - unfold _save_from_cache. cbn zeta. unfold cached_blob in Hblob.
    rewrite Hblob, Hsql. unfold lift at 1. unfold bind at 2.
    rewrite Hdf. unfold call at 1, bind at 2, ret at 1. unfold ret at 1, bind at 1.
    fold (replayed limit df). rewrite Hcsv. unfold call at 1, bind at 1, ret at 1.
    unfold bind at 1, open_write at 1. rewrite Hopen.
    rewrite (bind_ok _ _ _ _ _
               (write_records_ok env path records (put_file path [] w) [] Hlimit
                  ltac:(apply lookup_insert_eq))).
    rewrite put_file_twice. unfold ret. cbn [app].
    destruct limit as [k|]; [|reflexivity]. cbn [replayed frame_data].
    rewrite slice_to_length. reflexivity.
  - destruct limit as [k|]; cbn [replayed frame_data].
    + apply slice_to_prefix.
    + exists []. rewrite app_nil_r. reflexivity.
Qed.

Lemma save_from_cache_replay_witness :
  _save_from_cache (demo_env2 200 true None) demo_query demo_path empty_world
  = (Ok {| res_status := SUCCESS; res_path := demo_path; row_count := 100 |},
     put_file demo_path ([py "id"] :: take 100 (demo_rows 200)) empty_world).
Proof.
  destruct (save_from_cache_replay (demo_env2 200 true None) demo_query
              demo_path empty_world demo_sql_limited (Some 100%Z)
              {| frame_columns := [py "id"];
                 frame_data := take 101 (demo_rows 200) |}
              ([py "id"] :: take 100 (demo_rows 200))
              eq_refl eq_refl eq_refl eq_refl eq_refl eq_refl) as [H _].
  exact H.
Defined.

(** X15.  With a cached payload the standard mode exports the cached frame
    as it is: every cached row is counted and written, whatever the limit of
    the query, and neither the SQL script nor the database is consulted. *)
Theorem save_from_cache_hit (env : Env) (q : Query) (path : list N)
    (w : World) blob df records :
  cached_blob env q = Some blob -> blob <> [] ->
  env_payload env blob = Some df ->
  env_to_csv env df = Some records ->
  env_open env path = true ->
  env_write_limit env = None ->
  forall script get_df,
    let env' :=
      {| env_queries := env_queries env; env_access := env_access env;
         env_script := script; env_home := env_home env;
         env_makedirs := env_makedirs env; env_backend := env_backend env;
         env_payload := env_payload env; env_get_df := get_df;
         env_to_csv := env_to_csv env; env_connect := env_connect env;
         env_scalar := env_scalar env; env_execute := env_execute env;
         env_open := env_open env;
         env_open_truncates := env_open_truncates env;
         env_write_limit := env_write_limit env |} in
    _save_from_cache env' q path w
    = (Ok {| res_status := SUCCESS; res_path := path;
             row_count := Z.of_nat (length (frame_data df)) |},
       put_file path records w).
Proof.
  intros Hblob Hne Hpay Hcsv Hopen Hlimit script get_df env'.
  unfold _save_from_cache. cbn zeta. unfold cached_blob in Hblob.
  cbn [env' env_backend env_payload env_to_csv].
  rewrite Hblob. destruct blob as [|b0 blob]; [contradiction|].
  change (truthy (Some (b0 :: blob))) with true.
  change (default [] (Some (b0 :: blob))) with (b0 :: blob).
  cbn match. rewrite Hpay. unfold call at 1, bind at 1, ret at 1.
  rewrite Hcsv. unfold call at 1, bind at 1, ret at 1.
  unfold bind at 1, open_write at 1. cbn [env' env_open]. rewrite Hopen.
  rewrite (bind_ok _ _ _ _ _
             (write_records_ok env' path records (put_file path [] w) [] Hlimit
                ltac:(apply lookup_insert_eq))).
  rewrite put_file_twice. reflexivity.
Qed.

Lemma save_from_cache_hit_witness :
  _save_from_cache (demo_env2 200 true None) demo_cached_query demo_path
    empty_world
  = (Ok {| res_status := SUCCESS; res_path := demo_path; row_count := 50 |},
     put_file demo_path ([py "id"] :: take 50 (demo_rows 200)) empty_world).
Proof.
  refine (save_from_cache_hit (demo_env2 200 true None) demo_cached_query
            demo_path empty_world (py "payload")
            {| frame_columns := [py "id"]; frame_data := take 50 (demo_rows 200) |}
            ([py "id"] :: take 50 (demo_rows 200))
            eq_refl _ eq_refl eq_refl eq_refl eq_refl
            (env_script (demo_env2 200 true None))
            (env_get_df (demo_env2 200 true None))).
  discriminate.
Defined.

(** X16.  A query without [select_sql] whose executed SQL parses to no
    statement cannot be exported: [statements[-1]] raises [IndexError], in
    the streaming mode before the progress entry is created, and in the
    standard mode (when nothing is cached) before the file is opened.  The
    store and the files are as they were. *)
Theorem empty_script_raises {U : UnicodeDB} (env : Env) (self : Command)
    (q : Query) (path : list N) (w : World) :
  truthy (select_sql q) = false ->
  env_script env (engine q) (executed_sql q) = Some [] ->
  _stream_to_file env self q path w = (Raise IndexError, w)
  /\ (truthy (cached_blob env q) = false ->
      _save_from_cache env q path w = (Raise IndexError, w)).
Proof.
  intros Hsel Hscript.
  assert (Hsql : _get_sql_and_limit env q = Raise IndexError).
  { unfold _get_sql_and_limit. rewrite Hsel, Hscript. reflexivity. }
  split.
  - unfold _stream_to_file. rewrite Hsql. reflexivity.
  - intros Hblob. unfold _save_from_cache. cbn zeta.
    unfold cached_blob in Hblob. rewrite Hblob, Hsql. reflexivity.
Qed.

Lemma empty_script_raises_witness :
  @_stream_to_file latin1_db (demo_env2 3 true None) demo_empty_command
    demo_empty_query demo_path empty_world
  = (Raise IndexError, empty_world).
Proof.
  destruct (@empty_script_raises latin1_db (demo_env2 3 true None)
              demo_empty_command demo_empty_query demo_path empty_world
              eq_refl eq_refl) as [H _].
  exact H.
Defined.

(** ** The path of a command built by [__init__] *)

Lemma dir_prefixes_last : forall rest before,
  before ++ rest <> [] ->
  exists l, dir_prefixes before rest = l ++ [before ++ rest].
Proof.
  induction rest as [|c r IH]; intros before Hne; cbn [dir_prefixes].
  - rewrite app_nil_r in *. destruct before; [contradiction|].
    exists []. reflexivity.
  - destruct (IH (before ++ [c])) as (l & Hl).
    { rewrite <- app_assoc. intros E. apply app_eq_nil in E as [_ E].
      discriminate. }
    rewrite <- app_assoc in Hl. cbn [app] in Hl. rewrite Hl.
    destruct ((c =? SLASH) && negb (str_empty before)).
    + exists (before :: l). reflexivity.
    + exists l. reflexivity.
Qed.

Lemma latin1_alnum_not_space c :
  latin1_isalnum c = true -> is_space c = false.
Proof.
  unfold latin1_isalnum, is_space.
  rewrite !orb_true_iff, !orb_false_iff, !andb_true_iff, !andb_false_iff,
    !N.eqb_eq, !N.eqb_neq, !N.leb_le, !N.leb_gt.
  lia.
Qed.

Section InitPath.
Context {U : UnicodeDB}.
Hypothesis alnum_not_space : forall c, uni_isalnum c = true -> is_space c = false.

Lemma subfolder_char_not_space c : subfolder_char c = true -> is_space c = false.
Proof.
  unfold subfolder_char, is_word. destruct (c <? 128) eqn:E.
  - unfold ascii_alnum, ascii_digit, ascii_upper, ascii_lower, UNDERSCORE, DASH,
      is_space.
    rewrite !orb_true_iff, !orb_false_iff, !andb_true_iff, !andb_false_iff,
      !N.eqb_eq, !N.eqb_neq, !N.leb_le, !N.leb_gt.
    apply N.ltb_lt in E. lia.
  - rewrite orb_true_iff. intros [H | H]; [apply alnum_not_space; exact H|].
    apply N.eqb_eq in H. subst c. reflexivity.
Qed.

Lemma sanitize_subfolder_not_blank p :
  str_empty (sanitize_subfolder p)
  || str_empty (strip is_space (sanitize_subfolder p)) = false.
Proof.
  destruct (sanitize_subfolder_ends p) as [Hs _].
  assert (Hall : Forall (fun c => is_space c = false) (sanitize_subfolder p)).
  { eapply Forall_impl; [apply sanitize_subfolder_chars|].
    intros c [Hc | ->]; [apply subfolder_char_not_space; exact Hc | reflexivity]. }
  assert (Ht : trimmed is_space (sanitize_subfolder p)).
  { split.
    - destruct Hall; [exact I | assumption].
    - apply Forall_rev in Hall. destruct Hall; [exact I | assumption]. }
  rewrite (strip_trimmed _ _ Ht).
  destruct (sanitize_subfolder p); [contradiction | reflexivity].
Qed.

End InitPath.

(** X17.  A command built by [__init__] always saves below a subfolder of the
    work directory: its subfolder is never blank, so the branch that saves
    directly in [~/work] is not taken.  Either the path
    [<work>/<sanitized subfolder>/<sanitized filename>] is returned and the
    directory exists, or the error of [os.makedirs] is raised.  In both
    cases no file and no progress entry is touched, no directory is removed,
    and only directories of the path are made (some may be, also when the
    call raises).  The path is returned when every [mkdir] succeeds. *)
Theorem workspace_path_of_init {U : UnicodeDB} (env : Env)
    (cid f p : list N) (streaming : bool) (w : World) :
  (forall c, uni_isalnum c = true -> is_space c = false) ->
  let dir := expanduser_work (env_home env) ++ SLASH :: sanitize_subfolder p in
  exists r w',
    _get_workspace_path env (__init__ cid f p streaming) w = (r, w')
    /\ (r = Ok (dir ++ SLASH :: sanitize_filename f) /\ dir ∈ dirs w'
        \/ r = Raise MakedirsError)
    /\ ((forall d, env_makedirs env d = true) ->
        r = Ok (dir ++ SLASH :: sanitize_filename f))
    /\ files w' = files w /\ _progress_store w' = _progress_store w
    /\ dirs w ⊆ dirs w'
    /\ (forall d, d ∈ dirs w' -> d ∈ dirs w \/ d ∈ dir_prefixes [] dir).
Proof.
  intros Hsp dir.
  unfold _get_workspace_path, __init__, bind, ret.
  cbn [_subfolder _filename].
  rewrite (sanitize_subfolder_not_blank Hsp p).
  destruct (expanduser_work_end (env_home env)) as [Hw1 Hw2].
  destruct (sanitize_subfolder_ends p) as [Hs1 Hs2].
  assert (Hs3 : match sanitize_subfolder p with [] => True | c :: _ => c <> SLASH end)
    by (destruct (sanitize_subfolder p); [exact I | exact Hs1]).
  assert (Hs4 : sanitize_subfolder p <> [])
    by (destruct (sanitize_subfolder p); [contradiction | discriminate]).
  destruct (clean_name_component _ (sanitize_filename_clean f)) as (_ & _ & Hf3).
  rewrite (path_join_relative _ (sanitize_subfolder p)) by assumption.
  fold dir.
  assert (Hdir : dir <> []).
  { subst dir. intros E. apply app_eq_nil in E as [E _]. contradiction. }
  rewrite (path_join_relative dir); [|exact Hdir| |exact Hf3].
  2:{ subst dir. change (SLASH :: sanitize_subfolder p)
        with ([SLASH] ++ sanitize_subfolder p).
      rewrite endswith_app; [|discriminate].
      rewrite endswith_app; [exact Hs2 | exact Hs4]. }
  destruct (makedirs_cases env dir w) as (ok & made & E & ->).
  destruct (dir_prefixes_last dir [] Hdir) as (l & Hl). cbn [app] in Hl.
  destruct (make_path_sub (env_makedirs env) (rev (dir_prefixes [] dir)) (dirs w))
    as [Hsub1 Hsub2].
  pose proof (make_path_leaf (env_makedirs env) dir (rev l) (dirs w)) as Hleaf.
  pose proof (fun H => make_path_ok (env_makedirs env) H
                         (rev (dir_prefixes [] dir)) (dirs w)) as Hok.
  pose proof E as E'. rewrite Hl, rev_app_distr in E'. cbn [rev app] in E'.
  rewrite E' in Hleaf. rewrite E in Hsub1, Hsub2, Hok. cbn [fst snd] in *.
  assert (Hbound : forall d, d ∈ made -> d ∈ dirs w \/ d ∈ dir_prefixes [] dir).
  { intros d Hd. apply Hsub2 in Hd. apply elem_of_union in Hd as [Hd | Hd];
      [left; exact Hd | right].
    apply elem_of_list_to_set in Hd. apply list_elem_of_In, in_rev in Hd.
    apply list_elem_of_In. exact Hd. }
  destruct ok; eexists _, _; (split; [reflexivity|]);
    cbn [dirs files _progress_store];
    (split; [|split; [|split; [reflexivity|split; [reflexivity|split;
       [exact Hsub1 | exact Hbound]]]]]).
  - left. split; [reflexivity | apply Hleaf; reflexivity].
  - intros _. reflexivity.
  - right. reflexivity.
  - intros Hmk. specialize (Hok Hmk). discriminate.
Qed.

Lemma workspace_path_of_init_witness :
  exists w',
    _get_workspace_path (demo_env2 3 true None)
      (@__init__ latin1_db (py "run-1") (py "../report") (py "a/../b") true)
      empty_world
    = (Ok (py "/home/jovyan/work/a/b/report.csv"), w')
    /\ py "/home/jovyan/work/a/b" ∈ dirs w'.
Proof.
  destruct (@workspace_path_of_init latin1_db (demo_env2 3 true None)
              (py "run-1") (py "../report") (py "a/../b") true empty_world
              latin1_alnum_not_space)
    as (r & w' & Hrun & [[-> Hdir] | Hr] & Hok & _).
  - exists w'. split; [exact Hrun | exact Hdir].
  - rewrite (Hok (fun _ => eq_refl)) in Hr. discriminate.
Defined.
